(** * DIY-MOD browser extension: interception, adapters, correlation, markers

    A shallow embedding of the TypeScript sources of the extension's core
    pipeline, followed by the properties established about them.

    The embedding:
    - [JS]         : the fragment of JavaScript values and property access
                     the sources rely on (JSON trees, [undefined], throws).
    - [Str]        : the string methods they use.
    - [MarkerText] : utils/markers, the text marker codec.
    - [Reddit]     : the Reddit platform adapter.
    - [Intercept]  : the base, fetch and XHR interceptors.
    - [WS]         : the WebSocket connector.
    - [Markers]    : utils/markers, image interventions and deferred polling.
    - [Content]    : the content script's handler of intercepted requests,
                     the platform detector and the WebSocket/HTTP choice.
    - [Reconnect]  : the reconnection policy of the WebSocket connector.
    - [Service]    : content/services/interceptor, the adapter-driven fetch
                     interceptor.

    The properties: [ParseBoundary], [FetchFacts], [XhrFacts], [WSFacts],
    [MergePatch], [MarkerFacts], [TextFacts], [UrlFacts], [WaitFacts],
    [CorrelationFacts], [ContentFacts], [ReconnectFacts], [AdapterFacts],
    [SweepFacts], [ImageFacts], [ServiceFacts].

    Browser built-ins that are not part of the repository ([JSON.parse],
    [JSON.stringify], [new URL]) are Section variables; timers, messages and
    DOM events are the events of step functions, delivered in any order. *)

From Stdlib Require Import ZArith Lia Ascii String.
From stdpp Require Import base option list strings gmap pretty.

Open Scope string_scope.
Set Warnings "-register-all".

(* ===================================================================== *)
(** * JavaScript values *)
(* ===================================================================== *)

Module JS.

(** Values that [JSON.parse] produces, plus [undefined] (the result of
    reading a missing property).  An object is its list of own properties in
    enumeration order.  [VNum n] is a JSON number whose value is the integer
    [n], of a size a double holds exactly; numbers with a fraction are not
    part of the embedding.  The adapters pass numbers through unread; what is
    proved of the image handlers that depends on the value of a coordinate
    is stated for integer coordinates. *)
Inductive value : Type :=
| VUndef
| VNull
| VBool (b : bool)
| VNum (n : Z)
| VStr (s : string)
| VArr (l : list value)
| VObj (fs : list (string * value)).

(** A computation that may throw.  Every throw the adapters can meet on
    JSON data is a [TypeError]; [SyntaxError] is the one of [JSON.parse]. *)
Inductive error : Type := TypeError | SyntaxError.

Inductive result (A : Type) : Type :=
| Ok (a : A)
| Throw (e : error).
Arguments Ok {A} a.
Arguments Throw {A} e.

Definition bind {A B} (m : result A) (k : A -> result B) : result B :=
  match m with
  | Ok a => k a
  | Throw e => Throw e
  end.

Notation "'do' x <- m ; k" := (bind m (fun x => k))
  (at level 10, x name, m at level 100, k at level 200).

(** The state of a [setTimeout] handle. *)
Inductive timer := Armed | Cleared | Fired.

(** [try { body } catch { return dflt }] *)
Definition try_catch {A} (body : result A) (dflt : A) : A :=
  match body with
  | Ok a => a
  | Throw _ => dflt
  end.

(** [arr.forEach(f)] where [f] rewrites the element it visits in place:
    elements are visited left to right, the first throw aborts the loop. *)
Fixpoint forEach {A B} (f : A -> result B) (l : list A) : result (list B) :=
  match l with
  | [] => Ok []
  | x :: xs => do y <- f x; do ys <- forEach f xs; Ok (y :: ys)
  end.

(** ToBoolean *)
Definition truthy (v : value) : bool :=
  match v with
  | VUndef | VNull => false
  | VBool b => b
  | VNum n => negb (n =? 0)%Z
  | VStr s => negb (String.eqb s EmptyString)
  | VArr _ | VObj _ => true
  end.

Definition str_truthy (o : option string) : bool :=
  match o with
  | Some s => negb (String.eqb s EmptyString)
  | None => false
  end.

(** [v === 'lit'] *)
Definition is_str (v : value) (lit : string) : bool :=
  match v with
  | VStr s => String.eqb s lit
  | _ => false
  end.

(** [Array.isArray(v)] *)
Definition isArray (v : value) : bool :=
  match v with VArr _ => true | _ => false end.

Definition nullish (v : value) : bool :=
  match v with VUndef | VNull => true | _ => false end.

(** Own-property lookup in an object. *)
Fixpoint obj_get (k : string) (fs : list (string * value)) : value :=
  match fs with
  | [] => VUndef
  | (k', v) :: fs' => if String.eqb k k' then v else obj_get k fs'
  end.

(** [o[k] = v] on an object: an existing property keeps its place, a new
    one goes last (all keys the code writes are non-numeric names). *)
Fixpoint obj_set (k : string) (v : value) (fs : list (string * value))
  : list (string * value) :=
  match fs with
  | [] => [(k, v)]
  | (k', v') :: fs' =>
      if String.eqb k k' then (k', v) :: fs' else (k', v') :: obj_set k v fs'
  end.

(** [s[i]] on a string: the one-character string at [i]. *)
Definition str_at (s : string) (i : nat) : value :=
  match String.get i s with
  | Some c => VStr (String c EmptyString)
  | None => VUndef
  end.

(** [v.name] for a property [name] that is neither an array index, nor
    [length], nor the name of a prototype method.  This covers every name
    the code reads: kind, data, children, name, id, title, selftext, url,
    preview, images, source, resolutions, media_metadata, s, u, body, type,
    requestId, error, status, ...  On [null] and [undefined] the read throws;
    arrays, strings, numbers and booleans have no such property. *)
Definition get (v : value) (name : string) : result value :=
  match v with
  | VUndef | VNull => Throw TypeError
  | VObj fs => Ok (obj_get name fs)
  | VBool _ | VNum _ | VStr _ | VArr _ => Ok VUndef
  end.

(** [v[i]] for a literal index [i]. *)
Definition get_idx (v : value) (i : nat) : result value :=
  match v with
  | VUndef | VNull => Throw TypeError
  | VObj fs => Ok (obj_get (pretty i) fs)
  | VArr l => Ok (default VUndef (l !! i))
  | VStr s => Ok (str_at s i)
  | VBool _ | VNum _ => Ok VUndef
  end.

(** [v?.name] *)
Definition get_opt (v : value) (name : string) : value :=
  match v with
  | VObj fs => obj_get name fs
  | _ => VUndef
  end.

(** [v?.[i]] *)
Definition get_idx_opt (v : value) (i : nat) : value :=
  match v with
  | VObj fs => obj_get (pretty i) fs
  | VArr l => default VUndef (l !! i)
  | VStr s => str_at s i
  | _ => VUndef
  end.

(** [v.name = x] in strict-mode code.  On an array the assignment creates an
    expando property, which no later read in this code base observes and
    which [JSON.stringify] does not print: the array is left as it is.  On a
    primitive the assignment throws, as does any write to [null] or
    [undefined]. *)
Definition set (v : value) (name : string) (x : value) : result value :=
  match v with
  | VObj fs => Ok (VObj (obj_set name x fs))
  | VArr l => Ok (VArr l)
  | VUndef | VNull | VBool _ | VNum _ | VStr _ => Throw TypeError
  end.

(** Store back the (mutated) object that was read from [v.name].  JavaScript
    mutates in place; the functional model rebuilds the path.  The slot
    exists whenever the value read from it was an object or an array. *)
Definition put (v : value) (name : string) (x : value) : value :=
  match v with
  | VObj fs => VObj (obj_set name x fs)
  | _ => v
  end.

Definition put_idx (v : value) (i : nat) (x : value) : value :=
  match v with
  | VObj fs => VObj (obj_set (pretty i) x fs)
  | VArr l => VArr (<[i := x]> l)
  | _ => v
  end.

(** [v.forEach(f)]: only arrays have the method. *)
Definition forEach_value (f : value -> result value) (v : value)
  : result value :=
  match v with
  | VArr l => do l' <- forEach f l; Ok (VArr l')
  | _ => Throw TypeError
  end.

(** ToString, as applied by [RegExp.prototype.test] to its argument.  An
    object that carries an own [toString] property (never callable in JSON
    data) cannot be converted. *)
Definition has_key (k : string) (fs : list (string * value)) : bool :=
  existsb (fun kv => String.eqb k kv.1) fs.

(** [String(n)] for an integer [n]: plain digits, the form JavaScript
    prints below 10^21. *)
Definition Z_to_string (n : Z) : string :=
  if (n <? 0)%Z then "-" +:+ pretty (Z.to_N (- n)) else pretty (Z.to_N n).

Fixpoint join_with (sep : string) (l : list string) : string :=
  match l with
  | [] => EmptyString
  | [x] => x
  | x :: xs => x +:+ sep +:+ join_with sep xs
  end.

Fixpoint toString (v : value) : result string :=
  match v with
  | VUndef => Ok "undefined"
  | VNull => Ok "null"
  | VBool true => Ok "true"
  | VBool false => Ok "false"
  | VNum n => Ok (Z_to_string n)
  | VStr s => Ok s
  | VObj fs => if has_key "toString" fs then Throw TypeError
               else Ok "[object Object]"
  | VArr l =>
      do parts <- (fix elems (l : list value) : result (list string) :=
                match l with
                | [] => Ok []
                | x :: xs =>
                    do s <- (if nullish x then Ok EmptyString else toString x);
                    do ss <- elems xs;
                    Ok (s :: ss)
                end) l;
      Ok (join_with "," parts)
  end.

End JS.

(* ===================================================================== *)
(** * String helpers (String.prototype methods used by the sources) *)
(* ===================================================================== *)

Module Str.

Definition dq : string := String "034"%char EmptyString.
Definition nl : string := String "010"%char EmptyString.

(** [text.includes(pat)] *)
Definition includes (text pat : string) : bool :=
  match String.index 0 pat text with
  | Some _ => true
  | None => false
  end.

(** Split [s] around the first occurrence of [pat]. *)
Definition cut (pat s : string) : option (string * string) :=
  match String.index 0 pat s with
  | Some i =>
      Some (String.substring 0 i s,
            String.substring (i + String.length pat)
                             (String.length s - (i + String.length pat)) s)
  | None => None
  end.

(** [s.split(sep)] for a one-character separator. *)
Fixpoint split (sep : ascii) (s : string) : list string :=
  match s with
  | EmptyString => [EmptyString]
  | String c s' =>
      if Ascii.eqb c sep then EmptyString :: split sep s'
      else match split sep s' with
           | [] => [String c EmptyString]
           | w :: ws => String c w :: ws
           end
  end.

Definition nonempty (s : string) : bool := negb (String.eqb s EmptyString).

(** Line terminators of the regular-expression dot: LF, CR, and U+2028 /
    U+2029 in their UTF-8 encoding (strings are byte strings here). *)
Definition LS : string :=
  String "226"%char (String "128"%char (String "168"%char EmptyString)).
Definition PS : string :=
  String "226"%char (String "128"%char (String "169"%char EmptyString)).

Definition at_line_terminator (s : string) : bool :=
  String.prefix nl s || String.prefix (String "013"%char EmptyString) s
  || String.prefix LS s || String.prefix PS s.

Fixpoint has_line_terminator (s : string) : bool :=
  match s with
  | EmptyString => false
  | String _ s' => at_line_terminator s || has_line_terminator s'
  end.

(** The longest prefix of [s] the pattern [.*] can match. *)
Fixpoint first_line (s : string) : string :=
  match s with
  | EmptyString => EmptyString
  | String c s' =>
      if at_line_terminator s then EmptyString else String c (first_line s')
  end.

(** White space and line terminators of [String.prototype.trim], by their
    UTF-8 encoding.  One byte: TAB, LF, VT, FF, CR and SPACE. *)
Definition is_space (c : ascii) : bool :=
  let n := nat_of_ascii c in
  (n =? 32)%nat || ((9 <=? n)%nat && (n <=? 13)%nat).

(** Two bytes: U+00A0 (no-break space). *)
Definition is_space2 (c1 c2 : ascii) : bool :=
  (nat_of_ascii c1 =? 194)%nat && (nat_of_ascii c2 =? 160)%nat.

(** Three bytes: U+1680, U+2000 to U+200A, U+2028, U+2029, U+202F, U+205F,
    U+3000 and U+FEFF. *)
Definition is_space3 (c1 c2 c3 : ascii) : bool :=
  let n1 := nat_of_ascii c1 in
  let n2 := nat_of_ascii c2 in
  let n3 := nat_of_ascii c3 in
  ((n1 =? 225)%nat && (n2 =? 154)%nat && (n3 =? 128)%nat)
  || ((n1 =? 226)%nat && (n2 =? 128)%nat
      && (((128 <=? n3)%nat && (n3 <=? 138)%nat) || (n3 =? 168)%nat
          || (n3 =? 169)%nat || (n3 =? 175)%nat))
  || ((n1 =? 226)%nat && (n2 =? 129)%nat && (n3 =? 159)%nat)
  || ((n1 =? 227)%nat && (n2 =? 128)%nat && (n3 =? 128)%nat)
  || ((n1 =? 239)%nat && (n2 =? 187)%nat && (n3 =? 191)%nat).

Fixpoint trim_left (s : string) : string :=
  match s with
  | EmptyString => EmptyString
  | String c1 s1 =>
      if is_space c1 then trim_left s1
      else
        match s1 with
        | EmptyString => s
        | String c2 s2 =>
            if is_space2 c1 c2 then trim_left s2
            else
              match s2 with
              | EmptyString => s
              | String c3 s3 =>
                  if is_space3 c1 c2 c3 then trim_left s3 else s
              end
        end
  end.

(** [trim_left] on the reversed string: the bytes of a white-space
    character come last byte first. *)
Fixpoint trim_left_reversed (s : string) : string :=
  match s with
  | EmptyString => EmptyString
  | String c1 s1 =>
      if is_space c1 then trim_left_reversed s1
      else
        match s1 with
        | EmptyString => s
        | String c2 s2 =>
            if is_space2 c2 c1 then trim_left_reversed s2
            else
              match s2 with
              | EmptyString => s
              | String c3 s3 =>
                  if is_space3 c3 c2 c1 then trim_left_reversed s3 else s
              end
        end
  end.

(** [s.trim()] *)
Definition trim (s : string) : string :=
  String.rev (trim_left_reversed (String.rev (trim_left s))).

Definition lower (c : ascii) : ascii :=
  let n := nat_of_ascii c in
  if ((65 <=? n)%nat && (n <=? 90)%nat) then ascii_of_nat (n + 32) else c.

Fixpoint to_lower (s : string) : string :=
  match s with
  | EmptyString => EmptyString
  | String c s' => String (lower c) (to_lower s')
  end.

End Str.

(* ===================================================================== *)
(** * utils/markers: the text marker codec *)
(* ===================================================================== *)

Module MarkerText.
Import Str.

(** shared/constants: MARKERS and CSS_CLASSES *)
Definition BLUR_START := "__BLUR_START__".
Definition BLUR_END := "__BLUR_END__".
Definition OVERLAY_START := "__OVERLAY_START__".
Definition OVERLAY_END := "__OVERLAY_END__".
Definition REWRITE_START := "__REWRITE_START__".
Definition REWRITE_END := "__REWRITE_END__".

Definition CSS_BLUR := "diymod-blur".
Definition CSS_OVERLAY := "diymod-overlay".
Definition CSS_REWRITTEN := "diymod-rewritten".
Definition CSS_CONTENT_OVERLAY := "content-overlay".
Definition CSS_HIDDEN := "hidden".
Definition CSS_PROCESSING := "diymod-processing".

Record MarkerHandler := {
  name : string;
  startMarker : string;
  endMarker : string;
  detect : string -> bool;
  process : string -> string
}.

(** [text.replace(new RegExp(START + '([\s\S]*?)' + END, 'g'), wrap)]:
    the leftmost START pairs with the first END after it; the scan resumes
    behind that END.  When no END follows, no later START can match. *)
Fixpoint replace_delimited (fuel : nat) (START END : string)
    (wrap : string -> string) (text : string) : string :=
  match fuel with
  | O => text
  | S fuel' =>
      match cut START text with
      | None => text
      | Some (before, rest) =>
          match cut END rest with
          | None => text
          | Some (content, rest') =>
              before +:+ wrap content
                     +:+ replace_delimited fuel' START END wrap rest'
          end
      end
  end.

Definition processBlurMarkers (text : string) : string :=
  if negb (includes text BLUR_START) then text
  else replace_delimited (String.length text) BLUR_START BLUR_END
         (fun content =>
            "<span class=" +:+ dq +:+ CSS_BLUR +:+ dq +:+ ">" +:+ content
            +:+ "</span>")
         text.

Definition overlay_html (warning content : string) : string :=
  let warningText :=
    if nonempty (trim warning) then trim warning else "Content filtered" in
  "<div class=" +:+ dq +:+ CSS_CONTENT_OVERLAY +:+ " " +:+ CSS_OVERLAY
  +:+ " " +:+ CSS_HIDDEN +:+ dq +:+ " data-warning=" +:+ dq +:+ warningText
  +:+ dq +:+ " onclick=" +:+ dq +:+ "this.classList.toggle('" +:+ CSS_HIDDEN
  +:+ "')" +:+ dq +:+ ">" +:+ nl
  +:+ "      <div class=" +:+ dq +:+ "content" +:+ dq +:+ ">" +:+ content
  +:+ "</div>" +:+ nl
  +:+ "      <div class=" +:+ dq +:+ "warning" +:+ dq +:+ ">" +:+ warningText
  +:+ "</div>" +:+ nl
  +:+ "    </div>".

(** [START(.*?)\|([\s\S]*?)END], global: the warning is the text up to the
    first bar on the line of START; the content runs to the first END behind
    the bar.  A START without a bar on its line is literal text and the scan
    resumes one character further. *)
Fixpoint replace_overlay (fuel : nat) (text : string) : string :=
  match fuel with
  | O => text
  | S fuel' =>
      match cut OVERLAY_START text with
      | None => text
      | Some (before, rest) =>
          match cut "|" (first_line rest) with
          | None =>
              before +:+ "_"
              +:+ replace_overlay fuel'
                    (String.substring 1 (String.length OVERLAY_START - 1)
                       OVERLAY_START +:+ rest)
          | Some (warning, _) =>
              let after_bar :=
                String.substring (String.length warning + 1)
                  (String.length rest - (String.length warning + 1)) rest in
              match cut OVERLAY_END after_bar with
              | None => text
              | Some (content, rest') =>
                  before +:+ overlay_html warning content
                         +:+ replace_overlay fuel' rest'
              end
          end
      end
  end.

Definition processOverlayMarkers (text : string) : string :=
  if negb (includes text OVERLAY_START) then text
  else replace_overlay (String.length text) text.

Definition processRewriteMarkers (text : string) : string :=
  if negb (includes text REWRITE_START) then text
  else replace_delimited (String.length text) REWRITE_START REWRITE_END
         (fun content =>
            "<div class=" +:+ dq +:+ CSS_REWRITTEN +:+ dq +:+ ">" +:+ nl
            +:+ "      " +:+ content +:+ nl
            +:+ "      <div class=" +:+ dq +:+ "modification-indicator" +:+ dq
            +:+ ">Modified by DIY-MOD</div>" +:+ nl
            +:+ "    </div>")
         text.

(** The registry after the module's three [registerMarkerHandler] calls. *)
Definition markerHandlers : list MarkerHandler :=
  [ {| name := "blur"; startMarker := BLUR_START; endMarker := BLUR_END;
       detect := fun text => includes text BLUR_START;
       process := processBlurMarkers |};
    {| name := "overlay"; startMarker := OVERLAY_START;
       endMarker := OVERLAY_END;
       detect := fun text => includes text OVERLAY_START;
       process := processOverlayMarkers |};
    {| name := "rewrite"; startMarker := REWRITE_START;
       endMarker := REWRITE_END;
       detect := fun text => includes text REWRITE_START;
       process := processRewriteMarkers |} ].

Definition hasAnyMarkers (text : string) : bool :=
  if negb (nonempty text) then false
  else existsb (fun handler => detect handler text) markerHandlers.

Definition processMarkedText (text : string) : string :=
  if negb (nonempty text) then EmptyString
  else if negb (hasAnyMarkers text) then text
  else foldl (fun result handler =>
                if detect handler result then process handler result
                else result)
             text markerHandlers.

End MarkerText.

(* ===================================================================== *)
(** * The Reddit platform adapter *)
(* ===================================================================== *)

Module Reddit.
Import JS Str MarkerText.

(** shared/types *)
Record Post := {
  post_id : value;
  title : value;
  body : value;
  mediaUrls : list value;
  platform : string;
  metadata : list (string * value)
}.

Record ProcessedPost := {
  pid : string;
  processedTitle : option string;
  processedBody : option string;
  processedMediaUrls : option (list string)
}.

(** The image-URL regular expression, case-insensitive: a dot, one of the
    five extensions, then either the end of the string or a question mark
    followed by anything but a line terminator up to the end. *)
Definition image_extensions : list string :=
  ["jpg"; "jpeg"; "png"; "gif"; "webp"].

Definition query_tail_ok (rest : string) : bool :=
  match rest with
  | EmptyString => true
  | String c rest' => Ascii.eqb c "?" && negb (has_line_terminator rest')
  end.

Definition extension_here (s : string) : bool :=
  existsb (fun ext =>
             String.prefix ext (to_lower s)
             && query_tail_ok
                  (String.substring (String.length ext)
                     (String.length s - String.length ext) s))
          image_extensions.

Fixpoint image_regex_test (s : string) : bool :=
  match s with
  | EmptyString => false
  | String c s' => (Ascii.eqb c "." && extension_here s') || image_regex_test s'
  end.

Definition isImageUrl (url : value) : result bool :=
  do s <- toString url; Ok (image_regex_test s).

(** [post.name || post.id] *)
Definition name_or_id (post : value) : result value :=
  do n <- get post "name";
  if truthy n then Ok n else get post "id".

(** [Object.values(v)] for a truthy [v]. *)
Definition object_values (v : value) : list value :=
  match v with
  | VObj fs => fs.*2
  | VArr l => l
  | VStr s => (fun c => VStr (String c EmptyString)) <$> list_ascii_of_string s
  | _ => []
  end.

Definition extractMediaUrls (post : value) : result (list value) :=
  do preview <- get post "preview";
  let images := get_opt preview "images" in
  do fromPreview <-
     (if truthy images then
        match images with
        | VArr l =>
            do found <- forEach (fun image =>
                           do source <- get image "source";
                           let url := get_opt source "url" in
                           Ok (if truthy url then [url] else [])) l;
            Ok (concat found)
        | _ => Throw TypeError
        end
      else Ok []);
  do media_metadata <- get post "media_metadata";
  do fromGallery <-
     (if truthy media_metadata then
        do found <- forEach (fun media =>
                       do s <- get media "s";
                       let u := get_opt s "u" in
                       Ok (if truthy u then [u] else []))
                    (object_values media_metadata);
        Ok (concat found)
      else Ok []);
  do url <- get post "url";
  do direct <-
     (if truthy url then
        do isImg <- isImageUrl url; Ok (if isImg then [url] else [])
      else Ok []);
  Ok (fromPreview ++ fromGallery ++ direct)%list.

Definition make_post (post : value) : result Post :=
  do i <- name_or_id post;
  do t <- get post "title";
  do b <- get post "selftext";
  do m <- extractMediaUrls post;
  do subreddit <- get post "subreddit";
  do author <- get post "author";
  do created <- get post "created_utc";
  Ok {| post_id := i; title := t; body := b; mediaUrls := m;
        platform := "reddit";
        metadata := [("subreddit", subreddit); ("author", author);
                     ("created", created)] |}.

Definition make_comment (cdata : value) : result Post :=
  do i <- name_or_id cdata;
  do b <- get cdata "body";
  do author <- get cdata "author";
  do parent <- get cdata "parent_id";
  Ok {| post_id := i; title := VUndef; body := b; mediaUrls := [];
        platform := "reddit";
        metadata := [("type", VStr "comment"); ("author", author);
                     ("parent", parent)] |}.

(** [data.kind === 'Listing' && Array.isArray(data.data?.children)] *)
Definition listing_children (data : value) : result (option (list value)) :=
  do kind <- get data "kind";
  if is_str kind "Listing" then
    do d <- get data "data";
    match get_opt d "children" with
    | VArr children => Ok (Some children)
    | _ => Ok None
    end
  else Ok None.

(** [data[0]?.data?.children?.[0]?.data] *)
Definition detail_main_post (data : value) : result value :=
  do first <- get_idx data 0;
  Ok (get_opt (get_idx_opt (get_opt (get_opt first "data") "children") 0)
        "data").

(** [data[1]?.data?.children] *)
Definition detail_comments (data : value) : result value :=
  do second <- get_idx data 1;
  Ok (get_opt (get_opt second "data") "children").

(** The condition of the post-detail branch. *)
Definition is_detail (data : value) : result bool :=
  do post <- detail_main_post data;
  if truthy post then
    do comments <- detail_comments data; Ok (truthy comments)
  else Ok false.

Definition extract_tree (data : value) : result (list Post) :=
  do listing <- listing_children data;
  do posts1 <-
     match listing with
     | Some children =>
         do found <- forEach (fun child =>
                        do kind <- get child "kind";
                        if is_str kind "t3" then
                          do post <- get child "data";
                          do p <- make_post post; Ok [p]
                        else Ok []) children;
         Ok (concat found)
     | None => Ok []
     end;
  do detail <- is_detail data;
  do posts2 <-
     (if detail then
        do post <- detail_main_post data;
        do p <- make_post post;
        do comments <- detail_comments data;
        match comments with
        | VArr l =>
            do found <- forEach (fun comment =>
                           do kind <- get comment "kind";
                           if is_str kind "t1" then
                             do cdata <- get comment "data";
                             if truthy cdata then
                               do c <- make_comment cdata; Ok [c]
                             else Ok []
                           else Ok []) l;
            Ok (p :: concat found)
        | _ => Throw TypeError
        end
      else Ok []);
  Ok (posts1 ++ posts2)%list.

(** ** updateMediaUrls *)

(** [image.resolutions.forEach(resolution => { resolution.url = u })] *)
Definition update_resolutions (u : string) (image : value) : result value :=
  do resolutions <- get image "resolutions";
  match resolutions with
  | VArr l =>
      do l' <- forEach (fun resolution => set resolution "url" (VStr u)) l;
      Ok (put image "resolutions" (VArr l'))
  | _ => Ok image
  end.

(** The callback of [post.preview.images.forEach], with [urlIndex] threaded
    through. *)
Fixpoint update_images (urls : list string) (urlIndex : nat)
    (images : list value) : result (list value) :=
  match images with
  | [] => Ok []
  | image :: rest =>
      do source <- get image "source";
      match (if truthy source then urls !! urlIndex else None) with
      | Some u =>
          do source' <- set source "url" (VStr u);
          do image' <- update_resolutions u (put image "source" source');
          do rest' <- update_images urls (S urlIndex) rest;
          Ok (image' :: rest')
      | None =>
          do rest' <- update_images urls urlIndex rest;
          Ok (image :: rest')
      end
  end.

(** One step of [Object.keys(post.media_metadata).forEach]: [media] is
    [post.media_metadata[key]]. *)
Definition update_media (urls : list string) (urlIndex : nat) (media : value)
  : result (value * nat) :=
  do s <- get media "s";
  match (if truthy s then urls !! urlIndex else None) with
  | Some u =>
      do s' <- set s "u" (VStr u);
      Ok (put media "s" s', S urlIndex)
  | None => Ok (media, urlIndex)
  end.

Fixpoint update_gallery_keys (urls : list string) (urlIndex : nat)
    (keys : list string) (fs : list (string * value))
  : result (list (string * value)) :=
  match keys with
  | [] => Ok fs
  | key :: keys' =>
      do r <- update_media urls urlIndex (obj_get key fs);
      update_gallery_keys urls r.2 keys' (obj_set key r.1 fs)
  end.

Fixpoint update_gallery_items (urls : list string) (urlIndex : nat)
    (items : list value) : result (list value) :=
  match items with
  | [] => Ok []
  | media :: rest =>
      do r <- update_media urls urlIndex media;
      do rest' <- update_gallery_items urls r.2 rest;
      Ok (r.1 :: rest')
  end.

(** The gallery loop over a truthy [post.media_metadata].  The characters
    of a string have no [s]; numbers and booleans have no keys. *)
Definition update_gallery (urls : list string) (media_metadata : value)
  : result value :=
  match media_metadata with
  | VObj fs => do fs' <- update_gallery_keys urls 0 fs.*1 fs; Ok (VObj fs')
  | VArr l => do l' <- update_gallery_items urls 0 l; Ok (VArr l')
  | _ => Ok media_metadata
  end.

Definition updateMediaUrls (post : value) (processedUrls : list string)
  : result value :=
  (* Simple case: single image post with direct URL *)
  do post1 <-
     match processedUrls with
     | [u] =>
         do url <- get post "url";
         if truthy url then
           do isImg <- isImageUrl url;
           if isImg then set post "url" (VStr u) else Ok post
         else Ok post
     | _ => Ok post
     end;
  (* Update preview images *)
  do preview <- get post1 "preview";
  let images := get_opt preview "images" in
  do post2 <-
     (if truthy images && (0 <? length processedUrls)%nat then
        match images with
        | VArr l =>
            do l' <- update_images processedUrls 0 l;
            Ok (put post1 "preview" (put preview "images" (VArr l')))
        | _ => Throw TypeError
        end
      else Ok post1);
  (* Update gallery posts *)
  do media_metadata <- get post2 "media_metadata";
  if truthy media_metadata && (0 <? length processedUrls)%nat then
    do mm' <- update_gallery processedUrls media_metadata;
    Ok (put post2 "media_metadata" mm')
  else Ok post2.

(** ** updateResponseWithProcessedPosts *)

(** [processedPosts.forEach(post => processedPostMap.set(post.id, post))] *)
Definition build_map (processedPosts : list ProcessedPost)
  : gmap string ProcessedPost :=
  foldl (fun m post => <[pid post := post]> m) ∅ processedPosts.

(** [processedPostMap.get(k)]: the keys of the map are strings. *)
Definition map_get (m : gmap string ProcessedPost) (k : value)
  : option ProcessedPost :=
  match k with
  | VStr s => m !! s
  | _ => None
  end.

(** The title / body / media block applied to a post that was found in the
    map. *)
Definition patch_post (processedPost : ProcessedPost) (post : value)
  : result value :=
  do post1 <-
     match processedTitle processedPost with
     | Some t =>
         if nonempty t then set post "title" (VStr (processMarkedText t))
         else Ok post
     | None => Ok post
     end;
  do post2 <-
     match processedBody processedPost with
     | Some b =>
         if nonempty b then
           do p <- set post1 "selftext" (VStr (processMarkedText b));
           set p "selftext_html" (VStr (processMarkedText b))
         else Ok post1
     | None => Ok post1
     end;
  match processedMediaUrls processedPost with
  | Some urls =>
      if (0 <? length urls)%nat then updateMediaUrls post2 urls else Ok post2
  | None => Ok post2
  end.

Definition update_post (m : gmap string ProcessedPost) (post : value)
  : result value :=
  do key <- name_or_id post;
  match map_get m key with
  | Some processedPost => patch_post processedPost post
  | None => Ok post
  end.

Definition update_listing_child (m : gmap string ProcessedPost)
    (child : value) : result value :=
  do kind <- get child "kind";
  if is_str kind "t3" then
    do post <- get child "data";
    do post' <- update_post m post;
    Ok (put child "data" post')
  else Ok child.

Definition update_comment (m : gmap string ProcessedPost) (comment : value)
  : result value :=
  do kind <- get comment "kind";
  if is_str kind "t1" then
    do cdata <- get comment "data";
    if truthy cdata then
      do key <- name_or_id cdata;
      match map_get m key with
      | Some processedComment =>
          match processedBody processedComment with
          | Some b =>
              if nonempty b then
                do c <- set cdata "body" (VStr (processMarkedText b));
                do c' <- set c "body_html" (VStr (processMarkedText b));
                Ok (put comment "data" c')
              else Ok comment
          | None => Ok comment
          end
      | None => Ok comment
      end
    else Ok comment
  else Ok comment.

Definition update_listing (m : gmap string ProcessedPost) (data : value)
  : result value :=
  do listing <- listing_children data;
  match listing with
  | Some children =>
      do children' <- forEach (update_listing_child m) children;
      do d <- get data "data";
      Ok (put data "data" (put d "children" (VArr children')))
  | None => Ok data
  end.

Definition update_detail (m : gmap string ProcessedPost) (data : value)
  : result value :=
  do detail <- is_detail data;
  if detail then
    (* Main post *)
    do first <- get_idx data 0;
    let d0 := get_opt first "data" in
    let c0 := get_opt d0 "children" in
    let child0 := get_idx_opt c0 0 in
    do post <- get child0 "data";
    do post' <- update_post m post;
    let data1 :=
      put_idx data 0
        (put first "data"
           (put d0 "children" (put_idx c0 0 (put child0 "data" post')))) in
    (* Comments *)
    do second <- get_idx data1 1;
    do d1 <- get second "data";
    do c1 <- get d1 "children";
    do c1' <- forEach_value (update_comment m) c1;
    Ok (put_idx data1 1 (put second "data" (put d1 "children" c1')))
  else Ok data.

Definition update_tree (processedPosts : list ProcessedPost) (data : value)
  : result value :=
  let m := build_map processedPosts in
  do data1 <- update_listing m data;
  update_detail m data1.

Section WithJSON_Reddit.
(** [JSON.parse] ([None]: SyntaxError) and [JSON.stringify]. *)
Variable JSON_parse : string -> option value.
Variable JSON_stringify : value -> string.

Definition parse (s : string) : result value :=
  match JSON_parse s with
  | Some v => Ok v
  | None => Throw SyntaxError
  end.

Definition extractPosts (responseData : string) : list Post :=
  try_catch (do data <- parse responseData; extract_tree data) [].

Definition updateResponseWithProcessedPosts (originalResponse : string)
    (processedPosts : list ProcessedPost) : string :=
  try_catch (do data <- parse originalResponse;
             do data' <- update_tree processedPosts data;
             Ok (JSON_stringify data'))
            originalResponse.
End WithJSON_Reddit.

End Reddit.

(* ===================================================================== *)
(** * Network interceptors *)
(* ===================================================================== *)

Module Intercept.
Import Str.
Import JS(timer, Armed, Cleared, Fired).

(** The part of a parsed [URL] the interceptors read. *)
Record URL := { pathname : string }.

(** shared/types: InterceptedRequest *)
Record InterceptedRequest := {
  req_id : string;
  req_url : string;
  startTime : string;
  req_type : string;
  req_response : string
}.

(** A [Response]: [text] is what reading the body yields ([None]: the read
    rejects). *)
Record Response := {
  ok : bool;
  status : nat;
  statusText : string;
  headers : list (string * string);
  text : option string
}.

(** The outcome of one call of the page's original [fetch]. *)
Inductive fetch_result :=
| Resolved (r : Response)
| Rejected.

(** The promise the fetch wrapper hands to the page while it waits for the
    processed feed: its timeout, its [CustomFeedReady] listener, and every
    call made to its [resolve] function, oldest first.  A promise keeps the
    value of the first call. *)
Record waiting := {
  requestId : string;
  response : Response;             (* the original response *)
  cloneForPage : Response;
  timeoutId : timer;
  listening : bool;
  resolved : list Response
}.

Definition settled_value (w : waiting) : option Response := head (resolved w).

Inductive wait_event :=
| TimeoutFires
| CustomFeedReady (id : string) (processed : string).

(** Statuses for which the [Response] constructor rejects a body. *)
Definition null_body_status (st : nat) : bool :=
  (st =? 101)%nat || (st =? 103)%nat || (st =? 204)%nat || (st =? 205)%nat
  || (st =? 304)%nat.

(** Header names compare without regard to letter case. *)
Definition has_header (name : string) (hs : list (string * string)) : bool :=
  existsb (fun h => String.eqb (to_lower h.1) name) hs.

(** The header list of [new Response(body, {headers})] for a string body:
    the given headers, and the body's type appended when they name no
    [Content-Type]. *)
Definition response_headers (hs : list (string * string))
  : list (string * string) :=
  if has_header "content-type" hs then hs
  else hs ++ [("content-type", "text/plain;charset=UTF-8")].

(** [new Response(body, {status, statusText, headers})] for a string
    [body]; [None] when the constructor throws. *)
Definition new_Response (body : string) (orig : Response) : option Response :=
  if null_body_status (status orig) then None
  else Some {| ok := (200 <=? status orig)%nat && (status orig <=? 299)%nat;
               status := status orig; statusText := statusText orig;
               headers := response_headers (headers orig);
               text := Some body |}.

Definition wait_step (w : waiting) (e : wait_event) : waiting :=
  match e with
  | TimeoutFires =>
      match timeoutId w with
      | Armed =>
          (* removeEventListener; resolve(cloneForPage) *)
          {| requestId := requestId w; response := response w;
             cloneForPage := cloneForPage w; timeoutId := Fired;
             listening := false;
             resolved := resolved w ++ [cloneForPage w] |}
      | _ => w
      end
  | CustomFeedReady id processed =>
      if listening w && String.eqb id (requestId w) then
        (* clearTimeout; removeEventListener; resolve(new Response(...)) *)
        {| requestId := requestId w; response := response w;
           cloneForPage := cloneForPage w;
           timeoutId := match timeoutId w with Armed => Cleared | t => t end;
           listening := false;
           resolved := resolved w
                       ++ match new_Response processed (response w) with
                          | Some r => [r]
                          | None => []
                          end |}
      else w
  end.

Definition wait_run (w : waiting) (es : list wait_event) : waiting :=
  foldl wait_step w es.

(** What the patched [window.fetch] has done when it returns. *)
Inductive fetch_outcome :=
| Returned (r : fetch_result)   (* the wrapper's promise follows [r] *)
| Wait (w : waiting).           (* the wrapper waits for the processed feed *)

Record fetch_call := {
  counter_after : nat;                       (* requestIdCounter *)
  dispatched : list InterceptedRequest;      (* SaveBatch events *)
  fetches : nat;                             (* calls of the original fetch *)
  outcome : fetch_outcome
}.

Section WithURL.
(** [new URL(url)]; [None] when the constructor throws. *)
Variable URL_parse : string -> option URL.

(** [urlObj.pathname.split('?')[0].split('/').filter(Boolean).pop()] *)
Definition actionName (urlObj : URL) : option string :=
  last (filter (fun seg => Is_true (nonempty seg))
          (split "/" (default EmptyString
                        (head (split "?" (pathname urlObj)))))).

Definition shouldInterceptUrl (url : string)
    (subscribedEndpoints : list string) : bool :=
  match URL_parse url with
  | None => false
  | Some urlObj =>
      match actionName urlObj with
      | None => false
      | Some name => existsb (String.eqb name) subscribedEndpoints
      end
  end.

(** ** FetchInterceptor.overrideFetch

    [originalFetch n] is the outcome of the [n]-th call of the original
    fetch for this request, [now] the value of
    [new Date().toISOString()]. *)
Definition fetch_wrapper (subscribedEndpoints : list string)
    (requestIdCounter : nat) (originalFetch : nat -> fetch_result)
    (now : string) (url : string) : fetch_call :=
  if negb (shouldInterceptUrl url subscribedEndpoints) then
    {| counter_after := requestIdCounter; dispatched := []; fetches := 1;
       outcome := Returned (originalFetch 0) |}
  else
    match originalFetch 0 with
    | Rejected =>
        (* outer catch: the request is issued again *)
        {| counter_after := requestIdCounter; dispatched := [];
           fetches := 2; outcome := Returned (originalFetch 1) |}
    | Resolved resp =>
        if negb (ok resp) then
          (* Skip processing for error responses *)
          {| counter_after := requestIdCounter; dispatched := [];
             fetches := 1; outcome := Returned (Resolved resp) |}
        else
          match URL_parse url, text resp with
          | Some urlObj, Some responseData =>
              let id := pretty requestIdCounter in
              let interceptedData :=
                {| req_id := id; req_url := url; startTime := now;
                   req_type := default "unknown" (actionName urlObj);
                   req_response := responseData |} in
              {| counter_after := S requestIdCounter;
                 dispatched := [interceptedData]; fetches := 1;
                 outcome :=
                   Wait {| requestId := id; response := resp;
                           cloneForPage := resp; timeoutId := Armed;
                           listening := true; resolved := [] |} |}
          | _, _ =>
              (* inner catch *)
              {| counter_after := requestIdCounter; dispatched := [];
                 fetches := 1; outcome := Returned (Resolved resp) |}
          end
    end.
End WithURL.

(** ** XhrInterceptor *)

Inductive ready_handler :=
| NoHandler
| HostCallback (cb : nat)      (* a function installed by the page *)
| Wrapper.                     (* the interceptor's replacement *)

(** [responseText] is [None] when reading it throws (a [responseType] other
    than text). *)
Record XHR := {
  _url : option string;
  _id : string;
  _startTime : string;
  _originalCallback : option nat;
  onreadystatechange : ready_handler;
  readyState : nat;
  responseText : option string;
  response_override : option string     (* Object.defineProperty getters *)
}.

Definition DONE : nat := 4.

Record handler := { h_xhr : nat; h_callback : option nat }.

(** One invocation of a page callback: which one, on which request, in
    which ready state. *)
Record invocation := { inv_cb : nat; inv_xhr : nat; inv_state : nat }.

Record xhr_world := {
  xhrs : gmap nat XHR;
  requestIdCounter : nat;
  eventHandlers : gmap string handler;
  saveBatch : list InterceptedRequest;
  calls : list invocation
}.

Definition set_xhr (w : xhr_world) (x : nat) (o : XHR) : xhr_world :=
  {| xhrs := <[x := o]> (xhrs w); requestIdCounter := requestIdCounter w;
     eventHandlers := eventHandlers w; saveBatch := saveBatch w;
     calls := calls w |}.

Definition invoke (w : xhr_world) (cb : option nat) (x : nat) (st : nat)
  : xhr_world :=
  match cb with
  | Some c =>
      {| xhrs := xhrs w; requestIdCounter := requestIdCounter w;
         eventHandlers := eventHandlers w; saveBatch := saveBatch w;
         calls := calls w ++ [{| inv_cb := c; inv_xhr := x;
                                 inv_state := st |}] |}
  | None => w
  end.

Section WithURL_XHR.
Variable URL_parse : string -> option URL.
Variable subscribedEndpoints : list string.

(** The patched [open]. *)
Definition xhr_open (w : xhr_world) (x : nat) (url now : string)
  : xhr_world :=
  match xhrs w !! x with
  | None => w
  | Some o =>
      let o' := {| _url := Some url; _id := pretty (requestIdCounter w);
                   _startTime := now;
                   _originalCallback := _originalCallback o;
                   onreadystatechange := onreadystatechange o;
                   readyState := 1; responseText := responseText o;
                   response_override := response_override o |} in
      {| xhrs := <[x := o']> (xhrs w);
         requestIdCounter := S (requestIdCounter w);
         eventHandlers := eventHandlers w; saveBatch := saveBatch w;
         calls := calls w |}
  end.

(** The patched [send]. *)
Definition xhr_send (w : xhr_world) (x : nat) : xhr_world :=
  match xhrs w !! x with
  | None => w
  | Some o =>
      match _url o with
      | Some url =>
          if String.eqb url EmptyString
             || negb (shouldInterceptUrl URL_parse url subscribedEndpoints)
          then w
          else
            set_xhr w x
              {| _url := _url o; _id := _id o; _startTime := _startTime o;
                 _originalCallback :=
                   match onreadystatechange o with
                   | HostCallback cb => Some cb
                   | _ => None
                   end;
                 onreadystatechange := Wrapper;
                 readyState := readyState o;
                 responseText := responseText o;
                 response_override := response_override o |}
      | None => w
      end
  end.

(** The replacement [onreadystatechange]. *)
Definition wrapper_callback (w : xhr_world) (x : nat) (o : XHR)
  : xhr_world :=
  if negb (readyState o =? DONE)%nat then
    (* Not done yet, call original *)
    invoke w (_originalCallback o) x (readyState o)
  else
    match responseText o with
    | None =>
        (* catch: call original callback in case of error *)
        invoke w (_originalCallback o) x (readyState o)
    | Some responseData =>
        if String.eqb responseData EmptyString then
          (* No data, just call original *)
          invoke w (_originalCallback o) x (readyState o)
        else
          match URL_parse (default EmptyString (_url o)) with
          | None => invoke w (_originalCallback o) x (readyState o)
          | Some urlObj =>
              {| xhrs := xhrs w; requestIdCounter := requestIdCounter w;
                 eventHandlers :=
                   <[_id o := {| h_xhr := x;
                                 h_callback := _originalCallback o |}]>
                     (eventHandlers w);
                 saveBatch :=
                   saveBatch w
                   ++ [{| req_id := _id o;
                          req_url := default EmptyString (_url o);
                          startTime := _startTime o;
                          req_type :=
                            default "unknown" (actionName urlObj);
                          req_response := responseData |}];
                 calls := calls w |}
          end
    end.

(** The browser fires [readystatechange] on request [x], which has
    reached ready state [st] (and, at [DONE], has its response). *)
Definition fire_readystatechange (w : xhr_world) (x : nat) (st : nat)
    (body : option string) : xhr_world :=
  match xhrs w !! x with
  | None => w
  | Some o =>
      let o' := {| _url := _url o; _id := _id o;
                   _startTime := _startTime o;
                   _originalCallback := _originalCallback o;
                   onreadystatechange := onreadystatechange o;
                   readyState := st;
                   responseText :=
                     if (st =? DONE)%nat then body else responseText o;
                   response_override := response_override o |} in
      let w' := set_xhr w x o' in
      match onreadystatechange o' with
      | NoHandler => w'
      | HostCallback cb => invoke w' (Some cb) x st
      | Wrapper => wrapper_callback w' x o'
      end
  end.

(** The [CustomFeedReady] listener of [setupResponseListener]. *)
Definition on_CustomFeedReady (w : xhr_world) (id processed : string)
  : xhr_world :=
  match eventHandlers w !! id with
  | None => w
  | Some h =>
      let w1 :=
        match xhrs w !! h_xhr h with
        | Some o =>
            set_xhr w (h_xhr h)
              {| _url := _url o; _id := _id o; _startTime := _startTime o;
                 _originalCallback := _originalCallback o;
                 onreadystatechange := onreadystatechange o;
                 readyState := readyState o;
                 responseText := responseText o;
                 response_override := Some processed |}
        | None => w
        end in
      let st := default 0%nat (readyState <$> (xhrs w !! h_xhr h)) in
      let w2 := invoke w1 (h_callback h) (h_xhr h) st in
      {| xhrs := xhrs w2; requestIdCounter := requestIdCounter w2;
         eventHandlers := delete id (eventHandlers w2);
         saveBatch := saveBatch w2; calls := calls w2 |}
  end.

Inductive xhr_event :=
| ReadyStateChange (x : nat) (st : nat) (body : option string)
| FeedReady (id processed : string).

Definition xhr_step (w : xhr_world) (e : xhr_event) : xhr_world :=
  match e with
  | ReadyStateChange x st body => fire_readystatechange w x st body
  | FeedReady id processed => on_CustomFeedReady w id processed
  end.

Definition xhr_run (w : xhr_world) (es : list xhr_event) : xhr_world :=
  foldl xhr_step w es.
End WithURL_XHR.

(** How often callback [cb] has been invoked on request [x] in state DONE. *)
Definition done_calls (w : xhr_world) (cb x : nat) : nat :=
  length (filter (fun i => inv_cb i = cb /\ inv_xhr i = x
                           /\ inv_state i = DONE) (calls w)).

End Intercept.

(* ===================================================================== *)
(** * The WebSocket connector *)
(* ===================================================================== *)

Module WS.
Import JS.

(** A pending entry stores the [resolve] and [reject] functions of the
    promise returned to one caller; [caller] names that promise. *)
Record PendingRequest := {
  id : string;
  caller : nat;
  timestamp : nat
}.

(** One call of a stored [resolve] or [reject] function. *)
Inductive settlement :=
| Resolve (caller : nat) (data : value)
| Reject (caller : nat) (reason : value).

Definition settles (c : nat) (s : settlement) : bool :=
  match s with
  | Resolve c' _ | Reject c' _ => (c =? c')%nat
  end.

Record connector := {
  pendingRequests : gmap string PendingRequest;
  isConnected : bool;
  socketOpen : bool;                 (* ws.readyState === WebSocket.OPEN *)
  sent : list (string * nat);        (* process_feed messages: id, caller *)
  timers : list (string * nat);      (* armed request timeouts *)
  settlements : list settlement      (* calls of resolve / reject, in order *)
}.

Definition settle (c : connector) (s : settlement) : connector :=
  {| pendingRequests := pendingRequests c; isConnected := isConnected c;
     socketOpen := socketOpen c; sent := sent c; timers := timers c;
     settlements := settlements c ++ [s] |}.

Definition remove_pending (c : connector) (requestId : string) : connector :=
  {| pendingRequests := delete requestId (pendingRequests c);
     isConnected := isConnected c; socketOpen := socketOpen c;
     sent := sent c; timers := timers c; settlements := settlements c |}.

(** How many times the settle functions of promise [p] were called. *)
Definition settle_count (c : connector) (p : nat) : nat :=
  length (filter (fun s => Is_true (settles p s)) (settlements c)).

(** The value a promise takes: that of the first call. *)
Definition promise_state (c : connector) (p : nat) : option settlement :=
  head (filter (fun s => Is_true (settles p s)) (settlements c)).

(** The executor of the promise built by [processRequest], run once the
    connection promise has resolved.  [requestId] is the generated
    [req_<time>_<random>] string, [p] the new promise, [now] is
    [Date.now()]. *)
Definition processRequest (c : connector) (requestId : string) (p : nat)
    (now : nat) : connector :=
  (* Store pending request *)
  let c1 :=
    {| pendingRequests :=
         <[requestId := {| id := requestId; caller := p;
                           timestamp := now |}]> (pendingRequests c);
       isConnected := isConnected c; socketOpen := socketOpen c;
       sent := sent c; timers := timers c; settlements := settlements c |} in
  let c2 :=
    if isConnected c1 then
      (* sendMessage: dropped with a warning when the socket is not open *)
      {| pendingRequests := pendingRequests c1;
         isConnected := isConnected c1; socketOpen := socketOpen c1;
         sent := if socketOpen c1 then sent c1 ++ [(requestId, p)]
                 else sent c1;
         timers := timers c1; settlements := settlements c1 |}
    else
      (* Fallback to HTTP if WebSocket not connected *)
      settle c1 (Reject p (VStr "WebSocket not connected")) in
  (* Set timeout for request *)
  {| pendingRequests := pendingRequests c2; isConnected := isConnected c2;
     socketOpen := socketOpen c2; sent := sent c2;
     timers := timers c2 ++ [(requestId, p)];
     settlements := settlements c2 |}.

Fixpoint remove_first (t : string * nat) (l : list (string * nat))
  : list (string * nat) :=
  match l with
  | [] => []
  | t' :: l' => if bool_decide (t = t') then l' else t' :: remove_first t l'
  end.

(** The timeout callback armed by [processRequest] for [(requestId, p)];
    a timer runs at most once. *)
Definition request_timeout (c : connector) (requestId : string) (p : nat)
  : connector :=
  if bool_decide ((requestId, p) ∈ timers c) then
    let c1 :=
      {| pendingRequests := pendingRequests c; isConnected := isConnected c;
         socketOpen := socketOpen c; sent := sent c;
         timers := remove_first (requestId, p) (timers c);
         settlements := settlements c |} in
    match pendingRequests c1 !! requestId with
    | Some _ =>
        settle (remove_pending c1 requestId)
               (Reject p (VStr "WebSocket request timeout"))
    | None => c1
    end
  else c.

(** [this.pendingRequests.get(message.requestId)] *)
Definition pending_get (c : connector) (requestId : value)
  : option (string * PendingRequest) :=
  match requestId with
  | VStr s => (fun e => (s, e)) <$> pendingRequests c !! s
  | _ => None
  end.

(** The body of [handleMessage]'s try block on a parsed message. *)
Definition handle_parsed (c : connector) (message : value)
  : result connector :=
  do type <- get message "type";
  do requestId <- get message "requestId";
  (* Handle processing responses *)
  do c1 <-
     (if is_str type "processing_response" && truthy requestId then
        match pending_get c requestId with
        | Some (key, pendingRequest) =>
            do data <- get message "data";
            Ok (remove_pending
                  (settle c (Resolve (caller pendingRequest) data)) key)
        | None => Ok c
        end
      else Ok c);
  (* Handle errors *)
  if is_str type "error" && truthy requestId then
    match pending_get c1 requestId with
    | Some (key, pendingRequest) =>
        do err <- get message "error";
        Ok (remove_pending
              (settle c1 (Reject (caller pendingRequest) err)) key)
    | None => Ok c1
    end
  else Ok c1.

(** [cleanupExpiredRequests], the 30-second sweep. *)
Definition cleanupExpiredRequests (c : connector) (now timeout : nat)
  : connector :=
  foldl (fun c kv =>
           if (timeout <? now - timestamp kv.2)%nat then
             remove_pending
               (settle c (Reject (caller kv.2) (VStr "Request expired")))
               kv.1
           else c)
        c (map_to_list (pendingRequests c)).

Section WithJSON_WS.
Variable JSON_parse : string -> option value.

Definition handleMessage (c : connector) (data : string) : connector :=
  match JSON_parse data with
  | None => c
  | Some message => try_catch (handle_parsed c message) c
  end.

Inductive ws_event :=
| Submit (requestId : string) (p : nat) (now : nat)
| Message (data : string)
| Timeout (requestId : string) (p : nat)
| Sweep (now timeout : nat)
| SocketClosed.

Definition ws_step (c : connector) (e : ws_event) : connector :=
  match e with
  | Submit requestId p now => processRequest c requestId p now
  | Message data => handleMessage c data
  | Timeout requestId p => request_timeout c requestId p
  | Sweep now timeout => cleanupExpiredRequests c now timeout
  | SocketClosed =>
      {| pendingRequests := pendingRequests c; isConnected := false;
         socketOpen := false; sent := sent c; timers := timers c;
         settlements := settlements c |}
  end.

Definition ws_run (c : connector) (es : list ws_event) : connector :=
  foldl ws_step c es.
End WithJSON_WS.

End WS.

(* ===================================================================== *)
(** * utils/markers: image interventions and deferred polling *)
(* ===================================================================== *)

Module Markers.
Import JS Str MarkerText.

Definition DIY_IMG_ATTR := "diy-mod-image".

(** A coordinate after [Number(...)]: [None] is NaN.  The embedding follows
    coordinates that are JSON integers.  For any other value it takes NaN,
    which is what the code computes from [undefined] and from a string that
    is no number, but not from [null], a boolean or a numeric string; the
    statements that depend on the value of a coordinate are made for integer
    coordinates only. *)
Definition num := option Z.

Definition Number (v : value) : num :=
  match v with VNum n => Some n | _ => None end.

(** The four numbers [info.split('_').map(Number)] reads from a
    [left_top_width_height] string. *)
Record box := { left : num; top : num; width : num; height : num }.

(** [`${n}px`] *)
Definition px (n : num) : string :=
  match n with
  | Some z => Z_to_string z +:+ "px"
  | None => "NaNpx"
  end.

(** What [style.left] / [style.top] read after being assigned [px n]: an
    invalid declaration is ignored and the property stays empty. *)
Definition style_offset (n : num) : string :=
  match n with
  | Some _ => px n
  | None => EmptyString
  end.

(** The same for [style.width] / [style.height], which reject negative
    lengths. *)
Definition style_size (n : num) : string :=
  match n with
  | Some z => if (z <? 0)%Z then EmptyString else px n
  | None => EmptyString
  end.

(** Elements appended to the positioning container, next to the image. *)
Inductive node :=
| OverlayImage (sleft stop swidth sheight : string)
    (* img.diymod-overlay-image with its four style properties *)
| BlurOverlay (b : box)
    (* div.diymod-blur-overlay and the box its style was assigned from *)
| LoadingIndicator.

Inductive parent_kind :=
| Detached            (* no parentNode *)
| PlainParent         (* a parent without the container class *)
| Container.          (* a parent with class diymod-image-container *)

(** An image element together with its positioning container.  [children]
    lists what was appended to the container after the image; [origin] is
    the position of the container's box in the viewport. *)
Record Image := {
  src : string;
  alt : string;
  classList : list string;
  attributes : gmap string string;
  parent : parent_kind;
  children : list node;
  origin : Z * Z
}.

Definition set_children (el : Image) (parent' : parent_kind)
    (children' : list node) : Image :=
  {| src := src el; alt := alt el; classList := classList el;
     attributes := attributes el; parent := parent';
     children := children'; origin := origin el |}.

Definition set_src (el : Image) (src' : string) : Image :=
  {| src := src'; alt := alt el; classList := classList el;
     attributes := attributes el; parent := parent el;
     children := children el; origin := origin el |}.

Definition set_alt (el : Image) (alt' : string) : Image :=
  {| src := src el; alt := alt'; classList := classList el;
     attributes := attributes el; parent := parent el;
     children := children el; origin := origin el |}.

Definition set_classList (el : Image) (classes : list string) : Image :=
  {| src := src el; alt := alt el; classList := classes;
     attributes := attributes el; parent := parent el;
     children := children el; origin := origin el |}.

Definition set_attributes (el : Image) (attrs : gmap string string) : Image :=
  {| src := src el; alt := alt el; classList := classList el;
     attributes := attrs; parent := parent el;
     children := children el; origin := origin el |}.

Definition classList_add (el : Image) (c : string) : Image :=
  if existsb (String.eqb c) (classList el) then el
  else set_classList el (classList el ++ [c]).

Definition classList_remove (el : Image) (c : string) : Image :=
  set_classList el (filter (fun c' => c' <> c) (classList el)).

(** Wrap the image in a container unless its parent already is one.  An
    image without a parent stays where it is: the fresh container is not
    inserted anywhere and what is appended to it is unreachable. *)
Definition ensure_container (el : Image) : Image :=
  match parent el with
  | Container => el
  | PlainParent => set_children el Container []
  | Detached => el
  end.

Definition append_child (el : Image) (n : node) : Image :=
  match parent el with
  | Container => set_children el Container (children el ++ [n])
  | _ => el
  end.

(** The duplicate test of [applyOverlayToImage]: an [img] other than the
    image itself whose four style properties equal the new strings. *)
Definition same_overlay (b : box) (n : node) : bool :=
  match n with
  | OverlayImage l t w h =>
      String.eqb l (px (left b)) && String.eqb t (px (top b))
      && String.eqb w (px (width b)) && String.eqb h (px (height b))
  | _ => false
  end.

Definition applyOverlayToImage (img : Image) (overlayInfo : box) : Image :=
  let img1 := ensure_container img in
  if existsb (same_overlay overlayInfo) (children img1) then img1
  else append_child img1
         (OverlayImage (style_offset (left overlayInfo))
                       (style_offset (top overlayInfo))
                       (style_size (width overlayInfo))
                       (style_size (height overlayInfo))).

(** [getBoundingClientRect()] of a blur overlay: viewport coordinates.  The
    overlay is absolutely positioned in the (relatively positioned)
    container, so its rectangle is its style box shifted by the container's
    origin.  [None] when its style did not take (NaN or a negative size). *)
Definition bounding_rect (o : Z * Z) (b : box) : option (Z * Z * Z * Z) :=
  match left b, top b, width b, height b with
  | Some l, Some t, Some w, Some h =>
      if (w <? 0)%Z || (h <? 0)%Z then None
      else Some ((o.1 + l)%Z, (o.2 + t)%Z, w, h)
  | _, _, _, _ => None
  end.

(** The duplicate test of [applyBlurToImage]:
    [rect.left === left && rect.top === top && rect.width === width &&
     rect.height === height]. *)
Definition same_blur (o : Z * Z) (b : box) (n : node) : bool :=
  match n with
  | BlurOverlay b' =>
      match bounding_rect o b', left b, top b, width b, height b with
      | Some (rl, rt, rw, rh), Some l, Some t, Some w, Some h =>
          (rl =? l)%Z && (rt =? t)%Z && (rw =? w)%Z && (rh =? h)%Z
      | _, _, _, _, _ => false
      end
  | _ => false
  end.

Definition applyBlurToImage (img : Image) (blurInfo : box) : Image :=
  let img1 := ensure_container img in
  if existsb (same_blur (origin img1) blurInfo) (children img1) then img1
  else append_child img1 (BlurOverlay blurInfo).

(** The box one element of [config.coordinates] denotes; destructuring
    [null] or [undefined] throws. *)
Definition box_of (b : value) : result box :=
  do x1 <- get b "x1";
  do y1 <- get b "y1";
  do x2 <- get b "x2";
  do y2 <- get b "y2";
  let sub (a c : num) : num :=
    match a, c with Some a, Some c => Some (a - c)%Z | _, _ => None end in
  Ok {| left := Number x1; top := Number y1;
        width := sub (Number x2) (Number x1);
        height := sub (Number y2) (Number y1) |}.

(** [coordinates.forEach] inside a [try]: a throw ends the loop and keeps
    what was done; the flag tells whether the loop completed. *)
Fixpoint apply_boxes (apply : Image -> box -> Image) (img : Image)
    (boxes : list value) : Image * bool :=
  match boxes with
  | [] => (img, true)
  | b :: rest =>
      match box_of b with
      | Ok bx => apply_boxes apply (apply img bx) rest
      | Throw _ => (img, false)
      end
  end.

Definition process_boxes (apply : Image -> box -> Image) (cls : string)
    (img : Image) (config : value) : Image :=
  if negb (truthy config) then img
  else
    match get_opt config "coordinates" with
    | VArr boxes =>
        let r := apply_boxes apply img boxes in
        if r.2 then classList_add r.1 cls else r.1
    | _ => img
    end.

Definition processBlurImageMarkers : Image -> value -> Image :=
  process_boxes applyBlurToImage "diymod-blur-processed".

Definition processOverlayImageMarker : Image -> value -> Image :=
  process_boxes applyOverlayToImage "diymod-overlay-processed".

(** [processStandardImageMarker]; the flag is [false] when an assignment
    threw (a value that has no string conversion). *)
Definition processStandardImageMarker (img : Image) (config : value)
  : Image * bool :=
  if negb (truthy config) then (img, true)
  else
    let url := get_opt config "processed_image_url" in
    if truthy url then
      match toString url with
      | Throw _ => (img, false)
      | Ok s =>
          let img1 := classList_add (set_src img s) "diymod-processed-image" in
          let a := get_opt config "alt" in
          if truthy a then
            match toString a with
            | Throw _ => (img1, false)
            | Ok s' => (set_alt img1 s', true)
            end
          else (img1, true)
      end
    else (img, true).

Definition showImageLoadingState (img : Image) : Image :=
  append_child (classList_add (ensure_container img) CSS_PROCESSING)
               LoadingIndicator.

Fixpoint remove_first_indicator (l : list node) : list node :=
  match l with
  | [] => []
  | LoadingIndicator :: l' => l'
  | n :: l' => n :: remove_first_indicator l'
  end.

Definition removeImageLoadingState (img : Image) : Image :=
  let img1 := classList_remove img CSS_PROCESSING in
  match parent img1 with
  | Container =>
      set_children img1 Container (remove_first_indicator (children img1))
  | _ => img1
  end.

(** ** Deferred polling *)

Record DeferredImageProcessing := {
  imageElement : nat;
  originalUrl : string;
  filters : value;
  config : value;
  pollCount : nat;
  maxPolls : nat
}.

(** One poll in flight: the message listener registered by
    [pollForImageResult] and its five-second timer.  The listener closes
    over the request id, the key and the job's image element. *)
Record poll := {
  requestId : string;
  pollKey : string;
  target : nat;
  listening : bool;
  timeoutId : timer
}.

(** A [diymod_poll_image_request] message. *)
Record poll_request := {
  pr_requestId : string;
  imageUrl : string;
  pr_filters : value
}.

Record world := {
  images : gmap nat Image;
  deferredImages : gmap string DeferredImageProcessing;
  polls : list poll;              (* every poll started, oldest first *)
  scheduled : list string;        (* armed [scheduleNextPoll] timers *)
  posted : list poll_request      (* poll requests sent, oldest first *)
}.

Definition with_image (w : world) (i : nat) (f : Image -> Image) : world :=
  {| images := alter f i (images w); deferredImages := deferredImages w;
     polls := polls w; scheduled := scheduled w; posted := posted w |}.

Definition set_deferred (w : world)
    (d : gmap string DeferredImageProcessing) : world :=
  {| images := images w; deferredImages := d; polls := polls w;
     scheduled := scheduled w; posted := posted w |}.

Definition set_polls (w : world) (ps : list poll) : world :=
  {| images := images w; deferredImages := deferredImages w; polls := ps;
     scheduled := scheduled w; posted := posted w |}.

Definition set_scheduled (w : world) (s : list string) : world :=
  {| images := images w; deferredImages := deferredImages w;
     polls := polls w; scheduled := s; posted := posted w |}.

Definition scheduleNextPoll (w : world) (pollKey : string) : world :=
  set_scheduled w (scheduled w ++ [pollKey]).

(** Polls of [key] whose listener is still registered. *)
Definition in_flight (w : world) (key : string) : nat :=
  length (filter (fun p => pollKey p = key /\ listening p = true) (polls w)).

(** Poll requests sent for an image URL. *)
Definition polls_sent (w : world) (url : string) : nat :=
  length (filter (fun r => imageUrl r = url) (posted w)).

Definition pollForImageResult (w : world) (key : string) (now : nat)
  : world :=
  match deferredImages w !! key with
  | None => w
  | Some deferredImage =>
      (* Check if we've reached max polling attempts *)
      if (maxPolls deferredImage <=? pollCount deferredImage)%nat then
        set_deferred
          (with_image w (imageElement deferredImage) removeImageLoadingState)
          (delete key (deferredImages w))
      else
        let deferredImage' :=
          {| imageElement := imageElement deferredImage;
             originalUrl := originalUrl deferredImage;
             filters := filters deferredImage;
             config := config deferredImage;
             pollCount := S (pollCount deferredImage);
             maxPolls := maxPolls deferredImage |} in
        let requestId := "poll_" +:+ key +:+ "_" +:+ pretty now in
        {| images := images w;
           deferredImages := <[key := deferredImage']> (deferredImages w);
           polls := polls w
                    ++ [{| requestId := requestId; pollKey := key;
                           target := imageElement deferredImage;
                           listening := true; timeoutId := Armed |}];
           scheduled := scheduled w;
           posted := posted w
                     ++ [{| pr_requestId := requestId;
                            imageUrl := originalUrl deferredImage;
                            pr_filters := filters deferredImage |}] |}
  end.

(** The part of [messageHandler] behind its three guards, for the poll at
    position [i].  A throw inside the listener ends it where it stands. *)
Definition messageHandler (w : world) (i : nat) (p : poll) (response : value)
  : world :=
  let w1 :=
    set_polls w
      (<[i := {| requestId := requestId p; pollKey := pollKey p;
                 target := target p; listening := false;
                 timeoutId := match timeoutId p with
                              | Armed => Cleared
                              | t => t
                              end |}]> (polls w)) in
  if negb (truthy response) || negb (truthy (get_opt response "success")) then
    scheduleNextPoll w1 (pollKey p)
  else
    let data := get_opt response "result" in
    match get data "status" with
    | Throw _ => w1
    | Ok status =>
        if is_str status "COMPLETED"
           && truthy (get_opt data "processed_value") then
          match toString (get_opt data "processed_value") with
          | Throw _ => w1
          | Ok s =>
              set_deferred
                (with_image w1 (target p)
                   (fun img =>
                      removeImageLoadingState
                        (classList_add (set_src img s)
                           "diymod-cartoonish-processed")))
                (delete (pollKey p) (deferredImages w1))
          end
        else scheduleNextPoll w1 (pollKey p)
    end.

(** A [diymod_poll_image_response] message from the window reaches every
    registered listener. *)
Definition on_message (w : world) (requestId' : string) (response : value)
  : world :=
  foldl (fun w ip =>
           if listening ip.2 && String.eqb (requestId ip.2) requestId'
           then messageHandler w ip.1 ip.2 response
           else w)
        w (imap (fun i p => (i, p)) (polls w)).

(** The five-second timer of the poll at position [i] fires. *)
Definition poll_timeout (w : world) (i : nat) : world :=
  match polls w !! i with
  | Some p =>
      match timeoutId p with
      | Armed =>
          scheduleNextPoll
            (set_polls w
               (<[i := {| requestId := requestId p; pollKey := pollKey p;
                          target := target p; listening := false;
                          timeoutId := Fired |}]> (polls w)))
            (pollKey p)
      | _ => w
      end
  | None => w
  end.

Fixpoint remove_first_key (k : string) (l : list string) : list string :=
  match l with
  | [] => []
  | k' :: l' => if String.eqb k k' then l' else k' :: remove_first_key k l'
  end.

(** A timer armed by [scheduleNextPoll] fires. *)
Definition next_poll (w : world) (key : string) (now : nat) : world :=
  if existsb (String.eqb key) (scheduled w) then
    pollForImageResult
      (set_scheduled w (remove_first_key key (scheduled w))) key now
  else w.

Section WithEnvironment.
(** [JSON.parse], [JSON.stringify], and
    [config?.api?.polling?.maxAttempts]. *)
Variable JSON_parse : string -> option value.
Variable JSON_stringify : value -> string.
Variable maxAttempts : option nat.

Definition DEFAULT_MAX_ATTEMPTS : nat := 20.

Definition pollingFilters_of (imgConfig filters : value) : value :=
  let best := get_opt imgConfig "best_filter_name" in
  if truthy best then VArr [best] else filters.

Definition poll_key (originalUrl : string) (pollingFilters : value)
  : string :=
  originalUrl +:+ "-" +:+ JSON_stringify pollingFilters.

Definition startImagePolling (w : world) (imgElement : nat)
    (originalUrl : string) (filters imgConfig : value) (now : nat) : world :=
  let pollingFilters := pollingFilters_of imgConfig filters in
  let key := poll_key originalUrl pollingFilters in
  let maxPollAttempts :=
    match maxAttempts with
    | Some n => if (n =? 0)%nat then DEFAULT_MAX_ATTEMPTS else n
    | None => DEFAULT_MAX_ATTEMPTS
    end in
  let deferredImage :=
    {| imageElement := imgElement; originalUrl := originalUrl;
       filters := pollingFilters; config := imgConfig; pollCount := 0;
       maxPolls := maxPollAttempts |} in
  pollForImageResult
    (set_deferred w (<[key := deferredImage]> (deferredImages w))) key now.

Definition processCartoonishImageMarker (w : world) (imgElement : nat)
    (config : value) (now : nat) : world :=
  match images w !! imgElement with
  | None => w
  | Some img =>
      if negb (truthy config) then w
      else
        let status := get_opt config "status" in
        if is_str status "DEFERRED" then
          let w1 := with_image w imgElement showImageLoadingState in
          let filters :=
            let f := get_opt config "filters" in
            if truthy f then f else VArr [] in
          startImagePolling w1 imgElement (src img)
            (pollingFilters_of config filters) config now
        else if is_str status "COMPLETED"
                && truthy (get_opt config "processedUrl") then
          match toString (get_opt config "processedUrl") with
          | Ok s =>
              with_image w imgElement
                (fun img =>
                   removeImageLoadingState
                     (classList_add (set_src img s)
                        "diymod-cartoonish-processed"))
          | Throw _ =>
              (* catch *)
              with_image w imgElement removeImageLoadingState
          end
        else w
  end.

(** [removeAttribute(DIY_IMG_ATTR); setAttribute('data-diy-mod-processed',
    'true')] *)
Definition mark_processed (img : Image) : Image :=
  set_attributes img
    (<["data-diy-mod-processed" := "true"]>
       (delete DIY_IMG_ATTR (attributes img))).

Definition processMarkedImage (w : world) (imgElement : nat) (now : nat)
  : world :=
  match images w !! imgElement with
  | None => w
  | Some img =>
      match attributes img !! DIY_IMG_ATTR with
      | None => w
      | Some config =>
          if negb (nonempty config) then w
          else
            match JSON_parse config with
            | None => w
            | Some configData =>
                match get configData "type" with
                | Throw _ => w
                | Ok type =>
                    (* Apply the appropriate handler *)
                    let r :=
                      if is_str type "overlay" then
                        (with_image w imgElement
                           (fun i => processOverlayImageMarker i configData),
                         true)
                      else if is_str type "blur" then
                        (with_image w imgElement
                           (fun i => processBlurImageMarkers i configData),
                         true)
                      else if is_str type "processed" then
                        let r := processStandardImageMarker img configData in
                        (with_image w imgElement (fun _ => r.1), r.2)
                      else if is_str type "cartoonish" || is_str type "edit"
                      then
                        (processCartoonishImageMarker w imgElement configData
                           now, true)
                      else (w, true) in
                    if negb r.2 then r.1
                    else
                      (* Only remove the attribute for non-deferred
                         processing *)
                      if negb (is_str type "cartoonish")
                         || (is_str type "cartoonish"
                             && negb (is_str (get_opt configData "status")
                                        "DEFERRED"))
                      then with_image r.1 imgElement mark_processed
                      else r.1
                end
            end
      end
  end.

Inductive event :=
  | MarkedImage (imgElement : nat) (now : nat)
    (* the DOM processor hands an image to [processMarkedImage] *)
  | PollResponse (requestId : string) (response : value)
  | PollTimeout (i : nat)
  | NextPoll (key : string) (now : nat).

Definition step (w : world) (e : event) : world :=
  match e with
  | MarkedImage i now => processMarkedImage w i now
  | PollResponse rid response => on_message w rid response
  | PollTimeout i => poll_timeout w i
  | NextPoll key now => next_poll w key now
  end.

Definition run (w : world) (es : list event) : world := foldl step w es.

End WithEnvironment.

End Markers.

(* ===================================================================== *)
(** * The content script: platform detection and the SaveBatch handler *)
(* ===================================================================== *)

Module Content.
Import JS Str Intercept.

(** shared/types: Platform *)
Inductive Platform := twitter | reddit.

(** platform-detector: getCurrentPlatform, on [window.location.href]. *)
Definition getCurrentPlatform (href : string) : option Platform :=
  if includes href "twitter.com" || includes href "x.com" then Some twitter
  else if includes href "reddit.com" then Some reddit
  else None.

(** How an awaited promise ends; [Pending]: it never settles. *)
Inductive awaited (A : Type) :=
| Fulfilled (a : A)
| Failed
| Pending.
Arguments Fulfilled {A} a.
Arguments Failed {A}.
Arguments Pending {A}.

(** websocket-connector: processWithWebSocket.  [ws] is the promise of
    [connector.processRequest], [http] that of [processInterceptedRequest],
    which is only called on the two fallback paths and passes on what
    [apiService.processFeed] gives. *)
Definition processWithWebSocket (websocketEnabled : bool)
    (ws http : awaited value) : awaited value :=
  if negb websocketEnabled then http
  else match ws with
       | Fulfilled v => Fulfilled v
       | Failed => http
       | Pending => Pending
       end.

(** The detail of a CustomFeedReady event. *)
Record FeedReady := {
  fr_id : string;
  fr_url : string;
  fr_response : value
}.

Definition sendOriginalResponse (data : InterceptedRequest)
  : list FeedReady :=
  [{| fr_id := req_id data; fr_url := req_url data;
      fr_response := VStr (req_response data) |}].

(** handleInterceptedRequest: the CustomFeedReady events it dispatches.
    [data] is the detail of the SaveBatch event, [href] the page's address,
    [result platform] the outcome of [processWithWebSocket(data, platform)]. *)
Definition handleInterceptedRequest (data : option InterceptedRequest)
    (href : string) (result : Platform -> awaited value) : list FeedReady :=
  match data with
  | None => []
  | Some data =>
      (* Make sure we have response data *)
      if negb (nonempty (req_response data)) then sendOriginalResponse data
      else
        match getCurrentPlatform href with
        | None => sendOriginalResponse data
        | Some platform =>
            match result platform with
            | Pending => []
            | Failed => sendOriginalResponse data
            | Fulfilled result =>
                let feed := get_opt result "feed" in
                let processedResponse := get_opt feed "response" in
                (* Validate response format *)
                if negb (truthy result) || negb (truthy feed)
                   || negb (truthy processedResponse)
                then sendOriginalResponse data
                else [{| fr_id := req_id data; fr_url := req_url data;
                         fr_response := processedResponse |}]
            end
        end
  end.

(** [handleInterceptedRequest] is an [async] function: up to its first
    [await] it runs inside [window.dispatchEvent], before the interceptor
    that dispatched the SaveBatch event gets control back, and the rest runs
    later.  The CustomFeedReady events of the first part: *)
Definition answered_in_dispatch (data : option InterceptedRequest)
    (href : string) : list FeedReady :=
  match data with
  | None => []
  | Some data =>
      if negb (nonempty (req_response data)) then sendOriginalResponse data
      else
        match getCurrentPlatform href with
        | None => sendOriginalResponse data
        | Some _ => []
        end
  end.

(** and those of the part after [await processWithWebSocket(...)]. *)
Definition answered_after_await (data : option InterceptedRequest)
    (href : string) (result : Platform -> awaited value) : list FeedReady :=
  match data with
  | None => []
  | Some data =>
      if negb (nonempty (req_response data)) then []
      else
        match getCurrentPlatform href with
        | None => []
        | Some platform =>
            match result platform with
            | Pending => []
            | Failed => sendOriginalResponse data
            | Fulfilled result =>
                let feed := get_opt result "feed" in
                let processedResponse := get_opt feed "response" in
                if negb (truthy result) || negb (truthy feed)
                   || negb (truthy processedResponse)
                then sendOriginalResponse data
                else [{| fr_id := req_id data; fr_url := req_url data;
                         fr_response := processedResponse |}]
            end
        end
  end.

End Content.

(* ===================================================================== *)
(** * The WebSocket connector: connection and reconnection *)
(* ===================================================================== *)

Module Reconnect.

(** The connection fields of the connector; [scheduled] lists the delays,
    in milliseconds, of the [connect] calls [handleReconnection] has
    scheduled, oldest first. *)
Record link := {
  reconnectAttempts : nat;
  isConnected : bool;
  scheduled : list Z
}.

Definition maxReconnectAttempts : nat := 5.
Definition reconnectDelay : Z := 1000.

Definition handleReconnection (l : link) : link :=
  if (maxReconnectAttempts <=? reconnectAttempts l)%nat then l
  else
    let attempts := S (reconnectAttempts l) in
    {| reconnectAttempts := attempts; isConnected := isConnected l;
       scheduled :=
         scheduled l
         ++ [(reconnectDelay * 2 ^ (Z.of_nat attempts - 1))%Z] |}.

(** The socket handlers installed by [connect], and its [catch] block. *)
Inductive socket_event := onopen | onclose | onerror | constructor_throws.

Definition socket_step (l : link) (e : socket_event) : link :=
  match e with
  | onopen =>
      {| reconnectAttempts := 0; isConnected := true;
         scheduled := scheduled l |}
  | onclose =>
      handleReconnection
        {| reconnectAttempts := reconnectAttempts l; isConnected := false;
           scheduled := scheduled l |}
  | onerror =>
      {| reconnectAttempts := reconnectAttempts l; isConnected := false;
         scheduled := scheduled l |}
  | constructor_throws => handleReconnection l
  end.

Definition socket_run (l : link) (es : list socket_event) : link :=
  foldl socket_step l es.

End Reconnect.

(* ===================================================================== *)
(** * content/services/interceptor: the adapter-driven fetch interceptor *)
(* ===================================================================== *)

Module Service.
Import JS Str Reddit Intercept Content.

(** shared/types: PlatformAdapter.  Both adapters of the repository catch
    what their bodies throw, so the two methods are total. *)
Record PlatformAdapter := {
  canHandle : string -> bool;
  extractPosts : string -> list Post;
  updateResponseWithProcessedPosts : string -> list ProcessedPost -> string
}.

(** RedditAdapter *)
Definition redditAdapter (JSON_parse : string -> option value)
    (JSON_stringify : value -> string) : PlatformAdapter :=
  {| canHandle := fun url => includes url "reddit.com";
     extractPosts := Reddit.extractPosts JSON_parse;
     updateResponseWithProcessedPosts :=
       Reddit.updateResponseWithProcessedPosts JSON_parse JSON_stringify |}.

(** [pattern.replace(/\./g, '\\.').replace(/\*/g, '.*')]: every dot is
    escaped, then every star becomes dot-star. *)
Fixpoint glob_to_regex (pattern : string) : string :=
  match pattern with
  | EmptyString => EmptyString
  | String c rest =>
      (if Ascii.eqb c "." then "\."
       else if Ascii.eqb c "*" then ".*"
       else String c EmptyString) +:+ glob_to_regex rest
  end.

(** What the wrapper's promise does. *)
Inductive service_outcome :=
| Settles (r : fetch_result)   (* it follows [r] *)
| Rejects                      (* [shouldInterceptUrl] threw *)
| Hangs.                       (* it waits for the backend for ever *)

Record service_call := {
  s_fetches : nat;                    (* calls of the original fetch *)
  s_requests : list (list Post);      (* calls of apiService.processContent *)
  s_outcome : service_outcome
}.

Section WithBrowser.
(** [new RegExp(source).test(url)]; [None] when the constructor throws. *)
Variable RegExp_test : string -> string -> option bool.
(** [config.platforms[platform]?.interceptPatterns] *)
Variable interceptPatterns : string -> option (list string).
(** The entries of [platformAdapters], in insertion order. *)
Variable platformAdapters : list (string * PlatformAdapter).

(** The loop over one platform's patterns; [Ok true]: a pattern matched. *)
Fixpoint any_pattern (url : string) (patterns : list string) : result bool :=
  match patterns with
  | [] => Ok false
  | pattern :: rest =>
      match RegExp_test (glob_to_regex pattern) url with
      | None => Throw SyntaxError
      | Some true => Ok true
      | Some false => any_pattern url rest
      end
  end.

Fixpoint any_adapter (url : string)
    (adapters : list (string * PlatformAdapter)) : result bool :=
  match adapters with
  | [] => Ok false
  | (platform, adapter) :: rest =>
      if canHandle adapter url then
        do hit <- any_pattern url (default [] (interceptPatterns platform));
        if hit then Ok true else any_adapter url rest
      else any_adapter url rest
  end.

Definition shouldInterceptUrl (url : string) : result bool :=
  any_adapter url platformAdapters.

Definition getAdapterForUrl (url : string) : option PlatformAdapter :=
  head (filter (fun a => Is_true (canHandle a url)) platformAdapters.*2).

(** The patched [window.fetch] of [setupFetchInterceptor].
    [originalFetch n] is the outcome of the [n]-th call of the original
    fetch, [processContent posts] that of [apiService.processContent]. *)
Definition intercepted_fetch (originalFetch : nat -> fetch_result)
    (processContent : list Post -> awaited (list ProcessedPost))
    (url : string) : service_call :=
  match shouldInterceptUrl url with
  | Throw _ =>
      {| s_fetches := 0; s_requests := []; s_outcome := Rejects |}
  | Ok false =>
      {| s_fetches := 1; s_requests := [];
         s_outcome := Settles (originalFetch 0) |}
  | Ok true =>
      (* catch: return originalFetch(input, init) *)
      let again requests :=
        {| s_fetches := 2; s_requests := requests;
           s_outcome := Settles (originalFetch 1) |} in
      let unchanged response requests :=
        {| s_fetches := 1; s_requests := requests;
           s_outcome := Settles (Resolved response) |} in
      match originalFetch 0 with
      | Rejected => again []
      | Resolved response =>
          match text response with
          | None => again []
          | Some responseText =>
              match getAdapterForUrl url with
              | None => unchanged response []
              | Some adapter =>
                  let posts := extractPosts adapter responseText in
                  match posts with
                  | [] => unchanged response []
                  | _ :: _ =>
                      match processContent posts with
                      | Pending =>
                          {| s_fetches := 1; s_requests := [posts];
                             s_outcome := Hangs |}
                      | Failed => again [posts]
                      | Fulfilled [] => unchanged response [posts]
                      | Fulfilled processedPosts =>
                          let updatedResponse :=
                            updateResponseWithProcessedPosts adapter
                              responseText processedPosts in
                          match new_Response updatedResponse response with
                          | Some r =>
                              {| s_fetches := 1; s_requests := [posts];
                                 s_outcome := Settles (Resolved r) |}
                          | None => again [posts]
                          end
                      end
                  end
              end
          end
      end
  end.

End WithBrowser.

End Service.

(* ===================================================================== *)
(** * Properties of the platform adapter and the fetch interceptor *)
(* ===================================================================== *)

Module ParseBoundary.
Import JS Reddit Intercept.

(** A parsed response is recognised when one of the two shape tests of the
    adapter succeeds on it. *)
Definition recognized (data : value) : Prop :=
  (exists children, listing_children data = Ok (Some children))
  \/ is_detail data = Ok true.

(** Invalid JSON, or JSON of no recognised shape. *)
Definition malformed (JSON_parse : string -> option value) (s : string)
  : Prop :=
  JSON_parse s = None
  \/ exists data, JSON_parse s = Some data /\ ~ recognized data.

Lemma extract_tree_unrecognized data :
  ~ recognized data -> try_catch (extract_tree data) [] = [].
Proof.
  intros Hn. unfold extract_tree.
  destruct (listing_children data) as [[children|]|e] eqn:Hl; simpl; try done.
  - exfalso. apply Hn. left. by exists children.
  - destruct (is_detail data) as [[|]|e] eqn:Hd; simpl; try done.
    exfalso. apply Hn. by right.
Qed.

(** C1. Fail-open at every parse boundary: an unparsable URL is not
    intercepted, a response that is invalid JSON or of no recognised shape
    yields no posts, an original that does not re-parse is returned as it
    is, and a throw inside either adapter body is turned into the default
    result (the functions are total: nothing escapes them). *)
Theorem fail_open_parse_boundaries
    (URL_parse : string -> option URL)
    (JSON_parse : string -> option value) (JSON_stringify : value -> string)
    (url s : string) (endpoints : list string) (ps : list ProcessedPost) :
  (URL_parse url = None -> shouldInterceptUrl URL_parse url endpoints = false)
  /\ (malformed JSON_parse s -> extractPosts JSON_parse s = [])
  /\ (JSON_parse s = None ->
      updateResponseWithProcessedPosts JSON_parse JSON_stringify s ps = s)
  /\ (forall e, (do data <- parse JSON_parse s; extract_tree data) = Throw e ->
      extractPosts JSON_parse s = [])
  /\ (forall e, (do data <- parse JSON_parse s;
                 do data' <- update_tree ps data;
                 Ok (JSON_stringify data')) = Throw e ->
      updateResponseWithProcessedPosts JSON_parse JSON_stringify s ps = s).
Proof.
  repeat split.
  - intros H. unfold shouldInterceptUrl. by rewrite H.
  - intros [H | (data & H & Hn)]; unfold extractPosts, parse; rewrite H.
    + reflexivity.
    + simpl. by apply extract_tree_unrecognized.
  - intros H. unfold updateResponseWithProcessedPosts, parse. by rewrite H.
  - intros e H. unfold extractPosts. by rewrite H.
  - intros e H. unfold updateResponseWithProcessedPosts. by rewrite H.
Qed.

Lemma fail_open_parse_boundaries_witness :
  shouldInterceptUrl (fun _ => None) "not a url" ["home"] = false
  /\ extractPosts (fun _ => Some (VObj [("kind", VStr "more")])) "{}" = []
  /\ updateResponseWithProcessedPosts (fun _ => None) (fun _ => "x")
       "<html>" [] = "<html>".
Proof.
  split; [|split].
  - apply (fail_open_parse_boundaries (fun _ => None) (fun _ => None)
             (fun _ => "x") "not a url" "<html>" ["home"] []).
    reflexivity.
  - apply (fail_open_parse_boundaries (fun _ => None)
             (fun _ => Some (VObj [("kind", VStr "more")]))
             (fun _ => "x") "not a url" "{}" ["home"] []).
    right. exists (VObj [("kind", VStr "more")]). split; [reflexivity|].
    intros [[children H] | H]; vm_compute in H; discriminate.
  - apply (fail_open_parse_boundaries (fun _ => None) (fun _ => None)
             (fun _ => "x") "not a url" "<html>" ["home"] []).
    reflexivity.
Defined.

(** [null] is valid JSON; reading [kind] from it throws, and the adapter
    answers with its defaults. *)
Example extract_null :
  extractPosts (fun _ => Some VNull) "null" = [].
Proof. reflexivity. Qed.

End ParseBoundary.

Module FetchFacts.
Import Intercept.
Import JS(timer, Armed, Cleared, Fired).

(** C10. Only successful responses are processed: when the URL is a
    subscribed one and the response is not ok, the wrapper hands the very
    response to the page, dispatches no SaveBatch event, does not consume a
    request id, and has called the original fetch once. *)
Theorem error_response_passes_through
    (URL_parse : string -> option URL) (endpoints : list string)
    (counter : nat) (originalFetch : nat -> fetch_result) (now url : string)
    (resp : Response) :
  shouldInterceptUrl URL_parse url endpoints = true ->
  originalFetch 0 = Resolved resp ->
  ok resp = false ->
  let call := fetch_wrapper URL_parse endpoints counter originalFetch now url in
  outcome call = Returned (Resolved resp)
  /\ dispatched call = []
  /\ counter_after call = counter
  /\ fetches call = 1.
Proof.
  intros Hurl Hfetch Hok. unfold fetch_wrapper.
  rewrite Hurl, Hfetch, Hok. simpl. done.
Qed.

Definition sample_URL_parse (url : string) : option URL :=
  if String.prefix "https://www.reddit.com" url
  then Some {| pathname := String.substring 22 (String.length url - 22) url |}
  else None.

Definition not_found : Response :=
  {| ok := false; status := 404; statusText := "Not Found"; headers := [];
     text := Some "gone" |}.

Lemma error_response_passes_through_witness :
  let call := fetch_wrapper sample_URL_parse ["home"; "popular"] 7
                (fun _ => Resolved not_found) "2025-01-01T00:00:00.000Z"
                "https://www.reddit.com/svc/home" in
  outcome call = Returned (Resolved not_found)
  /\ dispatched call = []
  /\ counter_after call = 7
  /\ fetches call = 1.
Proof.
  apply (error_response_passes_through sample_URL_parse ["home"; "popular"] 7
           (fun _ => Resolved not_found) "2025-01-01T00:00:00.000Z"
           "https://www.reddit.com/svc/home" not_found);
    reflexivity.
Defined.

(** The state of the wait after its timeout has fired from the start. *)
Definition timed_out (w : waiting) : waiting :=
  {| requestId := requestId w; response := response w;
     cloneForPage := cloneForPage w; timeoutId := Fired; listening := false;
     resolved := resolved w ++ [cloneForPage w] |}.

Definition uncorrelated (id : string) (es : list wait_event) : Prop :=
  forall id' processed, CustomFeedReady id' processed ∈ es -> id' <> id.

Lemma timed_out_stable w es :
  timeoutId w = Armed ->
  wait_run (timed_out w) es = timed_out w.
Proof.
  intros _. induction es as [|e es IH]; [done|].
  unfold wait_run in *. simpl. destruct e; simpl; exact IH.
Qed.

Lemma uncorrelated_prefix w es :
  timeoutId w = Armed -> listening w = true ->
  uncorrelated (requestId w) es ->
  wait_run w es = w \/ wait_run w es = timed_out w.
Proof.
  intros Ht Hl. induction es as [|e es IH]; intros Hu; [by left|].
  assert (Hu' : uncorrelated (requestId w) es).
  { intros id' p Hin. apply (Hu id' p). by right. }
  unfold wait_run in *. simpl. destruct e as [|id processed].
  - right. simpl. rewrite Ht. apply (timed_out_stable w es Ht).
  - simpl. rewrite Hl. simpl.
    destruct (String.eqb id (requestId w)) eqn:E.
    + apply String.eqb_eq in E. exfalso.
      apply (Hu id processed); [by left | done].
    + by apply IH.
Qed.

Lemma wait_run_app w es1 es2 :
  wait_run w (es1 ++ es2) = wait_run (wait_run w es1) es2.
Proof. unfold wait_run. apply foldl_app. Qed.

(** C3. Timeout fallback of the fetch interceptor: when the wrapper waits
    for a processed feed and no CustomFeedReady event with the request's id
    arrives before the timeout fires, then whatever arrives afterwards, the
    resolve function has been called exactly once, with the original
    response, which is therefore the value of the promise. *)
Theorem fetch_timeout_fallback
    (URL_parse : string -> option URL) (endpoints : list string)
    (counter : nat) (originalFetch : nat -> fetch_result) (now url : string)
    (w : waiting) (before after : list wait_event) :
  outcome (fetch_wrapper URL_parse endpoints counter originalFetch now url)
    = Wait w ->
  uncorrelated (requestId w) before ->
  let final := wait_run w (before ++ TimeoutFires :: after) in
  exists resp,
    originalFetch 0 = Resolved resp
    /\ resolved final = [resp]
    /\ settled_value final = Some resp.
Proof.
  intros Hcall Hu final. unfold fetch_wrapper in Hcall.
  destruct (shouldInterceptUrl URL_parse url endpoints); simpl in Hcall;
    [|discriminate].
  destruct (originalFetch 0) as [resp|] eqn:Hf; simpl in Hcall;
    [|discriminate].
  destruct (ok resp); simpl in Hcall; [|discriminate].
  destruct (URL_parse url) as [urlObj|]; simpl in Hcall; [|discriminate].
  destruct (text resp) as [responseData|]; simpl in Hcall; [|discriminate].
  injection Hcall as <-.
  exists resp. split; [done|].
  set (w := {| requestId := pretty counter; response := resp;
               cloneForPage := resp; timeoutId := Armed; listening := true;
               resolved := [] |}) in *.
  assert (Hfinal : final = timed_out w).
  { unfold final. rewrite wait_run_app.
    destruct (uncorrelated_prefix w before eq_refl eq_refl Hu) as [-> | ->].
    - unfold wait_run at 1. simpl. apply (timed_out_stable w after eq_refl).
    - apply (timed_out_stable w (TimeoutFires :: after) eq_refl). }
  rewrite Hfinal. done.
Qed.

Definition feed_ok : Response :=
  {| ok := true; status := 200; statusText := "OK"; headers := [];
     text := Some "{}" |}.

Lemma fetch_timeout_fallback_witness :
  let w := {| requestId := "7"; response := feed_ok; cloneForPage := feed_ok;
              timeoutId := Armed; listening := true; resolved := [] |} in
  let final := wait_run w ([CustomFeedReady "6" "other"]
                           ++ TimeoutFires :: [CustomFeedReady "7" "late"]) in
  exists resp,
    Resolved feed_ok = Resolved resp
    /\ resolved final = [resp]
    /\ settled_value final = Some resp.
Proof.
  apply (fetch_timeout_fallback sample_URL_parse ["home"] 7
           (fun _ => Resolved feed_ok) "2025-01-01T00:00:00.000Z"
           "https://www.reddit.com/svc/home" _
           [CustomFeedReady "6" "other"] [CustomFeedReady "7" "late"]).
  - reflexivity.
  - intros id' p Hin. apply list_elem_of_singleton in Hin.
    injection Hin as -> ->. discriminate.
Defined.

End FetchFacts.

(* ===================================================================== *)
(** * Properties of the XHR interceptor *)
(* ===================================================================== *)

Module XhrFacts.
Import Intercept FetchFacts.

(** A page request with its own [onreadystatechange] callback (number 1),
    not yet opened. *)
Definition fresh_xhr : XHR :=
  {| _url := None; _id := EmptyString; _startTime := EmptyString;
     _originalCallback := None; onreadystatechange := HostCallback 1;
     readyState := 0; responseText := None; response_override := None |}.

Definition host_page : xhr_world :=
  {| xhrs := {[ 0%nat := fresh_xhr ]}; requestIdCounter := 0;
     eventHandlers := ∅; saveBatch := []; calls := [] |}.

Definition feed_url : string := "https://www.reddit.com/svc/home".

(** The request is opened on a subscribed URL, sent, and completes with a
    non-empty body. *)
Definition completed : xhr_world :=
  xhr_run sample_URL_parse
    (xhr_send sample_URL_parse ["home"]
       (xhr_open host_page 0 feed_url "2025-01-01T00:00:00.000Z") 0)
    [ReadyStateChange 0 2 None; ReadyStateChange 0 3 None;
     ReadyStateChange 0 DONE (Some "{}")].

Example completed_is_intercepted :
  saveBatch completed
  = [{| req_id := "0"; req_url := feed_url;
        startTime := "2025-01-01T00:00:00.000Z"; req_type := "home";
        req_response := "{}" |}]
  /\ eventHandlers completed !! "0"
     = Some {| h_xhr := 0; h_callback := Some 1 |}.
Proof. vm_compute. done. Qed.


(** C5, at the failing input.  The page's callback was invoked for the
    intermediate ready states, but at DONE the wrapper only stores it: as
    long as no CustomFeedReady event carries the request's id (here: events
    for other ids arrive), the callback is never invoked for the completed
    response.  There is no timeout on this path. *)
Theorem xhr_callback_withheld_without_feed_event :
  done_calls completed 1 0 = 0
  /\ done_calls
       (xhr_run sample_URL_parse completed
          [FeedReady "1" "a"; FeedReady "2" "b"; FeedReady "17" "c"]) 1 0 = 0
  /\ length (calls completed) = 2.
Proof. vm_compute. done. Qed.

(** Once the correlated event arrives the callback runs, exactly once. *)
Example xhr_callback_after_feed_event :
  done_calls
    (xhr_run sample_URL_parse completed
       [FeedReady "0" "processed"; FeedReady "0" "again"]) 1 0 = 1.
Proof. vm_compute. done. Qed.

(** When reading the response throws, the wrapper does call the original. *)
Example xhr_callback_on_error :
  done_calls
    (xhr_run sample_URL_parse
       (xhr_send sample_URL_parse ["home"]
          (xhr_open host_page 0 feed_url "2025-01-01T00:00:00.000Z") 0)
       [ReadyStateChange 0 DONE None]) 1 0 = 1.
Proof. vm_compute. done. Qed.

End XhrFacts.

(* ===================================================================== *)
(** * Properties of the WebSocket connector *)
(* ===================================================================== *)

Module WSFacts.
Import JS WS.

Lemma pending_get_Some c requestId key e :
  pending_get c requestId = Some (key, e) ->
  requestId = VStr key /\ pendingRequests c !! key = Some e.
Proof.
  destruct requestId; simpl; try discriminate.
  destruct (pendingRequests c !! s) eqn:E; simpl; [|discriminate].
  intros [= <- <-]. done.
Qed.


Definition settler (s : settlement) : nat :=
  match s with Resolve p _ | Reject p _ => p end.

Lemma handle_parsed_cases c fs X :
  obj_get "requestId" fs = VStr X ->
  handle_parsed c (VObj fs) = Ok c
  \/ exists e s, pendingRequests c !! X = Some e
                 /\ settler s = caller e
                 /\ handle_parsed c (VObj fs)
                    = Ok (remove_pending (settle c s) X).
Proof.
  intros HX. unfold handle_parsed. simpl. rewrite HX. simpl.
  destruct (is_str (obj_get "type" fs) "processing_response"
            && negb (String.eqb X EmptyString)) eqn:B1;
    destruct (is_str (obj_get "type" fs) "error"
              && negb (String.eqb X EmptyString)) eqn:B2;
    destruct (pendingRequests c !! X) as [e|] eqn:EX; simpl;
    rewrite ?lookup_delete_eq, ?EX; simpl; eauto;
    right; eexists _, _; (split; [done|]); (split; [|done]); done.
Qed.

Lemma settle_count_other c s p :
  settler s <> p -> settle_count (settle c s) p = settle_count c p.
Proof.
  intros Hne. unfold settle_count, settle. simpl.
  rewrite filter_app, length_app.
  rewrite filter_cons_False; [simpl; lia|].
  intros H. apply Is_true_true in H. apply Hne.
  destruct s; simpl in *; apply Nat.eqb_eq in H; done.
Qed.

(** A message tagged with id [X] leaves every entry stored under another
    id in place; the settle functions of such an entry are not called,
    unless the entry under [X] holds the very same functions. *)
Lemma message_touches_only_its_id JSON_parse c data message X Y :
  JSON_parse data = Some message ->
  get_opt message "requestId" = VStr X ->
  Y <> X ->
  let c' := handleMessage JSON_parse c data in
  pendingRequests c' !! Y = pendingRequests c !! Y
  /\ (forall e, pendingRequests c !! Y = Some e ->
      settle_count c' (caller e) = settle_count c (caller e)
      \/ exists e', pendingRequests c !! X = Some e'
                    /\ caller e' = caller e).
Proof.
  intros Hp HX Hne c'. unfold c', handleMessage. rewrite Hp.
  destruct message as [| | | | | |fs]; simpl in HX; try discriminate.
  destruct (handle_parsed_cases c fs X HX) as [-> | (eX & s & EX & Hs & ->)];
    simpl.
  - split; [done | by left].
  - split; [by apply lookup_delete_ne|].
    intros e He. destruct (decide (caller eX = caller e)) as [Heq|Hneq].
    + right. by exists eX.
    + left. unfold settle_count at 1. simpl.
      fold (settle_count (settle c s) (caller e)).
      apply settle_count_other. congruence.
Qed.

(** ** Requests submitted while connected settle exactly once *)

(** The bookkeeping invariant of the connector, for the requests [S]
    submitted so far: a pending entry is unsettled and has its timer armed;
    an armed timer either belongs to the entry under its id or to a promise
    that was settled once; entries hold distinct promises; no promise was
    settled twice; every submitted request is still timed or settled. *)
Record consistent (S : list (string * nat)) (c : connector) : Prop := {
  pending_unsettled : forall k e,
    pendingRequests c !! k = Some e ->
    settle_count c (caller e) = 0 /\ (k, caller e) ∈ timers c;
  timers_tracked : forall k p,
    (k, p) ∈ timers c ->
    match pendingRequests c !! k with
    | Some e => caller e = p
    | None => settle_count c p = 1
    end;
  callers_distinct : forall k1 k2 e1 e2,
    pendingRequests c !! k1 = Some e1 -> pendingRequests c !! k2 = Some e2 ->
    caller e1 = caller e2 -> k1 = k2;
  timers_nodup : NoDup (timers c);
  at_most_once : forall p, settle_count c p <= 1;
  submitted_tracked : forall k p,
    (k, p) ∈ S -> (k, p) ∈ timers c \/ settle_count c p = 1
}.

(** The id and the promise of a new request are new. *)
Definition fresh (c : connector) (k : string) (p : nat) : Prop :=
  pendingRequests c !! k = None
  /\ (forall p', (k, p') ∉ timers c)
  /\ (forall k', (k', p) ∉ timers c)
  /\ settle_count c p = 0.

Lemma settle_count_settle c s p :
  settle_count (settle c s) p
  = settle_count c p + (if decide (settler s = p) then 1 else 0).
Proof.
  unfold settle_count, settle. simpl. rewrite filter_app, length_app.
  f_equal. rewrite filter_cons.
  assert (Hiff : Is_true (settles p s) <-> settler s = p).
  { destruct s; simpl; rewrite Is_true_true, Nat.eqb_eq; split; congruence. }
  destruct (decide (Is_true (settles p s))) as [H|H];
    destruct (decide (settler s = p)) as [H'|H']; simpl; try done;
    exfalso; tauto.
Qed.

Lemma settle_count_remove c k p :
  settle_count (remove_pending c k) p = settle_count c p.
Proof. done. Qed.

(** Settling the entry stored under [X] and deleting it. *)
Lemma consistent_settle_entry S c X eX s :
  consistent S c ->
  pendingRequests c !! X = Some eX -> settler s = caller eX ->
  consistent S (remove_pending (settle c s) X).
Proof.
  intros [I1 I2 I3 I4 I5 I6] HX Hs.
  destruct (I1 X eX HX) as [H0 HtX].
  assert (Hcount : forall p, p <> caller eX ->
            settle_count (remove_pending (settle c s) X) p
            = settle_count c p).
  { intros p Hp. rewrite settle_count_remove, settle_count_settle.
    destruct (decide (settler s = p)); [congruence | lia]. }
  assert (HcountX : settle_count (remove_pending (settle c s) X) (caller eX)
                    = 1).
  { rewrite settle_count_remove, settle_count_settle, H0.
    destruct (decide (settler s = caller eX)); [done | congruence]. }
  split; simpl.
  - intros k e Hk. apply lookup_delete_Some in Hk as [Hne Hk].
    destruct (I1 k e Hk) as [Hc Ht]. split; [|done].
    rewrite Hcount; [done|]. intros Heq. apply Hne. symmetry.
    by apply (I3 k X e eX).
  - intros k p Ht. specialize (I2 k p Ht).
    destruct (decide (k = X)) as [->|Hne].
    + rewrite lookup_delete_eq. rewrite HX in I2. by subst p.
    + rewrite lookup_delete_ne by done.
      destruct (pendingRequests c !! k) as [e|]; [done|].
      rewrite Hcount; [done|]. intros ->. rewrite H0 in I2. discriminate.
  - intros k1 k2 e1 e2 H1 H2.
    apply lookup_delete_Some in H1 as [_ H1].
    apply lookup_delete_Some in H2 as [_ H2]. by apply I3.
  - done.
  - intros p. destruct (decide (p = caller eX)) as [->|Hne].
    + by rewrite HcountX.
    + by rewrite Hcount.
  - intros k p Hin. destruct (I6 k p Hin) as [Ht | Hc]; [by left|].
    right. rewrite Hcount; [done|]. intros ->. rewrite H0 in Hc.
    discriminate.
Qed.

Lemma consistent_submit S c k p now :
  consistent S c -> isConnected c = true -> fresh c k p ->
  consistent ((k, p) :: S) (processRequest c k p now).
Proof.
  intros [I1 I2 I3 I4 I5 I6] Hconn (Hk & Hkt & Hpt & Hp0).
  unfold processRequest. simpl. rewrite Hconn. simpl.
  split; simpl.
  - intros k' e Hk'. apply lookup_insert_Some in Hk' as [[<- <-] | [Hne Hk']].
    + simpl. split; [done|]. apply elem_of_app. right. by left.
    + destruct (I1 k' e Hk') as [Hc Ht]. split; [done|].
      apply elem_of_app. by left.
  - intros k' p' Ht. apply elem_of_app in Ht as [Ht | Ht].
    + assert (k' <> k) by (intros ->; by apply (Hkt p')).
      rewrite lookup_insert_ne by done. by apply I2.
    + apply list_elem_of_singleton in Ht. injection Ht as -> ->.
      by rewrite lookup_insert_eq.
  - intros k1 k2 e1 e2 H1 H2 Heq.
    apply lookup_insert_Some in H1 as [[<- <-] | [Hne1 H1]];
      apply lookup_insert_Some in H2 as [[<- <-] | [Hne2 H2]]; try done.
    + simpl in Heq. exfalso. destruct (I1 k2 e2 H2) as [_ Ht].
      rewrite <- Heq in Ht. by apply (Hpt k2).
    + simpl in Heq. exfalso. destruct (I1 k1 e1 H1) as [_ Ht].
      rewrite Heq in Ht. by apply (Hpt k1).
    + by apply (I3 k1 k2 e1 e2).
  - apply NoDup_app. split; [done|]. split.
    + intros [k' p'] Hin Hin'. apply list_elem_of_singleton in Hin'.
      injection Hin' as -> ->. by apply (Hkt p).
    + apply NoDup_singleton.
  - done.
  - intros k' p' Hin. apply elem_of_cons in Hin as [[= -> ->] | Hin].
    + left. apply elem_of_app. right. by left.
    + destruct (I6 k' p' Hin) as [Ht | Hc]; [|by right].
      left. apply elem_of_app. by left.
Qed.

Lemma remove_first_NoDup (t : string * nat) l :
  NoDup l ->
  (t ∉ remove_first t l)
  /\ forall t', t' <> t -> (t' ∈ remove_first t l <-> t' ∈ l).
Proof.
  induction l as [|t0 l IH]; simpl; intros Hnd.
  - split; [apply not_elem_of_nil | done].
  - inversion Hnd as [|? ? Hni Hnd']; subst.
    destruct (IH Hnd') as [IH1 IH2].
    destruct (bool_decide (t = t0)) eqn:E.
    + apply bool_decide_eq_true in E. subst t0. split; [done|].
      intros t' Hne. rewrite elem_of_cons. tauto.
    + apply bool_decide_eq_false in E. split.
      * rewrite elem_of_cons. tauto.
      * intros t' Hne. rewrite !elem_of_cons, IH2 by done. done.
Qed.

Lemma remove_first_sublist (t : string * nat) l :
  NoDup l -> NoDup (remove_first t l).
Proof.
  induction l as [|t0 l IH]; simpl; intros Hnd; [done|].
  inversion Hnd as [|? ? Hni Hnd']; subst.
  destruct (bool_decide (t = t0)) eqn:E; [done|].
  apply bool_decide_eq_false in E.
  constructor; [|by apply IH].
  intros Hin. apply Hni.
  destruct (decide (t0 = t)) as [->|Hne]; [done|].
  by apply (remove_first_NoDup t l Hnd').
Qed.

Lemma consistent_timeout S c k p :
  consistent S c -> consistent S (request_timeout c k p).
Proof.
  intros Hc. unfold request_timeout.
  destruct (bool_decide ((k, p) ∈ timers c)) eqn:E; [|done].
  apply bool_decide_eq_true in E.
  destruct Hc as [I1 I2 I3 I4 I5 I6].
  destruct (remove_first_NoDup (k, p) (timers c) I4) as [Hgone Hkeep].
  set (c1 := {| pendingRequests := pendingRequests c;
                isConnected := isConnected c; socketOpen := socketOpen c;
                sent := sent c;
                timers := remove_first (k, p) (timers c);
                settlements := settlements c |}).
  simpl. pose proof (I2 k p E) as Hkp.
  destruct (pendingRequests c !! k) as [e|] eqn:Hk.
  - (* the entry is still pending: reject and delete it *)
    subst p. destruct (I1 k e Hk) as [H0 _].
    assert (Hcount : forall q, q <> caller e ->
              settle_count
                (settle (remove_pending c1 k)
                   (Reject (caller e) (VStr "WebSocket request timeout"))) q
              = settle_count c q).
    { intros q Hq. rewrite settle_count_settle. simpl.
      destruct (decide (caller e = q)); [congruence|].
      unfold settle_count. simpl. lia. }
    assert (HcountE :
              settle_count
                (settle (remove_pending c1 k)
                   (Reject (caller e) (VStr "WebSocket request timeout")))
                (caller e) = 1).
    { rewrite settle_count_settle. simpl.
      destruct (decide (caller e = caller e)); [|done].
      unfold settle_count in *. simpl. rewrite H0. done. }
    split; simpl.
    + intros k' e' Hk'. apply lookup_delete_Some in Hk' as [Hne Hk'].
      destruct (I1 k' e' Hk') as [Hc Ht]. split.
      * rewrite Hcount; [done|]. intros Heq. apply Hne. symmetry.
        by apply (I3 k' k e' e).
      * apply Hkeep; [|done]. intros [= -> _]. done.
    + intros k' p' Ht.
      assert (Hne' : (k', p') <> (k, caller e)) by (intros [= -> ->]; done).
      apply Hkeep in Ht; [|done]. specialize (I2 k' p' Ht).
      destruct (decide (k' = k)) as [->|Hne].
      * rewrite Hk in I2. subst p'. done.
      * rewrite lookup_delete_ne by done.
        destruct (pendingRequests c !! k') as [e'|]; [done|].
        rewrite Hcount; [done|]. intros ->. rewrite H0 in I2. discriminate.
    + intros k1 k2 e1 e2 H1 H2.
      apply lookup_delete_Some in H1 as [_ H1].
      apply lookup_delete_Some in H2 as [_ H2]. by apply I3.
    + by apply remove_first_sublist.
    + intros q. destruct (decide (q = caller e)) as [->|Hne].
      * by rewrite HcountE.
      * rewrite Hcount by done. apply I5.
    + intros k' p' Hin.
      destruct (decide ((k', p') = (k, caller e))) as [[= -> ->]|Hne].
      * right. done.
      * destruct (I6 k' p' Hin) as [Ht | Hc].
        -- left. by apply Hkeep.
        -- right. rewrite Hcount; [done|]. intros ->. rewrite H0 in Hc.
           discriminate.
  - (* already settled: only the timer goes *)
    split; simpl.
    + intros k' e' Hk'. destruct (I1 k' e' Hk') as [Hc Ht]. split; [done|].
      apply Hkeep; [|done]. intros [= -> _]. rewrite Hk in Hk'. discriminate.
    + intros k' p' Ht.
      assert (Hne' : (k', p') <> (k, p)) by (intros [= -> ->]; done).
      apply Hkeep in Ht; [|done]. by apply I2.
    + done.
    + by apply remove_first_sublist.
    + done.
    + intros k' p' Hin.
      destruct (decide ((k', p') = (k, p))) as [[= -> ->]|Hne].
      * by right.
      * destruct (I6 k' p' Hin) as [Ht | Hc]; [|by right].
        left. by apply Hkeep.
Qed.

Lemma handle_parsed_other_id c fs :
  (forall X, obj_get "requestId" fs <> VStr X) ->
  handle_parsed c (VObj fs) = Ok c.
Proof.
  intros HX. unfold handle_parsed. simpl.
  destruct (obj_get "requestId" fs) as [| |b|n|X|l|fs'];
    try (exfalso; by apply (HX X)); simpl;
    destruct (is_str (obj_get "type" fs) "processing_response");
    destruct (is_str (obj_get "type" fs) "error"); simpl;
    try destruct b; try destruct (negb (n =? 0)%Z); done.
Qed.

Lemma consistent_message JSON_parse S c data :
  consistent S c -> consistent S (handleMessage JSON_parse c data).
Proof.
  intros Hc. unfold handleMessage.
  destruct (JSON_parse data) as [message|]; [|done].
  destruct message as [| | | | | |fs]; try (cbn; exact Hc).
  destruct (obj_get "requestId" fs) as [| |b|n|X|l|fs'] eqn:HX;
    try (rewrite handle_parsed_other_id; [exact Hc|];
         intros X'; rewrite HX; discriminate).
  destruct (handle_parsed_cases c fs X HX)
    as [-> | (eX & s & EX & Hs & ->)]; simpl; [done|].
  by eapply consistent_settle_entry.
Qed.

Lemma consistent_sweep S now timeout : forall l c,
  NoDup l.*1 ->
  (forall k e, (k, e) ∈ l -> pendingRequests c !! k = Some e) ->
  consistent S c ->
  consistent S
    (foldl (fun c kv =>
              if (timeout <? now - timestamp kv.2)%nat then
                remove_pending
                  (settle c (Reject (caller kv.2) (VStr "Request expired")))
                  kv.1
              else c) c l).
Proof.
  induction l as [|[k e] l IH]; intros c Hnd Hin Hc; [done|].
  simpl. inversion Hnd as [|? ? Hni Hnd']; subst.
  destruct (timeout <? now - timestamp e)%nat.
  - apply IH; [done| |].
    + intros k' e' Hin'. simpl.
      rewrite lookup_delete_ne; [apply Hin; by right|].
      intros <-. apply Hni. apply list_elem_of_fmap. by exists (k, e').
    + eapply consistent_settle_entry; [done| |done]. apply Hin. by left.
  - apply IH; [done| |done]. intros k' e' Hin'. apply Hin. by right.
Qed.

Lemma consistent_subset S S' c :
  (forall x, x ∈ S' -> x ∈ S) -> consistent S c -> consistent S' c.
Proof.
  intros Hsub [I1 I2 I3 I4 I5 I6]. split; try done.
  intros k p Hin. apply I6. by apply Hsub.
Qed.

(** The requests a trace submits. *)
Definition submitted (es : list ws_event) : list (string * nat) :=
  omap (fun e => match e with
                 | Submit k p _ => Some (k, p)
                 | _ => None
                 end) es.

Section Traces.
Variable JSON_parse : string -> option value.

(** New requests arrive while the socket is connected, each with a new id
    and a new promise. *)
Fixpoint admissible (c : connector) (es : list ws_event) : Prop :=
  match es with
  | [] => True
  | e :: es' =>
      match e with
      | Submit k p _ => isConnected c = true /\ fresh c k p
      | _ => True
      end
      /\ admissible (ws_step JSON_parse c e) es'
  end.

Lemma consistent_run : forall es S c,
  consistent S c -> admissible c es ->
  consistent (submitted es ++ S)%list (ws_run JSON_parse c es).
Proof.
  induction es as [|e es IH]; intros S c Hc Hadm; [done|].
  destruct Hadm as [He Hadm]. unfold ws_run in *. simpl foldl.
  destruct e as [k p now|data|k p|now timeout|].
  - destruct He as [Hconn Hf].
    apply (consistent_subset (submitted es ++ (k, p) :: S)%list).
    + intros x. simpl. rewrite elem_of_cons, !elem_of_app, elem_of_cons.
      tauto.
    + apply IH; [|done]. by apply consistent_submit.
  - apply IH; [|done]. by apply consistent_message.
  - apply IH; [|done]. by apply consistent_timeout.
  - apply IH; [|done]. simpl. unfold cleanupExpiredRequests.
    apply consistent_sweep; [apply NoDup_fst_map_to_list| |done].
    intros k e Hin. by apply elem_of_map_to_list.
  - apply IH; [|done]. destruct Hc as [I1 I2 I3 I4 I5 I6]. by split.
Qed.

(** X26. Starting with nothing pending, and as long as requests are submitted
    while connected under new ids: no promise is ever settled twice, a
    pending entry is unsettled, and a request whose timer has run is
    settled exactly once, whatever messages, timeouts and sweeps occur. *)
Theorem connected_requests_settle_once (c0 : connector)
    (es : list ws_event) :
  pendingRequests c0 = ∅ -> timers c0 = [] -> settlements c0 = [] ->
  admissible c0 es ->
  let c := ws_run JSON_parse c0 es in
  (forall p, settle_count c p <= 1)
  /\ (forall k e, pendingRequests c !! k = Some e ->
      settle_count c (caller e) = 0)
  /\ (forall k p, (k, p) ∈ submitted es -> (k, p) ∉ timers c ->
      settle_count c p = 1).
Proof.
  intros Hp Ht Hs Hadm c.
  assert (H0 : consistent [] c0).
  { split.
    - intros k e H. rewrite Hp in H. by rewrite lookup_empty in H.
    - intros k p H. rewrite Ht in H. by apply elem_of_nil in H.
    - intros k1 k2 e1 e2 H. rewrite Hp in H. by rewrite lookup_empty in H.
    - rewrite Ht. constructor.
    - intros p. unfold settle_count. rewrite Hs. simpl. lia.
    - intros k p H. by apply elem_of_nil in H. }
  destruct (consistent_run es [] c0 H0 Hadm) as [I1 I2 I3 I4 I5 I6].
  fold c in I1, I2, I3, I4, I5, I6.
  split; [done|]. split.
  - intros k e H. by apply (I1 k e).
  - intros k p Hin Hnt. destruct (I6 k p) as [? | ?]; try done.
    apply elem_of_app. by left.
Qed.

End Traces.


(** ** Every request is settled exactly once

    A promise takes the value of the first call of its [resolve] or
    [reject] function and ignores every later call ([promise_state]).  The
    invariant below does without the connection: a request submitted while
    the socket is down is rejected at once, and the later call of [reject]
    by its timeout finds the promise settled. *)












Section Promises.
Variable JSON_parse : string -> option value.









End Promises.

(** The connector after its socket has closed: nothing pending. *)
Definition disconnected : connector :=
  {| pendingRequests := ∅; isConnected := false; socketOpen := false;
     sent := []; timers := []; settlements := [] |}.

Definition no_parse : string -> option value := fun _ => None.


(** The calls behind it.  A request submitted while the socket is down is
    rejected at once; its entry stays in the pending map with its timer
    armed, and when the timer fires [reject] is called a second time.  The
    promise has kept the first rejection, so the caller sees one
    settlement. *)
Example disconnected_request_rejected_twice :
  let c1 := ws_step no_parse disconnected (Submit "req_1" 0 1000) in
  let c2 := ws_step no_parse c1 (Timeout "req_1" 0) in
  settle_count c1 0 = 1
  /\ pendingRequests c1 !! "req_1"
     = Some {| id := "req_1"; caller := 0; timestamp := 1000 |}
  /\ settlements c2
     = [Reject 0 (VStr "WebSocket not connected");
        Reject 0 (VStr "WebSocket request timeout")]
  /\ settle_count c2 0 = 2
  /\ promise_state c2 0 = Some (Reject 0 (VStr "WebSocket not connected"))
  /\ pendingRequests c2 !! "req_1" = None.
Proof. vm_compute. done. Qed.

(** While connected, the same two events settle the entry once. *)
Example connected_request_times_out_once :
  let c0 := {| pendingRequests := ∅; isConnected := true; socketOpen := true;
               sent := []; timers := []; settlements := [] |} in
  let c2 := ws_run no_parse c0
              [Submit "req_1" 0 1000; Timeout "req_1" 0; Timeout "req_1" 0] in
  settlements c2 = [Reject 0 (VStr "WebSocket request timeout")]
  /\ pendingRequests c2 !! "req_1" = None.
Proof. vm_compute. done. Qed.

End WSFacts.

(* ===================================================================== *)
(** * The merge patch of the Reddit adapter *)
(* ===================================================================== *)

Module MergePatch.
Import JS Str MarkerText Reddit.

(** ** What a processed post may replace

    [obj_erase ks g] deletes the properties named in [ks] and rewrites the
    value of every other property [k] with [g k].  Two posts that are equal
    after erasing agree on everything that was not erased. *)
Fixpoint obj_erase (ks : list string) (g : string -> value -> value)
    (fs : list (string * value)) : list (string * value) :=
  match fs with
  | [] => []
  | (k, v) :: fs' =>
      if bool_decide (k ∈ ks) then obj_erase ks g fs'
      else (k, g k v) :: obj_erase ks g fs'
  end.

Definition keep : string -> value -> value := fun _ v => v.

(** Erase inside the value of property [name] only. *)
Definition inside (name : string) (f : value -> value)
  : string -> value -> value :=
  fun k v => if String.eqb k name then f v else v.

Definition erase_obj (ks : list string) (g : string -> value -> value)
    (v : value) : value :=
  match v with
  | VObj fs => VObj (obj_erase ks g fs)
  | _ => v
  end.

Definition erase_items (f : value -> value) (v : value) : value :=
  match v with
  | VArr l => VArr (f <$> l)
  | _ => v
  end.

(** The URL slots of one preview image: [source.url] and the [url] of
    every resolution. *)
Definition erase_image : value -> value :=
  erase_obj []
    (fun k v =>
       if String.eqb k "source" then erase_obj ["url"] keep v
       else if String.eqb k "resolutions"
            then erase_items (erase_obj ["url"] keep) v
            else v).

Definition erase_preview : value -> value :=
  erase_obj [] (inside "images" (erase_items erase_image)).

(** The URL slot of one gallery entry: [s.u]. *)
Definition erase_media : value -> value :=
  erase_obj [] (inside "s" (erase_obj ["u"] keep)).

Definition erase_gallery (v : value) : value :=
  match v with
  | VObj fs => VObj (obj_erase [] (fun _ => erase_media) fs)
  | VArr l => VArr (erase_media <$> l)
  | _ => v
  end.

Definition mentions_title (p : ProcessedPost) : bool :=
  str_truthy (processedTitle p).
Definition mentions_body (p : ProcessedPost) : bool :=
  str_truthy (processedBody p).
Definition mentions_media (p : ProcessedPost) : bool :=
  match processedMediaUrls p with
  | Some urls => (0 <? length urls)%nat
  | None => false
  end.

(** The properties of a post that processed post [p] names: the title, the
    body and its HTML rendering, the direct media URL. *)
Definition named_fields (p : ProcessedPost) : list string :=
  ((if mentions_title p then ["title"] else [])
   ++ (if mentions_body p then ["selftext"; "selftext_html"] else [])
   ++ (if mentions_media p then ["url"] else []))%list.

(** The media URL slots below [preview] and [media_metadata]. *)
Definition media_slots (p : ProcessedPost) : string -> value -> value :=
  fun k v =>
    if mentions_media p then
      if String.eqb k "preview" then erase_preview v
      else if String.eqb k "media_metadata" then erase_gallery v
      else v
    else v.

(** A post with everything erased that [p] names. *)
Definition erase_post (p : ProcessedPost) : value -> value :=
  erase_obj (named_fields p) (media_slots p).

(** ** Erasure and property writes *)

Lemma obj_get_set_eq k x fs : obj_get k (obj_set k x fs) = x.
Proof.
  induction fs as [|[k' v] fs IH]; simpl.
  - by rewrite String.eqb_refl.
  - destruct (String.eqb k k') eqn:E; simpl; rewrite E; [done | exact IH].
Qed.

Lemma obj_get_set_ne k k' x fs :
  k <> k' -> obj_get k (obj_set k' x fs) = obj_get k fs.
Proof.
  intros Hne. induction fs as [|[k'' v] fs IH]; simpl.
  - destruct (String.eqb k k') eqn:E; [|done].
    apply String.eqb_eq in E. done.
  - destruct (String.eqb k' k'') eqn:E; simpl.
    + apply String.eqb_eq in E. subst k''.
      destruct (String.eqb k k') eqn:E'; [|done].
      apply String.eqb_eq in E'. done.
    + destruct (String.eqb k k''); [done | exact IH].
Qed.

Lemma obj_get_present k fs : obj_get k fs <> VUndef -> k ∈ fs.*1.
Proof.
  induction fs as [|[k' v] fs IH]; simpl; [done|].
  destruct (String.eqb k k') eqn:E.
  - apply String.eqb_eq in E. subst. intros _. by left.
  - intros H. right. by apply IH.
Qed.

Lemma obj_set_keys k k' x fs : k ∈ fs.*1 -> k ∈ (obj_set k' x fs).*1.
Proof.
  induction fs as [|[k'' v] fs IH]; simpl; [by intros ?%elem_of_nil|].
  intros H. destruct (String.eqb k' k''); simpl; [done|].
  apply elem_of_cons in H as [-> | H]; [by left | right; by apply IH].
Qed.

(** Writing an erased property is invisible after erasure. *)
Lemma obj_erase_set_erased ks g k x fs :
  k ∈ ks -> obj_erase ks g (obj_set k x fs) = obj_erase ks g fs.
Proof.
  intros Hk.
  induction fs as [|[k' v] fs IH]; simpl.
  - by rewrite bool_decide_eq_true_2.
  - destruct (String.eqb k k') eqn:E; simpl.
    + apply String.eqb_eq in E. subst k'.
      by rewrite bool_decide_eq_true_2.
    + by rewrite IH.
Qed.

(** Writing back a value with the same erasure into an existing property
    is invisible after erasure. *)
Lemma obj_erase_set_same ks g k x fs :
  k ∈ fs.*1 -> g k x = g k (obj_get k fs) ->
  obj_erase ks g (obj_set k x fs) = obj_erase ks g fs.
Proof.
  induction fs as [|[k' v] fs IH]; simpl; [by intros ?%elem_of_nil|].
  intros Hin Hg. destruct (String.eqb k k') eqn:E; simpl.
  - apply String.eqb_eq in E. subst k'. by rewrite Hg.
  - rewrite IH; [done | | done].
    apply elem_of_cons in Hin as [-> | Hin]; [|done].
    by rewrite String.eqb_refl in E.
Qed.

Lemma erase_set ks g v k x v' :
  k ∈ ks -> set v k x = Ok v' -> erase_obj ks g v' = erase_obj ks g v.
Proof.
  intros Hk. destruct v; simpl; try discriminate; intros [= <-]; [done|].
  simpl. by rewrite obj_erase_set_erased.
Qed.

Lemma erase_put ks g v k x :
  (forall fs, v = VObj fs -> k ∈ fs.*1 /\ g k x = g k (obj_get k fs)) ->
  erase_obj ks g (put v k x) = erase_obj ks g v.
Proof.
  intros H. destruct v; simpl; try done.
  destruct (H fs eq_refl) as [Hin Hg]. by rewrite obj_erase_set_same.
Qed.

Lemma forEach_fmap {A} (f : value -> result value) (h : value -> A) l :
  forall l', forEach f l = Ok l' ->
  (forall x y, f x = Ok y -> h y = h x) ->
  h <$> l' = h <$> l.
Proof.
  induction l as [|x l IH]; simpl; intros l' H Hf.
  - by injection H as <-.
  - destruct (f x) as [y|] eqn:Hx; simpl in H; [|discriminate].
    destruct (forEach f l) as [ys|] eqn:Hl; simpl in H; [|discriminate].
    injection H as <-. rewrite !fmap_cons, (Hf x y Hx), (IH ys); done.
Qed.

Lemma forEach_length {A B} (f : A -> result B) l :
  forall l', forEach f l = Ok l' -> length l' = length l.
Proof.
  induction l as [|x l IH]; simpl; intros l' H.
  - by injection H as <-.
  - destruct (f x) as [y|]; simpl in H; [|discriminate].
    destruct (forEach f l) as [ys|] eqn:Hl; simpl in H; [|discriminate].
    injection H as <-. simpl. by rewrite (IH ys).
Qed.

(** ** updateMediaUrls only writes media URL slots *)

Lemma update_resolutions_erased u image image' :
  update_resolutions u image = Ok image' ->
  erase_image image' = erase_image image.
Proof.
  unfold update_resolutions.
  destruct (get image "resolutions") as [resolutions|] eqn:Hg; simpl;
    [|discriminate].
  destruct resolutions as [| | | | |l|]; try (by intros [= <-]).
  destruct (forEach _ l) as [l'|] eqn:Hl; simpl; [|discriminate].
  intros [= <-]. unfold erase_image. apply erase_put.
  intros fs ->. simpl in Hg. injection Hg as Hg. split.
  - apply obj_get_present. by rewrite Hg.
  - rewrite Hg. simpl. f_equal.
    apply (forEach_fmap _ (erase_obj ["url"] keep) l l' Hl).
    intros x y Hxy. eapply erase_set; [|exact Hxy]. by left.
Qed.

Lemma update_images_erased urls : forall images urlIndex images',
  update_images urls urlIndex images = Ok images' ->
  erase_image <$> images' = erase_image <$> images.
Proof.
  induction images as [|image rest IH]; simpl; intros urlIndex images' H.
  - by injection H as <-.
  - destruct (get image "source") as [source|] eqn:Hs; simpl in H;
      [|discriminate].
    destruct (if truthy source then urls !! urlIndex else None) as [u|] eqn:Hu.
    + destruct (set source "url" (VStr u)) as [source'|] eqn:Hset;
        simpl in H; [|discriminate].
      destruct (update_resolutions u (put image "source" source'))
        as [image'|] eqn:Hr; simpl in H; [|discriminate].
      destruct (update_images urls (S urlIndex) rest) as [rest'|] eqn:Hrest;
        simpl in H; [|discriminate].
      injection H as <-. rewrite !fmap_cons, (IH _ _ Hrest). f_equal.
      rewrite (update_resolutions_erased _ _ _ Hr).
      unfold erase_image. apply erase_put.
      intros fs ->. simpl in Hs. injection Hs as Hs.
      destruct (truthy source) eqn:Ht; [|discriminate]. split.
      * apply obj_get_present. rewrite Hs. by destruct source.
      * rewrite Hs. simpl. eapply erase_set; [|exact Hset]. by left.
    + destruct (update_images urls urlIndex rest) as [rest'|] eqn:Hrest;
        simpl in H; [|discriminate].
      injection H as <-. by rewrite !fmap_cons, (IH _ _ Hrest).
Qed.

Lemma update_media_erased urls urlIndex media r :
  update_media urls urlIndex media = Ok r ->
  erase_media r.1 = erase_media media.
Proof.
  unfold update_media.
  destruct (get media "s") as [s|] eqn:Hs; simpl; [|discriminate].
  destruct (if truthy s then urls !! urlIndex else None) as [u|] eqn:Hu;
    [|by intros [= <-]].
  destruct (set s "u" (VStr u)) as [s'|] eqn:Hset; simpl; [|discriminate].
  intros [= <-]. simpl. unfold erase_media. apply erase_put.
  intros fs ->. simpl in Hs. injection Hs as Hs.
  destruct (truthy s) eqn:Ht; [|discriminate]. split.
  - apply obj_get_present. rewrite Hs. by destruct s.
  - rewrite Hs. unfold inside. simpl.
    eapply erase_set; [|exact Hset]. by left.
Qed.

Lemma update_gallery_keys_erased urls : forall keys urlIndex fs fs',
  (forall k, k ∈ keys -> k ∈ fs.*1) ->
  update_gallery_keys urls urlIndex keys fs = Ok fs' ->
  obj_erase [] (fun _ => erase_media) fs'
  = obj_erase [] (fun _ => erase_media) fs.
Proof.
  induction keys as [|key keys IH]; simpl; intros urlIndex fs fs' Hin H.
  - by injection H as <-.
  - destruct (update_media urls urlIndex (obj_get key fs)) as [r|] eqn:Hr;
      simpl in H; [|discriminate].
    assert (Hin' : forall k, k ∈ keys -> k ∈ (obj_set key r.1 fs).*1).
    { intros k Hk. apply obj_set_keys. apply Hin. by right. }
    rewrite (IH _ _ _ Hin' H).
    apply obj_erase_set_same.
    + apply Hin. by left.
    + apply (update_media_erased _ _ _ _ Hr).
Qed.

Lemma update_gallery_items_erased urls : forall items urlIndex items',
  update_gallery_items urls urlIndex items = Ok items' ->
  erase_media <$> items' = erase_media <$> items.
Proof.
  induction items as [|media rest IH]; simpl; intros urlIndex items' H.
  - by injection H as <-.
  - destruct (update_media urls urlIndex media) as [r|] eqn:Hr;
      simpl in H; [|discriminate].
    destruct (update_gallery_items urls r.2 rest) as [rest'|] eqn:Hrest;
      simpl in H; [|discriminate].
    injection H as <-.
    by rewrite !fmap_cons, (IH _ _ Hrest), (update_media_erased _ _ _ _ Hr).
Qed.

Lemma update_gallery_erased urls mm mm' :
  update_gallery urls mm = Ok mm' -> erase_gallery mm' = erase_gallery mm.
Proof.
  unfold update_gallery. destruct mm; try (by intros [= <-]).
  - destruct (update_gallery_items urls 0 l) as [l'|] eqn:H; simpl;
      [|discriminate].
    intros [= <-]. simpl. by rewrite (update_gallery_items_erased _ _ _ _ H).
  - destruct (update_gallery_keys urls 0 fs.*1 fs) as [fs'|] eqn:H; simpl;
      [|discriminate].
    intros [= <-]. simpl.
    by rewrite (update_gallery_keys_erased _ _ _ _ _ (fun k Hk => Hk) H).
Qed.

Section MediaSlots.
Variable ks : list string.
Variable g : string -> value -> value.
Hypothesis url_erased : "url" ∈ ks.
Hypothesis preview_slots : forall v, g "preview" v = erase_preview v.
Hypothesis gallery_slots : forall v, g "media_metadata" v = erase_gallery v.

Lemma direct_url_erased urls post post1 :
  match urls with
  | [u] =>
      do url <- get post "url";
      if truthy url then
        do isImg <- isImageUrl url;
        if isImg then set post "url" (VStr u) else Ok post
      else Ok post
  | _ => Ok post
  end = Ok post1 ->
  erase_obj ks g post1 = erase_obj ks g post.
Proof.
  destruct urls as [|u [|u' urls]]; try (by intros [= <-]).
  destruct (get post "url") as [url|]; simpl; [|discriminate].
  destruct (truthy url); [|by intros [= <-]].
  destruct (isImageUrl url) as [[|]|]; simpl; try discriminate;
    [|by intros [= <-]].
  intros H. by eapply erase_set.
Qed.

Lemma preview_erased urls post1 post2 :
  (do preview <- get post1 "preview";
   let images := get_opt preview "images" in
   if truthy images && (0 <? length urls)%nat then
     match images with
     | VArr l =>
         do l' <- update_images urls 0 l;
         Ok (put post1 "preview" (put preview "images" (VArr l')))
     | _ => Throw TypeError
     end
   else Ok post1) = Ok post2 ->
  erase_obj ks g post2 = erase_obj ks g post1.
Proof.
  destruct (get post1 "preview") as [preview|] eqn:Hp; simpl; [|discriminate].
  destruct (truthy (get_opt preview "images") && (0 <? length urls)%nat);
    [|by intros [= <-]].
  destruct (get_opt preview "images") as [| | | | |l|] eqn:Hi;
    try discriminate.
  destruct (update_images urls 0 l) as [l'|] eqn:Hl; simpl; [|discriminate].
  intros [= <-]. apply erase_put. intros fs ->.
  simpl in Hp. injection Hp as Hp.
  destruct preview as [| | | | | |pfs]; try discriminate. simpl in Hi. split.
  - apply obj_get_present. by rewrite Hp.
  - rewrite Hp, !preview_slots. unfold erase_preview. apply erase_put.
    intros pfs' [= <-]. split.
    + apply obj_get_present. by rewrite Hi.
    + rewrite Hi. unfold inside. simpl. f_equal.
      by apply (update_images_erased urls l 0 l').
Qed.

Lemma gallery_erased urls post2 post3 :
  (do media_metadata <- get post2 "media_metadata";
   if truthy media_metadata && (0 <? length urls)%nat then
     do mm' <- update_gallery urls media_metadata;
     Ok (put post2 "media_metadata" mm')
   else Ok post2) = Ok post3 ->
  erase_obj ks g post3 = erase_obj ks g post2.
Proof.
  destruct (get post2 "media_metadata") as [mm|] eqn:Hm; simpl;
    [|discriminate].
  destruct (truthy mm && (0 <? length urls)%nat) eqn:Ht;
    [|by intros [= <-]].
  destruct (update_gallery urls mm) as [mm'|] eqn:Hg; simpl; [|discriminate].
  intros [= <-]. apply erase_put. intros fs ->.
  simpl in Hm. injection Hm as Hm. split.
  - apply obj_get_present. rewrite Hm.
    apply andb_true_iff in Ht as [Ht _]. by destruct mm.
  - rewrite Hm, !gallery_slots. by apply (update_gallery_erased urls).
Qed.

Lemma updateMediaUrls_erased post urls post' :
  updateMediaUrls post urls = Ok post' ->
  erase_obj ks g post' = erase_obj ks g post.
Proof.
  unfold updateMediaUrls.
  match goal with
  | |- bind ?m _ = _ -> _ => destruct m as [post1|] eqn:H1
  end; simpl; [|discriminate].
  match goal with
  | |- bind ?m _ = _ -> _ => destruct m as [preview|] eqn:Hp
  end; simpl; [|discriminate].
  match goal with
  | |- bind ?m _ = _ -> _ => destruct m as [post2|] eqn:H2
  end; simpl; [|discriminate].
  intros H3.
  rewrite (gallery_erased urls post2 post' H3).
  rewrite (preview_erased urls post1 post2).
  - by apply (direct_url_erased urls).
  - rewrite Hp. exact H2.
Qed.

End MediaSlots.

(** ** The patch of one post *)

Lemma patch_post_erased p post post' :
  patch_post p post = Ok post' -> erase_post p post' = erase_post p post.
Proof.
  unfold patch_post, erase_post.
  match goal with
  | |- bind ?m _ = _ -> _ => destruct m as [post1|] eqn:H1
  end; simpl; [|discriminate].
  match goal with
  | |- bind ?m _ = _ -> _ => destruct m as [post2|] eqn:H2
  end; simpl; [|discriminate].
  intros H3.
  assert (E1 : erase_obj (named_fields p) (media_slots p) post1
               = erase_obj (named_fields p) (media_slots p) post).
  { destruct (processedTitle p) as [t|] eqn:Ht; [|by injection H1 as <-].
    destruct (nonempty t) eqn:Hn; [|by injection H1 as <-].
    eapply erase_set; [|exact H1].
    unfold named_fields, mentions_title. rewrite Ht. simpl.
    unfold nonempty in Hn. rewrite Hn. by left. }
  assert (E2 : erase_obj (named_fields p) (media_slots p) post2
               = erase_obj (named_fields p) (media_slots p) post1).
  { destruct (processedBody p) as [b|] eqn:Hb; [|by injection H2 as <-].
    destruct (nonempty b) eqn:Hn; [|by injection H2 as <-].
    destruct (set post1 "selftext" _) as [q|] eqn:Hq; simpl in H2;
      [|discriminate].
    assert (Hin : forall k, k ∈ ["selftext"; "selftext_html"] ->
                  k ∈ named_fields p).
    { intros k Hk. unfold named_fields, mentions_body. rewrite Hb. simpl.
      unfold nonempty in Hn. rewrite Hn.
      apply elem_of_app. right. apply elem_of_app. by left. }
    rewrite (erase_set _ _ _ _ _ _ (Hin "selftext_html" ltac:(set_solver)) H2).
    apply (erase_set _ _ _ _ _ _ (Hin "selftext" ltac:(set_solver)) Hq). }
  rewrite <- E1, <- E2.
  destruct (processedMediaUrls p) as [urls|] eqn:Hu; [|by injection H3 as <-].
  destruct (0 <? length urls)%nat eqn:Hl; [|by injection H3 as <-].
  assert (Hm : mentions_media p = true)
    by (unfold mentions_media; by rewrite Hu).
  apply (updateMediaUrls_erased (named_fields p) (media_slots p)) with urls;
    [| | |exact H3].
  - unfold named_fields. rewrite Hm.
    apply elem_of_app. right. apply elem_of_app. right. by left.
  - intros v. unfold media_slots. by rewrite Hm.
  - intros v. unfold media_slots. by rewrite Hm.
Qed.

(** ** The listing walk *)

(** How a child of the listing relates to its counterpart in the output:
    either it is the same value, or it is a [t3] child whose post is keyed
    by the id of a processed post [p] of the batch, and the two posts are
    equal once everything [p] names is erased. *)
Inductive patched (ps : list ProcessedPost) (child child' : value) : Prop :=
| untouched :
    child' = child -> patched ps child child'
| merged (id : string) (p : ProcessedPost) (post post' : value) :
    get child "kind" = Ok (VStr "t3") ->
    get child "data" = Ok post ->
    name_or_id post = Ok (VStr id) ->
    p ∈ ps -> pid p = id ->
    build_map ps !! id = Some p ->
    erase_post p post' = erase_post p post ->
    child' = put child "data" post' ->
    patched ps child child'.

Lemma is_str_true v lit : is_str v lit = true -> v = VStr lit.
Proof.
  destruct v; simpl; try discriminate.
  intros H. apply String.eqb_eq in H. by subst.
Qed.

Lemma obj_set_get_same k fs : k ∈ fs.*1 -> obj_set k (obj_get k fs) fs = fs.
Proof.
  induction fs as [|[k' v] fs IH]; simpl; [by intros ?%elem_of_nil|].
  intros Hin. destruct (String.eqb k k') eqn:E; [done|].
  rewrite IH; [done|].
  apply elem_of_cons in Hin as [-> | Hin]; [|done].
  by rewrite String.eqb_refl in E.
Qed.

Lemma build_map_lookup ps id p :
  build_map ps !! id = Some p -> p ∈ ps /\ pid p = id.
Proof.
  unfold build_map.
  assert (H : forall m0 : gmap string ProcessedPost,
            foldl (fun m post => <[pid post := post]> m) m0 ps !! id = Some p
            -> (p ∈ ps /\ pid p = id) \/ m0 !! id = Some p).
  { induction ps as [|q ps IH]; simpl; intros m0 H; [by right|].
    destruct (IH _ H) as [[Hin Hid] | Hm].
    - left. split; [by right | done].
    - apply lookup_insert_Some in Hm as [[<- <-] | [_ Hm]].
      + left. split; [by left | done].
      + by right. }
  intros Hl. destruct (H ∅ Hl) as [? | Hm]; [done|].
  by rewrite lookup_empty in Hm.
Qed.

Lemma update_listing_child_patched ps child child' :
  update_listing_child (build_map ps) child = Ok child' ->
  patched ps child child'.
Proof.
  unfold update_listing_child.
  destruct (get child "kind") as [kind|] eqn:Hk; simpl; [|discriminate].
  destruct (is_str kind "t3") eqn:Ht; [|intros [= <-]; by apply untouched].
  apply is_str_true in Ht. subst kind.
  destruct (get child "data") as [post|] eqn:Hd; simpl; [|discriminate].
  unfold update_post.
  destruct (name_or_id post) as [key|] eqn:Hn; simpl; [|discriminate].
  destruct (map_get (build_map ps) key) as [p|] eqn:Hm.
  - destruct (patch_post p post) as [post'|] eqn:Hp; simpl; [|discriminate].
    intros [= <-]. destruct key; simpl in Hm; try discriminate.
    destruct (build_map_lookup ps s p Hm) as [Hin Hid].
    eapply (merged ps child _ s p post post'); try done.
    by apply patch_post_erased.
  - simpl. intros [= <-]. apply untouched.
    destruct child as [| | | | | |fs]; simpl in *; try done.
    injection Hd as Hd. rewrite <- Hd. rewrite obj_set_get_same; [done|].
    apply obj_get_present. rewrite Hd. intros ->. simpl in Hn. discriminate.
Qed.

Lemma forEach_Forall2 {A B} (f : A -> result B) (R : A -> B -> Prop) l :
  forall l', forEach f l = Ok l' ->
  (forall x y, f x = Ok y -> R x y) -> Forall2 R l l'.
Proof.
  induction l as [|x l IH]; simpl; intros l' H Hf.
  - injection H as <-. constructor.
  - destruct (f x) as [y|] eqn:Hx; simpl in H; [|discriminate].
    destruct (forEach f l) as [ys|] eqn:Hl; simpl in H; [|discriminate].
    injection H as <-. constructor; [by apply Hf | by apply IH].
Qed.

Lemma is_detail_put_data data x :
  is_detail (put data "data" x) = is_detail data.
Proof.
  destruct data as [| | | | | |fs]; try done.
  unfold is_detail, detail_main_post, detail_comments. simpl.
  rewrite !obj_get_set_ne by (vm_compute; discriminate). done.
Qed.

(** The two values of the scenario. *)
Definition listing_of (post : value) : value :=
  VObj [("kind", VStr "Listing");
        ("data", VObj [("children",
                        VArr [VObj [("kind", VStr "t3");
                                    ("data", post)]])])].

Definition scenario_post (title : string) : value :=
  VObj [("id", VStr "t3_abc"); ("title", VStr title);
        ("selftext", VStr "B")].

Definition scenario_patch : ProcessedPost :=
  {| pid := "t3_abc"; processedTitle := Some "T2"; processedBody := None;
     processedMediaUrls := None |}.

(** C2. Merge patch.  For a response that parses to a listing (and is not
    also of the post-detail shape) and any batch of processed posts, the
    adapter returns either the original text, or the print of the original
    tree in which only the children array was rebuilt, child by child: a
    child is the same value, or it is a [t3] child whose id is that of a
    processed post of the batch and whose post differs from the original
    only in what that processed post names (title; selftext and
    selftext_html; the media URL slots).  In the scenario of the
    specification the title becomes T2 and the selftext stays B. *)
Theorem merge_patch_listing
    (JSON_parse : string -> option value) (JSON_stringify : value -> string)
    (s : string) (ps : list ProcessedPost) :
  (forall data children,
     JSON_parse s = Some data ->
     listing_children data = Ok (Some children) ->
     is_detail data = Ok false ->
     let out := updateResponseWithProcessedPosts JSON_parse JSON_stringify
                  s ps in
     out = s
     \/ exists children',
          Forall2 (patched ps) children children'
          /\ out = JSON_stringify
                     (put data "data"
                        (put (get_opt data "data") "children"
                           (VArr children'))))
  /\ (JSON_parse s = Some (listing_of (scenario_post "T")) ->
      updateResponseWithProcessedPosts JSON_parse JSON_stringify s
        [scenario_patch]
      = JSON_stringify (listing_of (scenario_post "T2"))).
Proof.
  split.
  - intros data children Hp Hl Hd out. unfold out.
    unfold updateResponseWithProcessedPosts, parse. rewrite Hp. simpl.
    unfold update_tree, update_listing. rewrite Hl. simpl.
    destruct (forEach (update_listing_child (build_map ps)) children)
      as [children'|] eqn:Hc; simpl; [|by left].
    assert (Hobj : exists fs, data = VObj fs).
    { unfold listing_children in Hl. destruct data; simpl in Hl;
        try discriminate; eauto. }
    destruct Hobj as [fs ->]. simpl.
    unfold update_detail.
    change (VObj (obj_set "data"
                    (put (obj_get "data" fs) "children" (VArr children')) fs))
      with (put (VObj fs) "data"
              (put (obj_get "data" fs) "children" (VArr children'))).
    rewrite is_detail_put_data, Hd. simpl. right.
    exists children'. split; [|done].
    apply (forEach_Forall2 _ _ _ _ Hc).
    intros x y Hxy. by apply update_listing_child_patched.
  - intros Hp. unfold updateResponseWithProcessedPosts, parse. rewrite Hp.
    simpl.
    assert (H : update_tree [scenario_patch] (listing_of (scenario_post "T"))
                = Ok (listing_of (scenario_post "T2")))
      by (vm_compute; reflexivity).
    rewrite H. done.
Qed.

(** A post whose id no processed post of the batch carries is the same
    value in the output. *)
Lemma absent_id_untouched ps child child' :
  patched ps child child' ->
  (forall post id, get child "data" = Ok post ->
                   name_or_id post = Ok (VStr id) ->
                   build_map ps !! id = None) ->
  child' = child.
Proof.
  intros [-> | id p post post' _ Hd Hn _ _ Hm _ _] Habsent; [done|].
  rewrite (Habsent post id Hd Hn) in Hm. discriminate.
Qed.

(** A processed post that names nothing leaves the post as it is. *)
Lemma erase_nothing p post :
  mentions_title p = false -> mentions_body p = false ->
  mentions_media p = false ->
  erase_post p post = post.
Proof.
  intros Ht Hb Hm. unfold erase_post, named_fields, media_slots.
  rewrite Ht, Hb, Hm. destruct post as [| | | | | |fs]; try done.
  simpl. f_equal. induction fs as [|[k v] fs IH]; simpl; [done|].
  by rewrite IH.
Qed.

(** One processed URL replaces the source URL of the first preview image
    and the URL of each of its resolutions; sizes stay. *)
Example media_urls_fan_out :
  update_tree
    [{| pid := "t3_pic"; processedTitle := None; processedBody := None;
        processedMediaUrls := Some ["https://cdn/blurred.jpg"] |}]
    (listing_of
       (VObj [("name", VStr "t3_pic"); ("title", VStr "Before");
              ("preview",
               VObj [("images",
                      VArr [VObj [("source",
                                   VObj [("url", VStr "https://i/a.jpg");
                                         ("width", VNum 640)]);
                                  ("resolutions",
                                   VArr [VObj [("url", VStr "https://i/s.jpg");
                                               ("width", VNum 108)];
                                         VObj [("url", VStr "https://i/m.jpg");
                                               ("width", VNum 216)]])]])])]))
  = Ok (listing_of
       (VObj [("name", VStr "t3_pic"); ("title", VStr "Before");
              ("preview",
               VObj [("images",
                      VArr [VObj [("source",
                                   VObj [("url",
                                          VStr "https://cdn/blurred.jpg");
                                         ("width", VNum 640)]);
                                  ("resolutions",
                                   VArr [VObj [("url",
                                                VStr "https://cdn/blurred.jpg");
                                               ("width", VNum 108)];
                                         VObj [("url",
                                                VStr "https://cdn/blurred.jpg");
                                               ("width", VNum 216)]])]])])])).
Proof. vm_compute. reflexivity. Qed.

Definition scenario_text : string := "listing".

Definition scenario_parse (s : string) : option value :=
  if String.eqb s scenario_text then Some (listing_of (scenario_post "T"))
  else None.

(** A printer that shows the title and the selftext of the first child. *)
Definition print_first (v : value) : string :=
  let post :=
    get_opt (get_idx_opt (get_opt (get_opt v "data") "children") 0) "data" in
  match get_opt post "title", get_opt post "selftext" with
  | VStr t, VStr b => t +:+ "/" +:+ b
  | _, _ => EmptyString
  end.

Lemma merge_patch_listing_witness :
  (let out := updateResponseWithProcessedPosts scenario_parse print_first
                scenario_text [scenario_patch] in
   out = scenario_text
   \/ exists children',
        Forall2 (patched [scenario_patch])
          [VObj [("kind", VStr "t3"); ("data", scenario_post "T")]] children'
        /\ out = print_first
                   (put (listing_of (scenario_post "T")) "data"
                      (put (get_opt (listing_of (scenario_post "T")) "data")
                         "children" (VArr children'))))
  /\ updateResponseWithProcessedPosts scenario_parse print_first
       scenario_text [scenario_patch] = "T2/B".
Proof.
  split.
  - apply (proj1 (merge_patch_listing scenario_parse print_first
                    scenario_text [scenario_patch])
             (listing_of (scenario_post "T"))
             [VObj [("kind", VStr "t3"); ("data", scenario_post "T")]]);
      reflexivity.
  - apply (proj2 (merge_patch_listing scenario_parse print_first
                    scenario_text [scenario_patch])).
    reflexivity.
Defined.

End MergePatch.

(* ===================================================================== *)
(** * Properties of the image interventions and of deferred polling *)
(* ===================================================================== *)

Module MarkerFacts.
Import JS Str Markers.

(** ** A concrete page *)

Definition q (s : string) : string := dq +:+ s +:+ dq.

(** The attribute text of a deferred intervention of the given type, and
    the configuration it parses to. *)
Definition deferred_text (type : string) : string :=
  "{" +:+ q "type" +:+ ":" +:+ q type +:+ "," +:+ q "status" +:+ ":"
  +:+ q "DEFERRED" +:+ "}".

Definition deferred_config (type : string) : value :=
  VObj [("type", VStr type); ("status", VStr "DEFERRED")].

Definition sample_parse (s : string) : option value :=
  if String.eqb s (deferred_text "cartoonish")
  then Some (deferred_config "cartoonish")
  else if String.eqb s (deferred_text "edit")
  then Some (deferred_config "edit")
  else if String.eqb s "null" then Some VNull
  else None.

Definition sample_stringify (v : value) : string :=
  match v with
  | VArr [] => "[]"
  | VArr [VStr s] => "[" +:+ q s +:+ "]"
  | _ => "null"
  end.

Definition photo : string := "https://i.redd.it/a.jpg".

Definition marked_image (type : string) : Image :=
  {| src := photo; alt := EmptyString; classList := [];
     attributes := {[ DIY_IMG_ATTR := deferred_text type ]};
     parent := PlainParent; children := []; origin := (8, 8)%Z |}.

Definition page (type : string) : world :=
  {| images := {[ 0%nat := marked_image type ]}; deferredImages := ∅;
     polls := []; scheduled := []; posted := [] |}.

Definition photo_key : string := photo +:+ "-[]".

(** ** Bounded polling (C7) *)

(** The invariant of a world that tracks at most the job under [key]:
    that job has sent exactly the requests logged so far, and never more
    than its [maxPolls]. *)
Definition bounded (m : nat) (key : string) (w : world) : Prop :=
  length (posted w) <= m
  /\ forall k job, deferredImages w !! k = Some job ->
       k = key /\ maxPolls job = m /\ pollCount job = length (posted w).

Definition not_marked (e : event) : Prop :=
  match e with MarkedImage _ _ => False | _ => True end.

Lemma messageHandler_effect w i p response :
  posted (messageHandler w i p response) = posted w
  /\ (deferredImages (messageHandler w i p response) = deferredImages w
      \/ deferredImages (messageHandler w i p response)
         = delete (pollKey p) (deferredImages w)).
Proof.
  unfold messageHandler.
  destruct (negb (truthy response)
            || negb (truthy (get_opt response "success"))); simpl;
    [split; [done | by left]|].
  destruct (get (get_opt response "result") "status") as [status|]; simpl;
    [|split; [done | by left]].
  destruct (is_str status "COMPLETED"
            && truthy (get_opt (get_opt response "result")
                         "processed_value")); simpl;
    [|split; [done | by left]].
  destruct (toString _); simpl; [split; [done | by right] |
                                 split; [done | by left]].
Qed.

Lemma bounded_delete m key w w' k :
  bounded m key w ->
  posted w' = posted w ->
  (deferredImages w' = deferredImages w
   \/ deferredImages w' = delete k (deferredImages w)) ->
  bounded m key w'.
Proof.
  intros [Hle Hjobs] Hp Hd. split; rewrite Hp; [done|].
  intros k' job Hk'. apply Hjobs.
  destruct Hd as [Hd | Hd]; rewrite Hd in Hk'; [done|].
  apply lookup_delete_Some in Hk'. tauto.
Qed.

Lemma bounded_on_message m key w rid response :
  bounded m key w -> bounded m key (on_message w rid response).
Proof.
  unfold on_message. generalize (imap (fun i p => (i, p)) (polls w)).
  intros l. revert w. induction l as [|[i p] l IH]; intros w Hb; [done|].
  simpl. apply IH.
  destruct (listening p && String.eqb (requestId p) rid); [|done].
  destruct (messageHandler_effect w i p response) as [Hp Hd].
  by eapply bounded_delete.
Qed.

Lemma bounded_poll m key w k now :
  bounded m key w -> bounded m key (pollForImageResult w k now).
Proof.
  intros Hb. unfold pollForImageResult.
  destruct (deferredImages w !! k) as [job|] eqn:Hk; [|done].
  destruct Hb as [Hle Hjobs]. destruct (Hjobs k job Hk) as (-> & Hm & Hc).
  destruct (maxPolls job <=? pollCount job)%nat eqn:E.
  - split; simpl; [done|]. intros k' job' Hk'.
    apply lookup_delete_Some in Hk'. apply Hjobs. tauto.
  - apply Nat.leb_gt in E. split; simpl; rewrite length_app; simpl; [lia|].
    intros k' job' Hk'. apply lookup_insert_Some in Hk'.
    destruct Hk' as [[<- <-] | [Hne Hk']]; simpl; [split; [done|]; lia|].
    destruct (Hjobs k' job' Hk') as (-> & _). done.
Qed.

Lemma bounded_step JSON_parse JSON_stringify maxAttempts m key w e :
  not_marked e -> bounded m key w ->
  bounded m key (step JSON_parse JSON_stringify maxAttempts w e).
Proof.
  intros Hne Hb. destruct e as [i now|rid response|i|k now]; simpl;
    [done| | |].
  - by apply bounded_on_message.
  - unfold poll_timeout. destruct (polls w !! i) as [p|]; [|done].
    destruct (timeoutId p); done.
  - unfold next_poll. destruct (existsb _ _); [|done].
    by apply bounded_poll.
Qed.

Lemma bounded_run JSON_parse JSON_stringify maxAttempts m key es : forall w,
  Forall not_marked es -> bounded m key w ->
  bounded m key (run JSON_parse JSON_stringify maxAttempts w es).
Proof.
  induction es as [|e es IH]; intros w Hes Hb; [done|].
  inversion Hes; subst. unfold run in *. simpl. apply IH; [done|].
  by apply bounded_step.
Qed.

(** [config?.api?.polling?.maxAttempts || DEFAULT_MAX_ATTEMPTS] *)
Definition effective_maxPolls (maxAttempts : option nat) : nat :=
  match maxAttempts with
  | Some n => if (n =? 0)%nat then DEFAULT_MAX_ATTEMPTS else n
  | None => DEFAULT_MAX_ATTEMPTS
  end.

Lemma bounded_start JSON_stringify maxAttempts w imgElement config now :
  deferredImages w = ∅ -> posted w = [] ->
  exists key,
    bounded (effective_maxPolls maxAttempts) key
      (processCartoonishImageMarker JSON_stringify maxAttempts w imgElement
         config now).
Proof.
  intros Hd Hp.
  assert (H0 : forall key, bounded (effective_maxPolls maxAttempts) key w).
  { intros key. split; rewrite ?Hp, ?Hd; simpl; [lia|].
    intros k job Hk. by rewrite lookup_empty in Hk. }
  unfold processCartoonishImageMarker.
  destruct (images w !! imgElement) as [img|]; [|exists EmptyString; done].
  destruct (negb (truthy config)); [exists EmptyString; done|].
  destruct (is_str (get_opt config "status") "DEFERRED").
  - unfold startImagePolling.
    match goal with
    | |- context [poll_key _ ?u ?f] => exists (poll_key JSON_stringify u f)
    end.
    apply bounded_poll. fold (effective_maxPolls maxAttempts).
    split; simpl; rewrite Hp; simpl; [lia|].
    intros k job Hk. rewrite Hd in Hk.
    apply lookup_insert_Some in Hk.
    destruct Hk as [[<- <-] | [_ Hk]]; [done|]. by rewrite lookup_empty in Hk.
  - exists EmptyString.
    destruct (is_str _ "COMPLETED" && _); [|done].
    destruct (toString _); split; simpl; rewrite ?Hp, ?Hd; simpl; try lia;
      intros k job Hk; by rewrite lookup_empty in Hk.
Qed.

(** The three ways a poll can fail. *)
Inductive failure := NotFound | ErrorResponse | NoResponse.

Definition not_found_response : value :=
  VObj [("success", VBool true);
        ("result", VObj [("status", VStr "NOT FOUND")])].

Definition error_response : value :=
  VObj [("success", VBool false); ("error", VStr "Server error")].

(** Poll number [i], sent at time [sent_at], fails; the next-poll timer it
    arms fires at [next_at]. *)
Definition failed_round (f : failure) (i sent_at next_at : nat)
  : list event :=
  [match f with
   | NotFound =>
       PollResponse ("poll_" +:+ photo_key +:+ "_" +:+ pretty sent_at)
         not_found_response
   | ErrorResponse =>
       PollResponse ("poll_" +:+ photo_key +:+ "_" +:+ pretty sent_at)
         error_response
   | NoResponse => PollTimeout i
   end;
   NextPoll photo_key next_at].

Definition expiry_trace (f1 f2 f3 : failure) : list event :=
  (MarkedImage 0 10
   :: failed_round f1 0 10 18 ++ failed_round f2 1 18 26
   ++ failed_round f3 2 26 34)%list.

Definition has_indicator (img : Image) : bool :=
  existsb (fun n => match n with LoadingIndicator => true | _ => false end)
          (children img).

Lemma idle_step JSON_parse JSON_stringify maxAttempts w e :
  not_marked e -> deferredImages w = ∅ ->
  deferredImages (step JSON_parse JSON_stringify maxAttempts w e) = ∅
  /\ posted (step JSON_parse JSON_stringify maxAttempts w e) = posted w.
Proof.
  intros Hne Hd.
  assert (Hb : bounded (length (posted w)) EmptyString w).
  { split; [done|]. intros k job Hk. rewrite Hd in Hk.
    by rewrite lookup_empty in Hk. }
  destruct e as [i now|rid response|i|k now]; simpl; [done| | |].
  - unfold on_message. generalize (imap (fun i p => (i, p)) (polls w)).
    intros l. revert w Hd Hb. induction l as [|[i p] l IH]; intros w Hd _;
      [done|].
    simpl. destruct (listening p && String.eqb (requestId p) rid).
    + destruct (messageHandler_effect w i p response) as [Hp Hdel].
      rewrite <- Hp. apply IH.
      * destruct Hdel as [-> | ->]; [done|]. rewrite Hd. apply delete_empty.
      * split; [done|]. intros k job Hk.
        destruct Hdel as [Hdel | Hdel]; rewrite Hdel, Hd in Hk;
          rewrite ?delete_empty in Hk; by rewrite lookup_empty in Hk.
    + apply IH; [done|]. split; [done|]. intros k job Hk. rewrite Hd in Hk.
      by rewrite lookup_empty in Hk.
  - unfold poll_timeout. destruct (polls w !! i) as [p|]; [|done].
    destruct (timeoutId p); done.
  - unfold next_poll. destruct (existsb _ _); [|done].
    unfold pollForImageResult. simpl. rewrite Hd, lookup_empty. done.
Qed.

Lemma idle_run JSON_parse JSON_stringify maxAttempts es : forall w,
  Forall not_marked es -> deferredImages w = ∅ ->
  posted (run JSON_parse JSON_stringify maxAttempts w es) = posted w.
Proof.
  induction es as [|e es IH]; intros w Hes Hd; [done|].
  inversion Hes; subst. unfold run in *. simpl.
  destruct (idle_step JSON_parse JSON_stringify maxAttempts w e) as [Hd' Hp];
    [done..|].
  rewrite <- Hp. by apply IH.
Qed.

(** C7. Deferred image expiry.  With [maxPolls = 3], whichever way each of
    the three polls fails (NOT FOUND, an error response, or no response
    within the per-attempt timeout), the fourth visit of the loop removes
    the loading indicator and the processing class, deletes the job, leaves
    the image at its original source, arms nothing further, and exactly
    three requests were sent; no later message or timer makes the page send
    another.  In general, from a page that tracks no job, the requests sent
    after one deferred call never exceed the effective [maxPolls], whatever
    messages and timers follow. *)
Theorem deferred_image_expiry :
  (forall f1 f2 f3 : failure,
     let final := run sample_parse sample_stringify (Some 3)
                    (page "cartoonish") (expiry_trace f1 f2 f3) in
     deferredImages final = ∅
     /\ (exists img, images final !! 0 = Some img
                     /\ has_indicator img = false
                     /\ classList img = []
                     /\ src img = photo)
     /\ length (posted final) = 3
     /\ scheduled final = []
     /\ in_flight final photo_key = 0
     /\ Forall (fun p => timeoutId p <> Armed) (polls final)
     /\ forall later, Forall not_marked later ->
          posted (run sample_parse sample_stringify (Some 3) final later)
          = posted final)
  /\ (forall JSON_parse JSON_stringify maxAttempts w imgElement config now es,
        deferredImages w = ∅ -> posted w = [] ->
        Forall not_marked es ->
        length (posted
                  (run JSON_parse JSON_stringify maxAttempts
                     (processCartoonishImageMarker JSON_stringify maxAttempts
                        w imgElement config now) es))
        <= effective_maxPolls maxAttempts).
Proof.
  split.
  - intros f1 f2 f3 final.
    assert (Hd : deferredImages final = ∅)
      by (destruct f1, f2, f3; vm_compute; reflexivity).
    split; [exact Hd|].
    split.
    { destruct f1, f2, f3; vm_compute; eexists;
        (split; [reflexivity|]); repeat split. }
    split; [destruct f1, f2, f3; vm_compute; reflexivity|].
    split; [destruct f1, f2, f3; vm_compute; reflexivity|].
    split; [destruct f1, f2, f3; vm_compute; reflexivity|].
    split.
    { destruct f1, f2, f3; vm_compute;
        repeat (apply Forall_cons; split; [discriminate|]);
        apply Forall_nil_2. }
    intros later Hl. apply idle_run; [exact Hl | exact Hd].
  - intros JSON_parse JSON_stringify maxAttempts w imgElement config now es
      Hd Hp Hes.
    destruct (bounded_start JSON_stringify maxAttempts w imgElement config
                now Hd Hp) as [key Hb].
    apply (bounded_run JSON_parse JSON_stringify maxAttempts _ key es _ Hes Hb).
Qed.

Lemma deferred_image_expiry_witness :
  length (posted
            (run sample_parse sample_stringify (Some 3)
               (processCartoonishImageMarker sample_stringify (Some 3)
                  (page "cartoonish") 0 (deferred_config "cartoonish") 10)
               (failed_round NotFound 0 10 18)))
  <= effective_maxPolls (Some 3).
Proof.
  apply (proj2 deferred_image_expiry sample_parse sample_stringify (Some 3)
           (page "cartoonish") 0 (deferred_config "cartoonish") 10
           (failed_round NotFound 0 10 18)).
  - reflexivity.
  - reflexivity.
  - repeat constructor.
Defined.

(** ** Polling loops *)

(** A polling loop of [key] is alive while one of its polls has its
    listener registered, or while its next-poll timer is armed. *)
Definition loops (w : world) (key : string) : nat :=
  in_flight w key + length (filter (fun k => k = key) (scheduled w)).

(** A poll whose five-second timer is still armed is still listening. *)
Definition timers_consistent (w : world) : Prop :=
  Forall (fun p => timeoutId p = Armed -> listening p = true) (polls w).

Definition live (key : string) (p : poll) : Prop :=
  pollKey p = key /\ listening p = true.

Lemma filter_insert_length {A} (P : A -> Prop) `{!forall x, Decision (P x)}
    (l : list A) i x y :
  l !! i = Some x ->
  length (filter P (<[i := y]> l)) + (if decide (P x) then 1 else 0)
  = length (filter P l) + (if decide (P y) then 1 else 0).
Proof.
  revert i. induction l as [|z l IH]; intros [|i] Hi; simpl in *;
    try discriminate.
  - inversion Hi; subst. rewrite !filter_cons.
    destruct (decide (P x)), (decide (P y)); simpl; lia.
  - specialize (IH i Hi). rewrite !filter_cons.
    destruct (decide (P z)); simpl; lia.
Qed.

Definition stopped (p : poll) : poll :=
  {| requestId := requestId p; pollKey := pollKey p; target := target p;
     listening := false;
     timeoutId := match timeoutId p with Armed => Cleared | t => t end |}.

Lemma messageHandler_polls w i p response :
  polls (messageHandler w i p response) = <[i := stopped p]> (polls w)
  /\ (scheduled (messageHandler w i p response) = scheduled w
      \/ scheduled (messageHandler w i p response)
         = (scheduled w ++ [pollKey p])%list).
Proof.
  unfold messageHandler, stopped.
  destruct (negb (truthy response)
            || negb (truthy (get_opt response "success"))); simpl;
    [split; [done | by right]|].
  destruct (get (get_opt response "result") "status") as [status|]; simpl;
    [|split; [done | by left]].
  destruct (is_str status "COMPLETED"
            && truthy (get_opt (get_opt response "result")
                         "processed_value")); simpl;
    [|split; [done | by right]].
  destruct (toString _); simpl; split; done || by left.
Qed.

Lemma loops_stop w w' i p q key :
  polls w !! i = Some p -> listening p = true -> listening q = false ->
  polls w' = <[i := q]> (polls w) ->
  (scheduled w' = scheduled w
   \/ scheduled w' = (scheduled w ++ [pollKey p])%list) ->
  loops w' key <= loops w key.
Proof.
  intros Hi Hl Hq Hp Hs. unfold loops, in_flight. rewrite Hp.
  pose proof (filter_insert_length
                (fun p' => pollKey p' = key /\ listening p' = true)
                (polls w) i p q Hi) as H.
  destruct (decide (pollKey q = key /\ listening q = true)) as [[_ Hf]|_];
    [congruence|].
  destruct Hs as [-> | ->].
  - destruct (decide (pollKey p = key /\ listening p = true)); lia.
  - rewrite filter_app, length_app. simpl.
    destruct (decide (pollKey p = key /\ listening p = true)) as [[Hk _]|Hn].
    + rewrite filter_cons_True by done. simpl. lia.
    + rewrite filter_cons_False; [simpl; lia|].
      intros Hk. apply Hn. done.
Qed.

Lemma timers_consistent_stop w w' i q :
  timers_consistent w -> timeoutId q <> Armed ->
  polls w' = <[i := q]> (polls w) ->
  timers_consistent w'.
Proof.
  unfold timers_consistent. intros Hw Hq ->.
  apply Forall_insert; [done|]. intros H. done.
Qed.

Lemma stopped_not_armed p : timeoutId (stopped p) <> Armed.
Proof. unfold stopped. simpl. destruct (timeoutId p); discriminate. Qed.

Lemma snapshot_indices (l : list poll) :
  NoDup (imap (fun i p => (i, p)) l).*1.
Proof.
  rewrite fmap_imap.
  rewrite (imap_ext _ (fun j _ => j)) by done.
  rewrite (imap_seq_0 l (fun j => j)), list_fmap_id. apply NoDup_seq.
Qed.

Lemma deliver_loops key rid response : forall rest w,
  NoDup rest.*1 ->
  (forall i p, (i, p) ∈ rest -> polls w !! i = Some p) ->
  timers_consistent w ->
  let w' := foldl (fun w ip =>
                     if listening ip.2 && String.eqb (requestId ip.2) rid
                     then messageHandler w ip.1 ip.2 response
                     else w) w rest in
  loops w' key <= loops w key /\ timers_consistent w'.
Proof.
  induction rest as [|[i p] rest IH]; intros w Hnd Hin Hw; [done|].
  simpl. inversion Hnd as [|? ? Hni Hnd']; subst.
  destruct (listening p && String.eqb (requestId p) rid) eqn:Hc.
  - apply andb_true_iff in Hc as [Hl _].
    destruct (messageHandler_polls w i p response) as [Hp Hs].
    assert (Hi : polls w !! i = Some p) by (apply Hin; by left).
    destruct (IH (messageHandler w i p response)) as [Hle Hw']; [done| |
      by eapply timers_consistent_stop; [|apply stopped_not_armed|]|].
    + intros j q Hjq. rewrite Hp.
      rewrite list_lookup_insert_ne; [apply Hin; by right|].
      intros ->. apply Hni. apply list_elem_of_fmap. by exists (j, q).
    + split; [|done]. etrans; [exact Hle|].
      by eapply (loops_stop w _ i p (stopped p) key).
  - apply IH; [done| |done]. intros j q Hjq. apply Hin. by right.
Qed.

Lemma on_message_loops key w rid response :
  timers_consistent w ->
  loops (on_message w rid response) key <= loops w key
  /\ timers_consistent (on_message w rid response).
Proof.
  intros Hw. apply deliver_loops; [apply snapshot_indices| |done].
  intros i p Hip. apply elem_of_lookup_imap in Hip as (j & q & [= -> ->] & H).
  done.
Qed.

Lemma remove_first_key_count key k l :
  existsb (String.eqb k) l = true ->
  length (filter (fun k' => k' = key) (remove_first_key k l))
  + (if decide (k = key) then 1 else 0)
  = length (filter (fun k' => k' = key) l).
Proof.
  induction l as [|k' l IH]; simpl; [discriminate|].
  destruct (String.eqb k k') eqn:E.
  - intros _. apply String.eqb_eq in E. subst k'. rewrite filter_cons.
    destruct (decide (k = key)); simpl; lia.
  - simpl. intros H. specialize (IH H). rewrite !filter_cons.
    destruct (decide (k' = key)); simpl; lia.
Qed.

Lemma pollForImageResult_loops key w k now :
  timers_consistent w ->
  loops (pollForImageResult w k now) key
  <= loops w key + (if decide (k = key) then 1 else 0)
  /\ timers_consistent (pollForImageResult w k now).
Proof.
  intros Hw. unfold pollForImageResult.
  destruct (deferredImages w !! k) as [job|]; [|split; [lia | done]].
  destruct (maxPolls job <=? pollCount job)%nat.
  - split; [unfold loops, in_flight; simpl; lia | done].
  - split.
    + unfold loops, in_flight. simpl. rewrite filter_app, length_app.
      rewrite filter_cons. simpl.
      destruct (decide (k = key /\ true = true)) as [[Hk _]|Hn];
        destruct (decide (k = key)) as [Hk'|Hk']; simpl; try lia;
        try done.
    + unfold timers_consistent. simpl. apply Forall_app. split; [done|].
      constructor; [done | constructor].
Qed.

Lemma step_loops JSON_parse JSON_stringify maxAttempts key w e :
  not_marked e -> timers_consistent w ->
  loops (step JSON_parse JSON_stringify maxAttempts w e) key <= loops w key
  /\ timers_consistent (step JSON_parse JSON_stringify maxAttempts w e).
Proof.
  intros Hne Hw. destruct e as [i now|rid response|i|k now]; simpl;
    [done| | |].
  - by apply on_message_loops.
  - unfold poll_timeout. destruct (polls w !! i) as [p|] eqn:Hi; [|done].
    destruct (timeoutId p) eqn:Ht; try done.
    assert (Hl : listening p = true).
    { unfold timers_consistent in Hw. rewrite Forall_lookup in Hw.
      by apply (Hw i p Hi). }
    split.
    + eapply (loops_stop w _ i p _ key); [done | done | | done | by right].
      done.
    + eapply timers_consistent_stop; [done| |done]. discriminate.
  - unfold next_poll. destruct (existsb (String.eqb k) (scheduled w)) eqn:Hk;
      [|done].
    set (w1 := set_scheduled w (remove_first_key k (scheduled w))).
    destruct (pollForImageResult_loops key w1 k now Hw) as [Hle Hw'].
    split; [|done]. etrans; [exact Hle|].
    unfold loops, in_flight, w1. simpl.
    pose proof (remove_first_key_count key k (scheduled w) Hk). lia.
Qed.

Lemma run_loops JSON_parse JSON_stringify maxAttempts key es : forall w,
  Forall not_marked es -> timers_consistent w ->
  loops (run JSON_parse JSON_stringify maxAttempts w es) key <= loops w key.
Proof.
  induction es as [|e es IH]; intros w Hes Hw; [done|].
  inversion Hes; subst. unfold run in *. simpl.
  destruct (step_loops JSON_parse JSON_stringify maxAttempts key w e)
    as [Hle Hw']; [done..|].
  etrans; [apply IH|]; done.
Qed.

(** ** Every deferred call starts one more loop (C6) *)

(** C6, amended.  The tracking map holds one job per key, but nothing
    guards the start of a loop: a call of [processCartoonishImageMarker]
    with a DEFERRED configuration replaces whatever job is tracked under
    the key by a fresh one (its poll count restarts with the poll sent at
    once), sends a poll request, and adds one polling loop to those alive
    for that key.  Polling inside the loops is sequential: messages and
    timers never add a loop. *)
Theorem deferred_call_adds_a_polling_loop
    (JSON_parse : string -> option value)
    (JSON_stringify : value -> string) (maxAttempts : option nat)
    (w : world) (imgElement : nat) (img : Image) (config : value)
    (now : nat) :
  images w !! imgElement = Some img ->
  truthy config = true ->
  is_str (get_opt config "status") "DEFERRED" = true ->
  timers_consistent w ->
  let filters := if truthy (get_opt config "filters")
                 then get_opt config "filters" else VArr [] in
  let key := poll_key JSON_stringify (src img)
               (pollingFilters_of config (pollingFilters_of config filters)) in
  let w' := processCartoonishImageMarker JSON_stringify maxAttempts w
              imgElement config now in
  in_flight w' key = in_flight w key + 1
  /\ loops w' key = loops w key + 1
  /\ length (posted w') = length (posted w) + 1
  /\ (exists job, deferredImages w' !! key = Some job
                  /\ imageElement job = imgElement
                  /\ pollCount job = 1)
  /\ forall es, Forall not_marked es ->
       loops (run JSON_parse JSON_stringify maxAttempts w' es) key
       <= loops w key + 1.
Proof.
  intros Himg Ht Hs Hw filters key w'.
  assert (Hw' : polls w' = (polls w ++ [{| requestId := "poll_" +:+ key
                                             +:+ "_" +:+ pretty now;
                                           pollKey := key;
                                           target := imgElement;
                                           listening := true;
                                           timeoutId := Armed |}])%list
                /\ scheduled w' = scheduled w
                /\ length (posted w') = length (posted w) + 1
                /\ exists job, deferredImages w' !! key = Some job
                               /\ imageElement job = imgElement
                               /\ pollCount job = 1).
  { unfold w', processCartoonishImageMarker.
    rewrite Himg, Ht, Hs. simpl. fold filters.
    unfold startImagePolling. fold key.
    unfold pollForImageResult. simpl. rewrite lookup_insert_eq. simpl.
    set (m := match maxAttempts with
              | Some n => if (n =? 0)%nat then DEFAULT_MAX_ATTEMPTS else n
              | None => DEFAULT_MAX_ATTEMPTS
              end).
    assert (Hm : (m <=? 0)%nat = false).
    { apply Nat.leb_gt. unfold m, DEFAULT_MAX_ATTEMPTS.
      destruct maxAttempts as [n|]; [|lia].
      destruct (n =? 0)%nat eqn:E; [lia|]. apply Nat.eqb_neq in E. lia. }
    rewrite Hm. simpl. split; [done|]. split; [done|]. split.
    - rewrite length_app. done.
    - eexists. rewrite lookup_insert_eq. done. }
  destruct Hw' as (Hp & Hsch & Hposted & Hjob).
  assert (Hin : in_flight w' key = in_flight w key + 1).
  { unfold in_flight. rewrite Hp, filter_app, length_app.
    rewrite filter_cons_True by done. done. }
  assert (Hloops : loops w' key = loops w key + 1).
  { unfold loops. rewrite Hin, Hsch. lia. }
  repeat split; try done.
  intros es Hes. rewrite <- Hloops. apply run_loops; [done|].
  unfold timers_consistent. rewrite Hp. apply Forall_app. split; [done|].
  constructor; [done | constructor].
Qed.

Lemma deferred_call_adds_a_polling_loop_witness :
  let w := processCartoonishImageMarker sample_stringify (Some 3)
             (page "cartoonish") 0 (deferred_config "cartoonish") 10 in
  let w' := processCartoonishImageMarker sample_stringify (Some 3) w 0
              (deferred_config "cartoonish") 20 in
  in_flight w' photo_key = in_flight w photo_key + 1
  /\ loops w' photo_key = loops w photo_key + 1
  /\ length (posted w') = length (posted w) + 1
  /\ (exists job, deferredImages w' !! photo_key = Some job
                  /\ imageElement job = 0
                  /\ pollCount job = 1)
  /\ forall es, Forall not_marked es ->
       loops (run sample_parse sample_stringify (Some 3) w' es) photo_key
       <= loops w photo_key + 1.
Proof.
  apply (deferred_call_adds_a_polling_loop sample_parse sample_stringify
           (Some 3)
           (processCartoonishImageMarker sample_stringify (Some 3)
              (page "cartoonish") 0 (deferred_config "cartoonish") 10)
           0
           (showImageLoadingState (marked_image "cartoonish"))
           (deferred_config "cartoonish") 20).
  - reflexivity.
  - reflexivity.
  - reflexivity.
  - vm_compute. constructor; [done | constructor].
Defined.

(** C6 as stated fails: the key is tracked after the first call, and the
    second call leaves two polling loops in flight for it. *)
Lemma second_deferred_call_starts_second_loop :
  let w1 := processCartoonishImageMarker sample_stringify (Some 3)
              (page "cartoonish") 0 (deferred_config "cartoonish") 10 in
  let w2 := processCartoonishImageMarker sample_stringify (Some 3) w1 0
              (deferred_config "cartoonish") 20 in
  is_Some (deferredImages w1 !! photo_key)
  /\ in_flight w1 photo_key = 1
  /\ ~ (in_flight w2 photo_key <= 1).
Proof.
  vm_compute. split; [eauto|]. split; [done|]. lia.
Qed.

(** ** Overlay and blur application (C8) *)

Definition valid_box (b : box) : Prop :=
  exists l t w h, b = {| left := Some l; top := Some t; width := Some w;
                         height := Some h |}
                  /\ (0 <= w)%Z /\ (0 <= h)%Z.

Lemma same_overlay_own_style b :
  valid_box b ->
  same_overlay b (OverlayImage (style_offset (left b)) (style_offset (top b))
                    (style_size (width b)) (style_size (height b))) = true.
Proof.
  intros (l & t & w & h & -> & Hw & Hh). simpl.
  assert ((w <? 0)%Z = false) as -> by lia.
  assert ((h <? 0)%Z = false) as -> by lia.
  rewrite !String.eqb_refl. done.
Qed.

(** The overlay handler compares the style strings it wrote itself: for a
    box of numbers with non-negative sizes a second application changes
    nothing. *)
Lemma ensure_container_idempotent img :
  ensure_container (ensure_container img) = ensure_container img.
Proof.
  unfold ensure_container. destruct (parent img) eqn:P; simpl;
    rewrite ?P; done.
Qed.

Lemma applyOverlayToImage_idempotent img b :
  valid_box b ->
  applyOverlayToImage (applyOverlayToImage img b) b
  = applyOverlayToImage img b.
Proof.
  intros Hb. unfold applyOverlayToImage at 2 3.
  destruct (existsb (same_overlay b) (children (ensure_container img)))
    eqn:E.
  - unfold applyOverlayToImage.
    rewrite ensure_container_idempotent, E. done.
  - unfold applyOverlayToImage, append_child.
    destruct (parent (ensure_container img)) eqn:P.
    + rewrite ensure_container_idempotent, E, P. done.
    + unfold ensure_container in P.
      destruct (parent img) eqn:Q; simpl in P; congruence.
    + unfold ensure_container at 1.
      cbn -[same_overlay style_offset style_size].
      rewrite existsb_app. cbn -[same_overlay style_offset style_size].
      rewrite (same_overlay_own_style b Hb), orb_true_r. done.
Qed.

Definition framed_photo : Image :=
  {| src := photo; alt := EmptyString; classList := [];
     attributes := ∅; parent := PlainParent; children := [];
     origin := (8, 8)%Z |}.

Definition face_box : box :=
  {| left := Some 10%Z; top := Some 10%Z; width := Some 50%Z;
     height := Some 50%Z |}.

(** C8, at the failing input.  The blur handler looks for an existing
    overlay by comparing [getBoundingClientRect()], which is relative to
    the viewport, with the offsets inside the container.  With the
    container anywhere but at the viewport's origin the first overlay is
    not recognised and the second call appends another one; the overlay
    handler, on the same image and box, keeps a single overlay. *)
Theorem blur_applied_twice_duplicates_overlay :
  children (applyBlurToImage (applyBlurToImage framed_photo face_box)
              face_box)
  = [BlurOverlay face_box; BlurOverlay face_box]
  /\ children (applyOverlayToImage (applyOverlayToImage framed_photo face_box)
                 face_box)
     = [OverlayImage "10px" "10px" "50px" "50px"].
Proof. vm_compute. done. Qed.

(** The blur test only succeeds for a container at the viewport's origin. *)
Example blur_deduplicates_at_viewport_origin :
  let img := {| src := photo; alt := EmptyString; classList := [];
                attributes := ∅; parent := PlainParent; children := [];
                origin := (0, 0)%Z |} in
  children (applyBlurToImage (applyBlurToImage img face_box) face_box)
  = [BlurOverlay face_box].
Proof. vm_compute. done. Qed.

(** ** The intervention attribute (C9) *)

Definition attribute_of (w : world) (i : nat) : option string :=
  match images w !! i with
  | Some img => attributes img !! DIY_IMG_ATTR
  | None => None
  end.

(** C9, at the failing input.  A configuration of type [edit] with status
    DEFERRED is dispatched to the deferred handler, which shows the loading
    indicator and starts polling; yet the attribute is removed at once,
    because the removal test only exempts the type [cartoonish].  For
    [cartoonish] the attribute stays. *)
Theorem edit_deferred_attribute_removed :
  let w := processMarkedImage sample_parse sample_stringify (Some 3)
             (page "edit") 0 10 in
  attribute_of (page "edit") 0 = Some (deferred_text "edit")
  /\ attribute_of w 0 = None
  /\ is_Some (deferredImages w !! photo_key)
  /\ in_flight w photo_key = 1
  /\ attribute_of
       (processMarkedImage sample_parse sample_stringify (Some 3)
          (page "cartoonish") 0 10) 0
     = Some (deferred_text "cartoonish").
Proof. vm_compute. repeat split; eauto. Qed.

(** Because the attribute stays on a deferred [cartoonish] image, the next
    pass of the DOM processor hands the image to [processMarkedImage] once
    more. *)
Example revisited_deferred_image_polls_twice :
  in_flight
    (run sample_parse sample_stringify (Some 3) (page "cartoonish")
       [MarkedImage 0 10; MarkedImage 0 20]) photo_key = 2.
Proof. vm_compute. done. Qed.

(** A configuration that parses to [null] is left in place: reading its
    type throws. *)
Example null_config_keeps_attribute :
  let w := {| images := {[ 0%nat :=
                {| src := photo; alt := EmptyString; classList := [];
                   attributes := {[ DIY_IMG_ATTR := "null" ]};
                   parent := PlainParent; children := [];
                   origin := (8, 8)%Z |} ]};
              deferredImages := ∅; polls := []; scheduled := [];
              posted := [] |} in
  attribute_of (processMarkedImage sample_parse sample_stringify (Some 3)
                  w 0 10) 0 = Some "null".
Proof. vm_compute. done. Qed.

End MarkerFacts.

Module TextFacts.
Import Str MarkerText.

(** [lacks cs s]: none of the characters [cs] occurs in [s]. *)
Fixpoint lacks (cs : list ascii) (s : string) : bool :=
  match s with
  | EmptyString => true
  | String c s' => negb (existsb (Ascii.eqb c) cs) && lacks cs s'
  end.

Lemma str_app_cons c s t : String c s +:+ t = String c (s +:+ t).
Proof. reflexivity. Qed.

Lemma str_app_nil_l s : EmptyString +:+ s = s.
Proof. reflexivity. Qed.

Lemma str_app_nil_r s : s +:+ EmptyString = s.
Proof. induction s as [|c s IH]; [done|]. by rewrite str_app_cons, IH. Qed.

Lemma str_app_assoc s t u : (s +:+ t) +:+ u = s +:+ (t +:+ u).
Proof. induction s as [|c s IH]; [done|]. by rewrite !str_app_cons, IH. Qed.

Lemma str_length_app s t :
  String.length (s +:+ t) = String.length s + String.length t.
Proof. induction s as [|c s IH]; [done|]. rewrite str_app_cons. simpl. lia. Qed.

Lemma substring_all s : String.substring 0 (String.length s) s = s.
Proof. induction s as [|c s IH]; [done|]. simpl. by rewrite IH. Qed.

Lemma substring_0_0 s : String.substring 0 0 s = EmptyString.
Proof. by destruct s. Qed.

Lemma substring_app_l w t :
  String.substring 0 (String.length w) (w +:+ t) = w.
Proof.
  induction w as [|c w IH]; [apply substring_0_0|].
  rewrite str_app_cons. simpl. by rewrite IH.
Qed.

Lemma substring_app_r w t n m :
  String.substring (String.length w + n) m (w +:+ t) = String.substring n m t.
Proof. induction w as [|c w IH]; [done|]. rewrite str_app_cons. simpl. apply IH. Qed.

Lemma index0_cons p c s :
  String.index 0 p (String c s)
  = if String.prefix p (String c s) then Some 0
    else S <$> String.index 0 p s.
Proof.
  simpl. destruct p as [|a p]; [done|].
  destruct (ascii_dec a c); [destruct (String.prefix p s)|];
    by destruct (String.index 0 (String a p) s).
Qed.

Lemma prefix_app p t : String.prefix p (p +:+ t) = true.
Proof.
  induction p as [|c p IH]; [by destruct t|].
  rewrite str_app_cons. simpl. by destruct (ascii_dec c c).
Qed.

Lemma prefix_head_ne ch p x s :
  x <> ch -> String.prefix (String ch p) (String x s) = false.
Proof. intros Hx. simpl. by destruct (ascii_dec ch x). Qed.

Lemma lacks_head ch x s :
  lacks [ch] (String x s) = true -> x <> ch /\ lacks [ch] s = true.
Proof.
  simpl. rewrite orb_false_r. intros [Hx Hs]%andb_prop. split; [|done].
  intros ->. by rewrite Ascii.eqb_refl in Hx.
Qed.

Lemma lacks_app cs s t : lacks cs (s +:+ t) = lacks cs s && lacks cs t.
Proof.
  induction s as [|c s IH]; [done|].
  rewrite str_app_cons. simpl. by rewrite IH, andb_assoc.
Qed.

Lemma lacks_weaken cs ch s :
  existsb (Ascii.eqb ch) cs = true -> lacks cs s = true ->
  lacks [ch] s = true.
Proof.
  intros Hin. induction s as [|c s IH]; [done|]. simpl.
  intros [Hc Hs]%andb_prop. rewrite IH, andb_true_r, orb_false_r by done.
  destruct (Ascii.eqb c ch) eqn:E; [|done].
  apply Ascii.eqb_eq in E as ->. apply negb_true_iff in Hc. congruence.
Qed.

(** The first occurrence of a pattern behind a stretch that lacks the
    pattern's first character. *)
Lemma index_skip ch p w t :
  lacks [ch] w = true ->
  String.index 0 (String ch p) (w +:+ t)
  = (fun n => String.length w + n) <$> String.index 0 (String ch p) t.
Proof.
  induction w as [|x w IH]; intros Hw.
  - rewrite str_app_nil_l. by destruct (String.index _ _ t).
  - apply lacks_head in Hw as [Hx Hw].
    rewrite str_app_cons, index0_cons, prefix_head_ne by done.
    rewrite IH by done.
    by destruct (String.index _ _ t).
Qed.

Lemma index_lacks ch p w :
  lacks [ch] w = true -> String.index 0 (String ch p) w = None.
Proof.
  intros Hw. rewrite <- (str_app_nil_r w), index_skip by done. done.
Qed.

Lemma includes_lacks ch p w :
  lacks [ch] w = true -> includes w (String ch p) = false.
Proof. intros Hw. unfold includes. by rewrite index_lacks. Qed.

Lemma index_here ch p t :
  String.index 0 (String ch p) (String ch p +:+ t) = Some 0.
Proof.
  rewrite str_app_cons, index0_cons.
  change (String ch (p +:+ t)) with (String ch p +:+ t).
  by rewrite prefix_app.
Qed.

Lemma cut_at ch p w t :
  lacks [ch] w = true ->
  cut (String ch p) (w +:+ String ch p +:+ t) = Some (w, t).
Proof.
  intros Hw. unfold cut. rewrite index_skip, index_here by done.
  cbn [fmap option_fmap option_map].
  rewrite Nat.add_0_r, substring_app_l. f_equal. f_equal.
  rewrite substring_app_r.
  rewrite <- (Nat.add_0_r (String.length (String ch p))) at 1.
  rewrite substring_app_r, !str_length_app.
  replace (_ - _) with (String.length t) by lia.
  apply substring_all.
Qed.

Lemma cut_lacks ch p w :
  lacks [ch] w = true -> cut (String ch p) w = None.
Proof. intros Hw. unfold cut. by rewrite index_lacks. Qed.

Lemma replace_delimited_lacks fuel ch S E wrap text :
  lacks [ch] text = true ->
  replace_delimited fuel (String ch S) E wrap text = text.
Proof. intros Hw. destruct fuel; [done|]. simpl. by rewrite cut_lacks. Qed.

(** One well-formed region, with no marker character around or inside it,
    is replaced by its wrapping. *)
Lemma replace_delimited_region fuel ch S E wrap a c b :
  lacks [ch] a = true -> lacks [ch] c = true -> lacks [ch] b = true ->
  replace_delimited (Datatypes.S fuel) (String ch S) (String ch E) wrap
    (a +:+ String ch S +:+ c +:+ String ch E +:+ b)
  = a +:+ wrap c +:+ b.
Proof.
  intros Ha Hc Hb. simpl.
  rewrite cut_at by done. rewrite cut_at by done.
  by rewrite replace_delimited_lacks.
Qed.


(** ** Unmatched markers *)

Lemma index_suffix_none p x y :
  String.index 0 p (x +:+ y) = None -> String.index 0 p y = None.
Proof.
  induction x as [|c x IH]; [done|].
  rewrite str_app_cons, index0_cons.
  destruct (String.prefix _ _); [done|].
  destruct (String.index 0 p (x +:+ y)); [done|]. auto.
Qed.

Lemma prefix_split p : forall s,
  String.prefix p s = true ->
  s = p +:+ String.substring (String.length p)
              (String.length s - String.length p) s.
Proof.
  induction p as [|a p IH]; intros s H.
  - rewrite str_app_nil_l. simpl. rewrite Nat.sub_0_r. symmetry.
    apply substring_all.
  - destruct s as [|b s]; [done|]. simpl in H.
    destruct (ascii_dec a b) as [->|]; [|done].
    rewrite str_app_cons. simpl. f_equal. by apply IH.
Qed.

Lemma index_split p : forall s i,
  String.index 0 p s = Some i ->
  s = String.substring 0 i s +:+ p
      +:+ String.substring (i + String.length p)
            (String.length s - (i + String.length p)) s.
Proof.
  induction s as [|c s IH]; intros i H.
  - simpl in H. destruct p; [|done]. by injection H as <-.
  - rewrite index0_cons in H.
    destruct (String.prefix p (String c s)) eqn:E.
    + injection H as <-. rewrite substring_0_0, str_app_nil_l.
      by apply prefix_split.
    + destruct (String.index 0 p s) as [j|] eqn:Ej; [|done].
      injection H as <-. simpl. rewrite str_app_cons. f_equal. by apply IH.
Qed.

Lemma cut_spec p s a b : cut p s = Some (a, b) -> s = a +:+ p +:+ b.
Proof.
  unfold cut. destruct (String.index 0 p s) eqn:E; [|done].
  intros [= <- <-]. by apply index_split.
Qed.

Lemma substring_suffix n : forall s,
  exists x, s = x +:+ String.substring n (String.length s - n) s.
Proof.
  induction n as [|n IH]; intros s.
  - exists EmptyString. by rewrite Nat.sub_0_r, substring_all.
  - destruct s as [|c s]; [by exists EmptyString|].
    destruct (IH s) as [x Hx]. exists (String c x).
    rewrite str_app_cons. simpl. by f_equal.
Qed.

Lemma includes_false text pat :
  includes text pat = false -> String.index 0 pat text = None.
Proof. unfold includes. by destruct (String.index 0 pat text). Qed.

Lemma replace_delimited_no_end fuel START END wrap text :
  String.index 0 END text = None ->
  replace_delimited fuel START END wrap text = text.
Proof.
  intros H. destruct fuel; [done|]. simpl.
  destruct (cut START text) as [[before rest]|] eqn:E; [|done].
  apply cut_spec in E.
  assert (String.index 0 END rest = None) as Hr.
  { rewrite E, <- str_app_assoc in H. by apply index_suffix_none in H. }
  unfold cut. by rewrite Hr.
Qed.

Lemma replace_overlay_no_end : forall fuel text,
  String.index 0 OVERLAY_END text = None -> replace_overlay fuel text = text.
Proof.
  induction fuel as [|fuel IH]; intros text H; [done|].
  cbn [replace_overlay].
  destruct (cut OVERLAY_START text) as [[before rest]|] eqn:E; [|done].
  apply cut_spec in E.
  destruct (cut "|" (first_line rest)) as [[warning tl]|] eqn:Eb.
  - destruct (substring_suffix (String.length warning + 1) rest) as [x Hx].
    assert (String.index 0 OVERLAY_END
              (String.substring (String.length warning + 1)
                 (String.length rest - (String.length warning + 1)) rest)
            = None) as Hr.
    { rewrite E, Hx, <- !str_app_assoc in H.
      by apply index_suffix_none in H. }
    unfold cut. by rewrite Hr.
  - change (String.substring 1 (String.length OVERLAY_START - 1)
              OVERLAY_START) with "_OVERLAY_START__".
    rewrite IH.
    + by rewrite E.
    + rewrite E in H.
      change OVERLAY_START with ("_" +:+ "_OVERLAY_START__") in H.
      rewrite (str_app_assoc "_"), <- (str_app_assoc before) in H.
      by apply index_suffix_none in H.
Qed.

(** X1. Unmatched markers are left as literal text: a text without the end
    sentinel of a marker type is returned unchanged by that type's handler,
    whatever start sentinels it contains; a text without any of the three
    end sentinels is returned unchanged by [processMarkedText]. *)
Theorem unmatched_markers_stay_literal (text : string) :
  (includes text BLUR_END = false -> processBlurMarkers text = text)
  /\ (includes text OVERLAY_END = false -> processOverlayMarkers text = text)
  /\ (includes text REWRITE_END = false -> processRewriteMarkers text = text)
  /\ (includes text BLUR_END = false -> includes text OVERLAY_END = false ->
      includes text REWRITE_END = false -> processMarkedText text = text).
Proof.
  assert (includes text BLUR_END = false -> processBlurMarkers text = text)
    as Hb.
  { intros H%includes_false. unfold processBlurMarkers.
    destruct (negb _); [done|]. by apply replace_delimited_no_end. }
  assert (includes text OVERLAY_END = false ->
          processOverlayMarkers text = text) as Ho.
  { intros H%includes_false. unfold processOverlayMarkers.
    destruct (negb _); [done|]. by apply replace_overlay_no_end. }
  assert (includes text REWRITE_END = false ->
          processRewriteMarkers text = text) as Hr.
  { intros H%includes_false. unfold processRewriteMarkers.
    destruct (negb _); [done|]. by apply replace_delimited_no_end. }
  repeat split; try done.
  intros H1 H2 H3. unfold processMarkedText.
  destruct text as [|c text]; [done|].
  change (nonempty (String c text)) with true. cbn [negb].
  destruct (negb (hasAnyMarkers _)); [done|].
  cbn [foldl markerHandlers detect process].
  destruct (includes _ BLUR_START); rewrite ?Hb by done;
    (destruct (includes _ OVERLAY_START); rewrite ?Ho by done);
    (destruct (includes _ REWRITE_START); by rewrite ?Hr by done).
Qed.

Lemma unmatched_markers_stay_literal_witness :
  processBlurMarkers "a __BLUR_START__ b" = "a __BLUR_START__ b"
  /\ processOverlayMarkers "__OVERLAY_START__w|c" = "__OVERLAY_START__w|c"
  /\ processRewriteMarkers "__REWRITE_START__x" = "__REWRITE_START__x"
  /\ processMarkedText "__BLUR_START__x__OVERLAY_START__y"
     = "__BLUR_START__x__OVERLAY_START__y".
Proof.
  split; [|split; [|split]].
  - apply (proj1 (unmatched_markers_stay_literal "a __BLUR_START__ b")).
    reflexivity.
  - apply (proj1 (proj2 (unmatched_markers_stay_literal
                           "__OVERLAY_START__w|c"))).
    reflexivity.
  - apply (proj1 (proj2 (proj2 (unmatched_markers_stay_literal
                                  "__REWRITE_START__x")))).
    reflexivity.
  - apply (proj2 (proj2 (proj2 (unmatched_markers_stay_literal
                                  "__BLUR_START__x__OVERLAY_START__y"))));
      reflexivity.
Defined.


(** ** Well-formed regions *)

Lemma nonempty_app_cons a c s t :
  nonempty (a +:+ String c s +:+ t) = true.
Proof. by destruct a. Qed.

Lemma length_app_cons a c s t :
  String.length (a +:+ String c s +:+ t)
  = S (String.length a + String.length (s +:+ t)).
Proof. rewrite str_length_app, str_app_cons. simpl. lia. Qed.

Lemma includes_at ch p w t :
  lacks [ch] w = true -> includes (w +:+ String ch p +:+ t) (String ch p) = true.
Proof. intros Hw. unfold includes. by rewrite index_skip, index_here. Qed.

(** X2. A blur region is decoded: in a text whose only underscores are those
    of one [__BLUR_START__ ... __BLUR_END__] pair, [processMarkedText]
    replaces the pair and its content by the blur span around the content and
    keeps the text before and behind it. *)
Theorem blur_region_is_wrapped (a c b : string) :
  lacks ["_"%char] a = true -> lacks ["_"%char] c = true ->
  lacks ["_"%char] b = true ->
  processMarkedText (a +:+ BLUR_START +:+ c +:+ BLUR_END +:+ b)
  = a +:+ "<span class=" +:+ dq +:+ "diymod-blur" +:+ dq +:+ ">" +:+ c
      +:+ "</span>" +:+ b.
Proof.
  intros Ha Hc Hb. unfold processMarkedText, hasAnyMarkers.
  cbn [existsb markerHandlers detect foldl process].
  unfold processBlurMarkers, BLUR_START, BLUR_END.
  rewrite nonempty_app_cons, !includes_at by done. cbn [negb orb].
  rewrite length_app_cons, replace_delimited_region by done.
  set (out := a +:+ _).
  assert (lacks ["_"%char] out = true) as Hout.
  { unfold out. rewrite !lacks_app, Ha, Hc, Hb. reflexivity. }
  unfold OVERLAY_START, REWRITE_START.
  rewrite !(includes_lacks "_" _ out) by done.
  unfold out, CSS_BLUR. by rewrite !str_app_assoc.
Qed.

Lemma blur_region_is_wrapped_witness :
  processMarkedText ("see " +:+ BLUR_START +:+ "this" +:+ BLUR_END +:+ " now")
  = "see " +:+ "<span class=" +:+ dq +:+ "diymod-blur" +:+ dq +:+ ">"
      +:+ "this" +:+ "</span>" +:+ " now".
Proof. apply (blur_region_is_wrapped "see " "this" " now"); reflexivity. Defined.


(** A pattern that contains [ch] is no prefix of a stretch that lacks [ch]
    and is followed by the end of the text or by a character foreign to the
    pattern. *)
Lemma prefix_lacks ch : forall s q t0,
  lacks [ch] s = true ->
  lacks [ch] q = false ->
  match t0 with
  | EmptyString => True
  | String d _ => lacks [d] q = true
  end ->
  String.prefix q (s +:+ t0) = false.
Proof.
  induction s as [|x s IH]; intros q t0 Hs Hq Ht.
  - rewrite str_app_nil_l. destruct q as [|y q]; [done|].
    destruct t0 as [|d t]; [done|].
    apply lacks_head in Ht as [Hy _]. by apply prefix_head_ne.
  - destruct q as [|y q]; [done|]. rewrite str_app_cons. simpl.
    destruct (ascii_dec y x) as [->|]; [|done].
    apply lacks_head in Hs as [Hx Hs]. apply IH; [done| |].
    + simpl in Hq. rewrite orb_false_r in Hq.
      destruct (Ascii.eqb x ch) eqn:E; [by apply Ascii.eqb_eq in E|done].
    + destruct t0 as [|d t]; [done|]. by apply lacks_head in Ht as [_ Ht].
Qed.

Lemma prefix_lacks_end ch s q :
  lacks [ch] s = true -> lacks [ch] q = false -> String.prefix q s = false.
Proof.
  intros Hs Hq. rewrite <- (str_app_nil_r s). by apply (prefix_lacks ch).
Qed.

Ltac index_step :=
  rewrite index0_cons;
  match goal with
  | |- context [String.prefix ?p ?s] =>
      let H := fresh in
      assert (String.prefix p s = false) as H
        by (first [ reflexivity
                  | simpl; first [ done | by eapply prefix_lacks
                                 | by eapply prefix_lacks_end ] ]);
      rewrite H; clear H
  end.

Lemma lacks_rev_app cs : forall s t,
  lacks cs (String.rev_app s t) = lacks cs s && lacks cs t.
Proof.
  induction s as [|c s IH]; intros t; [done|]. simpl. rewrite IH. simpl.
  destruct (negb _), (lacks cs s); simpl; try done.
Qed.

Lemma lacks_rev cs s : lacks cs (String.rev s) = lacks cs s.
Proof. unfold String.rev. rewrite lacks_rev_app. apply andb_true_r. Qed.

Lemma lacks_tail cs c s : lacks cs (String c s) = true -> lacks cs s = true.
Proof. simpl. by intros [_ H]%andb_prop. Qed.

Lemma lacks_trim_left cs : forall n s,
  String.length s <= n ->
  lacks cs s = true -> lacks cs (trim_left s) = true.
Proof.
  induction n as [|n IH]; intros s Hl H; destruct s as [|c1 s1]; try done.
  { simpl in Hl. lia. }
  simpl in Hl. cbn [trim_left].
  pose proof (lacks_tail _ _ _ H) as H1.
  destruct (is_space c1); [apply IH; [lia|done]|].
  destruct s1 as [|c2 s2]; [done|].
  simpl in Hl. pose proof (lacks_tail _ _ _ H1) as H2.
  destruct (is_space2 c1 c2); [apply IH; [lia|done]|].
  destruct s2 as [|c3 s3]; [done|].
  simpl in Hl. pose proof (lacks_tail _ _ _ H2) as H3.
  destruct (is_space3 c1 c2 c3); [apply IH; [lia|done]|done].
Qed.

Lemma lacks_trim_left_reversed cs : forall n s,
  String.length s <= n ->
  lacks cs s = true -> lacks cs (trim_left_reversed s) = true.
Proof.
  induction n as [|n IH]; intros s Hl H; destruct s as [|c1 s1]; try done.
  { simpl in Hl. lia. }
  simpl in Hl. cbn [trim_left_reversed].
  pose proof (lacks_tail _ _ _ H) as H1.
  destruct (is_space c1); [apply IH; [lia|done]|].
  destruct s1 as [|c2 s2]; [done|].
  simpl in Hl. pose proof (lacks_tail _ _ _ H1) as H2.
  destruct (is_space2 c2 c1); [apply IH; [lia|done]|].
  destruct s2 as [|c3 s3]; [done|].
  simpl in Hl. pose proof (lacks_tail _ _ _ H2) as H3.
  destruct (is_space3 c3 c2 c1); [apply IH; [lia|done]|done].
Qed.

Lemma lacks_trim cs s : lacks cs s = true -> lacks cs (trim s) = true.
Proof.
  intros H. unfold trim.
  rewrite lacks_rev. apply (lacks_trim_left_reversed cs _ _ (le_n _)).
  rewrite lacks_rev. by apply (lacks_trim_left cs _ _ (le_n _)).
Qed.

Lemma lacks_overlay_html w c :
  lacks ["_"%char] w = true -> lacks ["_"%char] c = true ->
  lacks ["_"%char] (overlay_html w c) = true.
Proof.
  intros Hw Hc. unfold overlay_html.
  assert (lacks ["_"%char]
            (if nonempty (trim w) then trim w else "Content filtered") = true)
    as Ht.
  { destruct (nonempty (trim w)); [by apply lacks_trim|done]. }
  by rewrite !lacks_app, Ht, Hc.
Qed.

(** The bytes that start a line terminator. *)
Definition line_break_bytes : list ascii := ["010"; "013"; "226"]%char.

Lemma first_line_skip w t :
  lacks line_break_bytes w = true ->
  first_line (w +:+ String "|" t) = w +:+ String "|" (first_line t).
Proof.
  induction w as [|x w IH]; intros Hw; [done|].
  rewrite str_app_cons. cbn [first_line].
  assert (at_line_terminator (String x (w +:+ String "|" t)) = false) as ->.
  { unfold at_line_terminator, nl, LS, PS.
    rewrite !prefix_head_ne; [done|..];
      intros ->; by vm_compute in Hw. }
  rewrite IH; [done|]. simpl in Hw. by apply andb_prop in Hw as [_ Hw].
Qed.

Lemma replace_overlay_lacks fuel text :
  lacks ["_"%char] text = true -> replace_overlay fuel text = text.
Proof.
  intros H. destruct fuel; [done|]. cbn [replace_overlay].
  unfold OVERLAY_START. by rewrite cut_lacks.
Qed.

Lemma blur_start_not_in_overlay a w c b :
  lacks ["_"%char] a = true -> lacks ["_"%char] w = true ->
  lacks ["_"%char] c = true -> lacks ["_"%char] b = true ->
  includes (a +:+ OVERLAY_START +:+ w +:+ "|" +:+ c +:+ OVERLAY_END +:+ b)
    BLUR_START = false.
Proof.
  intros Ha Hw Hc Hb. unfold includes, OVERLAY_START, OVERLAY_END, BLUR_START.
  rewrite index_skip by done.
  rewrite !str_app_cons, !str_app_nil_l.
  do 17 index_step.
  rewrite index_skip by done.
  index_step.
  rewrite index_skip by done.
  do 15 index_step.
  by rewrite index_lacks.
Qed.

(** X3. An overlay region is decoded: in a text whose only underscores are
    those of one [__OVERLAY_START__warning|content__OVERLAY_END__] region,
    where the warning has no bar, no line feed, no carriage return and no
    byte 226 (the first byte of U+2028 and U+2029), [processMarkedText]
    replaces the region by the click-to-reveal block built from the warning
    and the content, and keeps the text before and behind it.  The block
    shows the warning trimmed of white space, or [Content filtered] when
    nothing is left of it. *)
Theorem overlay_region_is_wrapped (a w c b : string) :
  lacks ["_"%char] a = true ->
  lacks ("_" :: "|" :: line_break_bytes)%char w = true ->
  lacks ["_"%char] c = true -> lacks ["_"%char] b = true ->
  processMarkedText
    (a +:+ OVERLAY_START +:+ w +:+ "|" +:+ c +:+ OVERLAY_END +:+ b)
  = a +:+ overlay_html w c +:+ b.
Proof.
  intros Ha Hw Hc Hb.
  assert (lacks ["_"%char] w = true) as Hw1
    by (refine (lacks_weaken _ _ _ _ Hw); reflexivity).
  assert (lacks ["|"%char] w = true) as Hw2
    by (refine (lacks_weaken _ _ _ _ Hw); reflexivity).
  assert (lacks line_break_bytes w = true) as Hw3.
  { clear -Hw. induction w as [|x w IH]; [done|]. simpl in *.
    apply andb_prop in Hw as [Hx Hw]. rewrite IH by done.
    rewrite !negb_orb in *. repeat (apply andb_prop in Hx as [? Hx]).
    by repeat (apply andb_true_intro; split). }
  unfold processMarkedText, hasAnyMarkers.
  cbn [existsb markerHandlers detect foldl process].
  rewrite blur_start_not_in_overlay by done.
  unfold processOverlayMarkers.
  unfold OVERLAY_START.
  rewrite nonempty_app_cons, !includes_at by done. cbn [negb orb].
  rewrite length_app_cons. cbn [replace_overlay].
  unfold OVERLAY_START. rewrite cut_at by done.
  change ("|" +:+ c +:+ OVERLAY_END +:+ b)
    with (String "|" (c +:+ OVERLAY_END +:+ b)).
  rewrite first_line_skip by done.
  change (String "|" (first_line (c +:+ OVERLAY_END +:+ b)))
    with ("|" +:+ first_line (c +:+ OVERLAY_END +:+ b)).
  rewrite cut_at by done.
  rewrite substring_app_r. cbn [String.substring].
  rewrite str_length_app. cbn [String.length].
  replace (String.length w + S (String.length (c +:+ OVERLAY_END +:+ b))
           - (String.length w + 1))
    with (String.length (c +:+ OVERLAY_END +:+ b)) by lia.
  rewrite substring_all.
  unfold OVERLAY_END. rewrite !cut_at by done.
  rewrite replace_overlay_lacks by done.
  assert (lacks ["_"%char] (a +:+ overlay_html w c +:+ b) = true) as Hout.
  { by rewrite !lacks_app, Ha, Hb, lacks_overlay_html. }
  unfold REWRITE_START. by rewrite includes_lacks.
Qed.

Lemma overlay_region_is_wrapped_witness :
  processMarkedText
    ("a " +:+ OVERLAY_START +:+ "Spoiler" +:+ "|" +:+ "the end"
          +:+ OVERLAY_END +:+ " z")
  = "a " +:+ overlay_html "Spoiler" "the end" +:+ " z".
Proof.
  apply (overlay_region_is_wrapped "a " "Spoiler" "the end" " z");
    reflexivity.
Defined.

(** A warning of white space only, here a no-break space and a space, is
    replaced by the default text. *)
Example blank_warning_gets_default :
  let nbsp := String "194"%char (String "160"%char EmptyString) in
  trim (nbsp +:+ " warn " +:+ nbsp) = "warn"
  /\ trim (nbsp +:+ " ") = EmptyString
  /\ overlay_html (nbsp +:+ " ") "x" = overlay_html "Content filtered" "x".
Proof. vm_compute. done. Qed.


(** A pattern that is a prefix of [s +:+ t] ends inside [s] or runs on into
    [t]. *)
Lemma prefix_straddle : forall s q t,
  String.prefix q (s +:+ t) = true ->
  (exists r, s = q +:+ r)
  \/ (exists q2, q = s +:+ q2 /\ String.prefix q2 t = true).
Proof.
  induction s as [|x s IH]; intros q t H.
  - right. by exists q.
  - destruct q as [|y q]; [left; by exists (String x s)|].
    rewrite str_app_cons in H. simpl in H.
    destruct (ascii_dec y x) as [->|]; [|done].
    apply IH in H as [[r ->]|(q2 & -> & H)].
    + left. by exists r.
    + right. by exists q2.
Qed.

Ltac straddle Hc :=
  match goal with
  | |- String.prefix ?q (?c +:+ ?t) = false =>
      let E := fresh "E" in
      let Hq := fresh "Hq" in
      let Hp := fresh "Hp" in
      destruct (String.prefix q (c +:+ t)) eqn:E; [|reflexivity];
      apply prefix_straddle in E as [[r Hq]|(q2 & Hq & Hp)];
      [ rewrite Hq, lacks_app in Hc; by vm_compute in Hc
      | repeat (destruct c as [|? c];
                [ rewrite str_app_nil_l in Hq; subst q2; by vm_compute in Hp
                | rewrite str_app_cons in Hq; injection Hq as <- Hq;
                  apply lacks_head in Hc as [? Hc]; try done ]) ]
  end.

Lemma foreign_start_not_in_rewrite a c b :
  lacks ["_"%char] a = true -> lacks ["_"%char] c = true ->
  lacks ["_"%char] b = true ->
  includes (a +:+ REWRITE_START +:+ c +:+ REWRITE_END +:+ b) BLUR_START
  = false
  /\ includes (a +:+ REWRITE_START +:+ c +:+ REWRITE_END +:+ b)
       OVERLAY_START = false.
Proof.
  intros Ha Hc Hb.
  unfold includes, REWRITE_START, REWRITE_END, BLUR_START, OVERLAY_START.
  assert (String.prefix "BLUR_START__" (c +:+ "__REWRITE_END__" +:+ b)
          = false) as P1 by (clear Ha Hb; straddle Hc).
  assert (String.prefix "_BLUR_START__" (c +:+ "__REWRITE_END__" +:+ b)
          = false) as P2 by (clear Ha Hb; straddle Hc).
  assert (String.prefix "OVERLAY_START__" (c +:+ "__REWRITE_END__" +:+ b)
          = false) as P3 by (clear Ha Hb; straddle Hc).
  assert (String.prefix "_OVERLAY_START__" (c +:+ "__REWRITE_END__" +:+ b)
          = false) as P4 by (clear Ha Hb; straddle Hc).
  set (tl := c +:+ "__REWRITE_END__" +:+ b) in *.
  split; rewrite index_skip by done; rewrite !str_app_cons, str_app_nil_l;
    do 15 index_step.
  - rewrite index0_cons. simpl String.prefix. rewrite P1.
    rewrite index0_cons. simpl String.prefix. rewrite P2.
    unfold tl. rewrite index_skip by done. rewrite !str_app_cons, !str_app_nil_l.
    do 15 index_step. by rewrite index_lacks.
  - rewrite index0_cons. simpl String.prefix. rewrite P3.
    rewrite index0_cons. simpl String.prefix. rewrite P4.
    unfold tl. rewrite index_skip by done. rewrite !str_app_cons, !str_app_nil_l.
    do 15 index_step. by rewrite index_lacks.
Qed.

Definition rewritten_html (content : string) : string :=
  "<div class=" +:+ dq +:+ "diymod-rewritten" +:+ dq +:+ ">" +:+ nl
  +:+ "      " +:+ content +:+ nl
  +:+ "      <div class=" +:+ dq +:+ "modification-indicator" +:+ dq
  +:+ ">Modified by DIY-MOD</div>" +:+ nl
  +:+ "    </div>".

(** X4. A rewrite region is decoded: in a text whose only underscores are
    those of one [__REWRITE_START__ ... __REWRITE_END__] pair,
    [processMarkedText] replaces the pair and its content by the rewritten
    block with its modification indicator, and keeps the text before and
    behind it. *)
Theorem rewrite_region_is_wrapped (a c b : string) :
  lacks ["_"%char] a = true -> lacks ["_"%char] c = true ->
  lacks ["_"%char] b = true ->
  processMarkedText (a +:+ REWRITE_START +:+ c +:+ REWRITE_END +:+ b)
  = a +:+ rewritten_html c +:+ b.
Proof.
  intros Ha Hc Hb.
  destruct (foreign_start_not_in_rewrite a c b Ha Hc Hb) as [H1 H2].
  unfold processMarkedText, hasAnyMarkers.
  cbn [existsb markerHandlers detect foldl process].
  rewrite H1, H2.
  unfold processRewriteMarkers, REWRITE_START, REWRITE_END.
  rewrite nonempty_app_cons, !includes_at by done. cbn [negb orb].
  rewrite length_app_cons, replace_delimited_region by done.
  reflexivity.
Qed.

Lemma rewrite_region_is_wrapped_witness :
  processMarkedText
    ("a " +:+ REWRITE_START +:+ "kinder words" +:+ REWRITE_END +:+ " z")
  = "a " +:+ rewritten_html "kinder words" +:+ " z".
Proof.
  apply (rewrite_region_is_wrapped "a " "kinder words" " z"); reflexivity.
Defined.

End TextFacts.

Module UrlFacts.
Import Str Intercept FetchFacts TextFacts.

Lemma split_not_nil sep s : split sep s <> [].
Proof.
  induction s as [|c s IH]; [done|]. simpl.
  destruct (Ascii.eqb c sep); [done|]. by destruct (split sep s).
Qed.

Lemma split_lacks sep s : lacks [sep] s = true -> split sep s = [s].
Proof.
  induction s as [|c s IH]; [done|]. intros [Hc Hs]%lacks_head. simpl.
  destruct (Ascii.eqb c sep) eqn:E; [by apply Ascii.eqb_eq in E|].
  by rewrite IH.
Qed.

Lemma split_app sep q t :
  split sep (q +:+ String sep t) = (split sep q ++ split sep t)%list.
Proof.
  induction q as [|c q IH].
  - rewrite str_app_nil_l. simpl. by rewrite Ascii.eqb_refl.
  - rewrite str_app_cons. simpl. destruct (Ascii.eqb c sep); [by rewrite IH|].
    rewrite IH. pose proof (split_not_nil sep q).
    by destruct (split sep q).
Qed.

(** [pathname.split('?')[0]] *)
Definition path_part (p : string) : string :=
  default EmptyString (head (split "?" p)).

Lemma path_part_cons c p :
  path_part (String c p)
  = if Ascii.eqb c "?" then EmptyString else String c (path_part p).
Proof.
  unfold path_part. simpl. destruct (Ascii.eqb c "?"); [done|].
  pose proof (split_not_nil "?" p). by destruct (split "?" p).
Qed.

Lemma path_part_slash p :
  path_part (p +:+ "/") = path_part p
  \/ path_part (p +:+ "/") = path_part p +:+ "/".
Proof.
  induction p as [|c p IH]; [by right|].
  rewrite str_app_cons, !path_part_cons.
  destruct (Ascii.eqb c "?"); [by left|].
  destruct IH as [->| ->]; [by left|by right].
Qed.

Lemma last_segment_snoc l seg :
  seg <> EmptyString ->
  last (filter (fun s => Is_true (nonempty s)) (l ++ [seg])%list) = Some seg.
Proof.
  intros Hseg. rewrite filter_app, filter_cons_True, filter_nil.
  - apply last_snoc.
  - unfold nonempty. destruct seg; [done|]. done.
Qed.

Lemma last_segment_snoc_empty l :
  last (filter (fun s => Is_true (nonempty s)) (l ++ [EmptyString])%list)
  = last (filter (fun s => Is_true (nonempty s)) l).
Proof.
  rewrite filter_app, filter_cons_False, filter_nil, app_nil_r; [done|].
  by intros [].
Qed.

(** X5. Interception is decided by the last non-empty path segment alone:
    for a path [q/seg] the URL is intercepted exactly when [seg] is one of
    the subscribed endpoints, whatever [q] is; and a trailing slash does not
    change the decision. *)
Theorem last_path_segment_decides
    (URL_parse : string -> option URL) (endpoints : list string) :
  (forall url q seg,
     URL_parse url = Some {| pathname := q +:+ "/" +:+ seg |} ->
     lacks ["?"%char] q = true -> lacks ["/"; "?"]%char seg = true ->
     seg <> EmptyString ->
     shouldInterceptUrl URL_parse url endpoints
     = existsb (String.eqb seg) endpoints)
  /\ (forall url url' p,
        URL_parse url = Some {| pathname := p |} ->
        URL_parse url' = Some {| pathname := p +:+ "/" |} ->
        shouldInterceptUrl URL_parse url' endpoints
        = shouldInterceptUrl URL_parse url endpoints).
Proof.
  split.
  - intros url q seg Hu Hq Hseg Hne. unfold shouldInterceptUrl.
    rewrite Hu. unfold actionName. cbn [pathname].
    assert (lacks ["?"%char] seg = true) as Hs1
      by (refine (lacks_weaken _ _ _ _ Hseg); reflexivity).
    assert (lacks ["/"%char] seg = true) as Hs2
      by (refine (lacks_weaken _ _ _ _ Hseg); reflexivity).
    rewrite (split_lacks "?") by (by rewrite !lacks_app, Hq, Hs1).
    cbn.
    change ("/" +:+ seg) with (String "/" seg).
    rewrite split_app, (split_lacks "/" seg) by done.
    by rewrite last_segment_snoc.
  - intros url url' p Hu Hu'. unfold shouldInterceptUrl.
    rewrite Hu, Hu'. unfold actionName. cbn [pathname].
    fold (path_part (p +:+ "/")). fold (path_part p).
    destruct (path_part_slash p) as [->| ->]; [done|].
    change "/" with (String "/" EmptyString).
    rewrite split_app. change (split "/" EmptyString) with [EmptyString].
    by rewrite last_segment_snoc_empty.
Qed.

Lemma last_path_segment_decides_witness :
  shouldInterceptUrl sample_URL_parse "https://www.reddit.com/r/pics/top"
    ["hot"; "top"]
  = existsb (String.eqb "top") ["hot"; "top"]
  /\ shouldInterceptUrl sample_URL_parse "https://www.reddit.com/svc/home/"
       ["home"]
     = shouldInterceptUrl sample_URL_parse "https://www.reddit.com/svc/home"
         ["home"].
Proof.
  split.
  - apply (proj1 (last_path_segment_decides sample_URL_parse ["hot"; "top"])
             "https://www.reddit.com/r/pics/top" "/r/pics" "top");
      [reflexivity|reflexivity|reflexivity|discriminate].
  - apply (proj2 (last_path_segment_decides sample_URL_parse ["home"])
             "https://www.reddit.com/svc/home"
             "https://www.reddit.com/svc/home/" "/svc/home");
      reflexivity.
Defined.

End UrlFacts.

Module WaitFacts.
Import Intercept FetchFacts.
Import JS(timer, Armed, Cleared, Fired).

(** What holds of the wait built by the fetch wrapper throughout its life:
    the listener is registered exactly while the timeout is armed, and
    [resolve] has not been called while it is. *)
Definition waiting_inv (w : waiting) : Prop :=
  (listening w = true -> timeoutId w = Armed /\ resolved w = [])
  /\ (timeoutId w = Armed -> listening w = true)
  /\ length (resolved w) <= 1.

Lemma waiting_inv_step w e : waiting_inv w -> waiting_inv (wait_step w e).
Proof.
  intros H. pose proof H as (H1 & H2 & H3).
  destruct e as [|id processed]; simpl.
  - destruct (timeoutId w) eqn:E; [|done|done].
    destruct (H1 (H2 eq_refl)) as [_ Hr].
    repeat split; simpl; try done. rewrite Hr. simpl. lia.
  - destruct (listening w && String.eqb id (requestId w)) eqn:E; [|done].
    apply andb_prop in E as [El _]. destruct (H1 El) as [Ht Hr].
    repeat split; simpl; try done.
    + by rewrite Ht.
    + rewrite Hr. destruct (new_Response _ _); simpl; lia.
Qed.

Lemma waiting_inv_run es : forall w,
  waiting_inv w -> waiting_inv (wait_run w es).
Proof.
  induction es as [|e es IH]; intros w H; [done|].
  apply IH. by apply waiting_inv_step.
Qed.

Lemma wrapper_wait URL_parse endpoints counter originalFetch now url w :
  outcome (fetch_wrapper URL_parse endpoints counter originalFetch now url)
    = Wait w ->
  exists resp body,
    originalFetch 0 = Resolved resp /\ ok resp = true
    /\ text resp = Some body
    /\ w = {| requestId := pretty counter; response := resp;
              cloneForPage := resp; timeoutId := Armed; listening := true;
              resolved := [] |}.
Proof.
  unfold fetch_wrapper.
  destruct (negb (shouldInterceptUrl _ _ _)); [done|].
  destruct (originalFetch 0) as [resp|]; [|done].
  destruct (ok resp) eqn:Eok; [|done]. simpl.
  destruct (URL_parse url); [|done].
  destruct (text resp) as [body|] eqn:Et; [|done].
  simpl. intros [= <-]. by exists resp, body.
Qed.

(** The wait the wrapper starts with satisfies the invariant. *)
Lemma wrapper_wait_inv URL_parse endpoints counter originalFetch now url w :
  outcome (fetch_wrapper URL_parse endpoints counter originalFetch now url)
    = Wait w ->
  waiting_inv w.
Proof.
  intros (resp & body & _ & _ & _ & ->)%wrapper_wait.
  repeat split; simpl; try done. lia.
Qed.

(** Once [resolve] has been called, no event changes the wait. *)
Lemma resolved_stable w :
  waiting_inv w -> resolved w <> [] ->
  forall later, wait_run w later = w.
Proof.
  intros (H1 & H2 & H3) Hr later.
  induction later as [|e later IH]; [done|]. simpl.
  replace (wait_step w e) with w; [done|].
  destruct e as [|id processed]; simpl.
  - destruct (timeoutId w) eqn:E; [|done|done].
    by destruct (H1 (H2 eq_refl)).
  - destruct (listening w) eqn:E; [|done].
    by destruct (H1 eq_refl).
Qed.

(** X6. The promise the fetch wrapper hands to the page is resolved at most
    once, whatever events arrive and in whatever order; once it is resolved
    no later timeout or feed event changes anything. *)
Theorem fetch_promise_resolved_at_most_once
    (URL_parse : string -> option URL) (endpoints : list string)
    (counter : nat) (originalFetch : nat -> fetch_result) (now url : string)
    (w : waiting) (es : list wait_event) :
  outcome (fetch_wrapper URL_parse endpoints counter originalFetch now url)
    = Wait w ->
  length (resolved (wait_run w es)) <= 1
  /\ (resolved (wait_run w es) <> [] ->
      forall later, wait_run (wait_run w es) later = wait_run w es).
Proof.
  intros Hw.
  pose proof (waiting_inv_run es w (wrapper_wait_inv _ _ _ _ _ _ _ Hw))
    as Hinv.
  split; [apply Hinv|]. intros Hr later. by apply resolved_stable.
Qed.

Lemma fetch_promise_resolved_at_most_once_witness :
  let w := {| requestId := "7"; response := feed_ok; cloneForPage := feed_ok;
              timeoutId := Armed; listening := true; resolved := [] |} in
  let es := [CustomFeedReady "7" "new"; TimeoutFires;
             CustomFeedReady "7" "again"] in
  length (resolved (wait_run w es)) <= 1
  /\ (resolved (wait_run w es) <> [] ->
      forall later, wait_run (wait_run w es) later = wait_run w es).
Proof.
  apply (fetch_promise_resolved_at_most_once sample_URL_parse ["home"] 7
           (fun _ => Resolved feed_ok) "2025-01-01T00:00:00.000Z"
           "https://www.reddit.com/svc/home").
  reflexivity.
Defined.

Definition timer_quiet (es : list wait_event) : Prop := TimeoutFires ∉ es.

Lemma quiet_prefix w es :
  timeoutId w = Armed -> listening w = true ->
  uncorrelated (requestId w) es -> timer_quiet es ->
  wait_run w es = w.
Proof.
  intros Ht Hl. induction es as [|e es IH]; intros Hu Hq; [done|].
  simpl. replace (wait_step w e) with w.
  - apply IH.
    + intros id' p Hin. apply (Hu id' p). by right.
    + intros Hin. apply Hq. by right.
  - destruct e as [|id processed]; simpl.
    + exfalso. apply Hq. by left.
    + rewrite Hl. simpl.
      destruct (String.eqb id (requestId w)) eqn:E; [|done].
      apply String.eqb_eq in E. exfalso. apply (Hu id processed); [by left|done].
Qed.

(** X7. Delivery of the processed feed, for an original response whose
    status allows a body: when the first event that concerns the waiting
    request is its own [CustomFeedReady], the page's promise resolves with
    a response whose body is the processed text and whose status and
    status text are those of the original response; its headers
    are the original's when they name a [Content-Type], and the original's
    followed by [content-type: text/plain;charset=UTF-8] when they do not.
    Later timeouts and events do not change it. *)
Theorem fetch_processed_response_delivered
    (URL_parse : string -> option URL) (endpoints : list string)
    (counter : nat) (originalFetch : nat -> fetch_result) (now url : string)
    (w : waiting) (processed : string) (before after : list wait_event) :
  outcome (fetch_wrapper URL_parse endpoints counter originalFetch now url)
    = Wait w ->
  uncorrelated (requestId w) before -> timer_quiet before ->
  null_body_status (status (response w)) = false ->
  let final :=
    wait_run w (before ++ CustomFeedReady (requestId w) processed :: after) in
  exists resp delivered,
    originalFetch 0 = Resolved resp
    /\ settled_value final = Some delivered
    /\ text delivered = Some processed
    /\ status delivered = status resp
    /\ statusText delivered = statusText resp
    /\ ok delivered = ((200 <=? status resp)%nat && (status resp <=? 299)%nat)
    /\ headers delivered
       = (if has_header "content-type" (headers resp) then headers resp
          else headers resp
               ++ [("content-type", "text/plain;charset=UTF-8")])%list
    /\ length (resolved final) = 1
    /\ timeoutId final = Cleared.
Proof.
  intros Hw Hu Hq Hs final.
  pose proof Hw as (resp & body & Hf & _ & _ & Ew)%wrapper_wait.
  set (r := {| ok := (200 <=? status resp)%nat && (status resp <=? 299)%nat;
               status := status resp; statusText := statusText resp;
               headers := response_headers (headers resp);
               text := Some processed |}).
  exists resp, r. split; [done|].
  assert (wait_run w (before ++ [CustomFeedReady (requestId w) processed])
          = {| requestId := requestId w; response := resp;
               cloneForPage := resp; timeoutId := Cleared;
               listening := false; resolved := [r] |})
    as Hmid.
  { rewrite wait_run_app, (quiet_prefix w before);
      [|by rewrite Ew..|done|done].
    rewrite Ew in Hs |- *. simpl in Hs |- *.
    rewrite String.eqb_refl. unfold new_Response. simpl. by rewrite Hs. }
  assert (final
          = wait_run w (before ++ [CustomFeedReady (requestId w) processed]))
    as ->.
  { unfold final.
    replace (before ++ CustomFeedReady (requestId w) processed :: after)%list
      with ((before ++ [CustomFeedReady (requestId w) processed]) ++ after)%list
      by (by rewrite <- app_assoc).
    rewrite wait_run_app. apply resolved_stable.
    - apply waiting_inv_run. by eapply wrapper_wait_inv.
    - by rewrite Hmid. }
  rewrite Hmid. by repeat split.
Qed.

Lemma fetch_processed_response_delivered_witness :
  let w := {| requestId := "7"; response := feed_ok; cloneForPage := feed_ok;
              timeoutId := Armed; listening := true; resolved := [] |} in
  let final := wait_run w ([CustomFeedReady "6" "other"]
                           ++ CustomFeedReady "7" "new" :: [TimeoutFires]) in
  exists resp delivered,
    Resolved feed_ok = Resolved resp
    /\ settled_value final = Some delivered
    /\ text delivered = Some "new"
    /\ status delivered = status resp
    /\ statusText delivered = statusText resp
    /\ ok delivered = ((200 <=? status resp)%nat && (status resp <=? 299)%nat)
    /\ headers delivered
       = (if has_header "content-type" (headers resp) then headers resp
          else headers resp
               ++ [("content-type", "text/plain;charset=UTF-8")])%list
    /\ length (resolved final) = 1
    /\ timeoutId final = Cleared.
Proof.
  apply (fetch_processed_response_delivered sample_URL_parse ["home"] 7
           (fun _ => Resolved feed_ok) "2025-01-01T00:00:00.000Z"
           "https://www.reddit.com/svc/home"
           {| requestId := "7"; response := feed_ok; cloneForPage := feed_ok;
              timeoutId := Armed; listening := true; resolved := [] |}
           "new" [CustomFeedReady "6" "other"] [TimeoutFires]).
  - reflexivity.
  - intros id' p [= -> _]%list_elem_of_singleton. discriminate.
  - intros [=]%list_elem_of_singleton.
  - reflexivity.
Defined.

(** A response that names its content type keeps its headers as they are;
    one that names none gets the type of a string body. *)
Example delivered_headers :
  response_headers [("Content-Type", "application/json")]
  = [("Content-Type", "application/json")]
  /\ response_headers [("etag", "x")]
     = [("etag", "x"); ("content-type", "text/plain;charset=UTF-8")].
Proof. split; reflexivity. Qed.

End WaitFacts.

Module CorrelationFacts.
Import Intercept FetchFacts XhrFacts WaitFacts.
Import JS(timer, Armed, Cleared, Fired).

Lemma counter_grows URL_parse endpoints counter originalFetch now url :
  let call := fetch_wrapper URL_parse endpoints counter originalFetch now url in
  counter_after call = counter + length (dispatched call).
Proof.
  unfold fetch_wrapper.
  destruct (negb (shouldInterceptUrl _ _ _)); [simpl; lia|].
  destruct (originalFetch 0) as [resp|]; [|simpl; lia].
  destruct (negb (ok resp)); [simpl; lia|].
  destruct (URL_parse url); [|simpl; lia].
  destruct (text resp); simpl; lia.
Qed.

(** X8. Request ids of the fetch interceptor do not collide: the counter
    only grows, by one per SaveBatch event; two waits created from
    different counter values carry different ids, so the feed event of one
    never touches the other. *)
Theorem fetch_request_ids_distinct
    (URL_parse : string -> option URL) (endpoints : list string)
    (n1 n2 : nat) (f1 f2 : nat -> fetch_result) (now1 now2 url1 url2 : string)
    (w1 w2 : waiting) :
  let call1 := fetch_wrapper URL_parse endpoints n1 f1 now1 url1 in
  let call2 := fetch_wrapper URL_parse endpoints n2 f2 now2 url2 in
  outcome call1 = Wait w1 -> outcome call2 = Wait w2 ->
  counter_after call1 <= n2 ->
  counter_after call1 = S n1
  /\ requestId w1 <> requestId w2
  /\ (forall processed,
        wait_step w2 (CustomFeedReady (requestId w1) processed) = w2
        /\ wait_step w1 (CustomFeedReady (requestId w2) processed) = w1).
Proof.
  intros call1 call2 H1 H2 Hle.
  pose proof (counter_grows URL_parse endpoints n1 f1 now1 url1) as Hc.
  fold call1 in Hc.
  assert (dispatched call1 <> [] /\ length (dispatched call1) <= 1) as [Hd Hl].
  { unfold call1, fetch_wrapper in *.
    destruct (negb (shouldInterceptUrl _ url1 _)); [done|].
    destruct (f1 0) as [resp|]; [|done].
    destruct (negb (ok resp)); [done|].
    destruct (URL_parse url1); [|done].
    destruct (text resp); [|done]. simpl. split; [done|lia]. }
  assert (counter_after call1 = S n1) as Hs.
  { rewrite Hc. clear Hc Hle.
    destruct (dispatched call1) as [|d [|]]; simpl in *; [done|lia|lia]. }
  apply wrapper_wait in H1 as (r1 & b1 & _ & _ & _ & ->).
  apply wrapper_wait in H2 as (r2 & b2 & _ & _ & _ & ->).
  assert (pretty n1 <> pretty n2) as Hne.
  { intros E%(inj pretty). lia. }
  split; [done|]. split; [done|]. intros processed. simpl.
  destruct (String.eqb_spec (pretty n1) (pretty n2)); [done|].
  by destruct (String.eqb_spec (pretty n2) (pretty n1)).
Qed.

Lemma fetch_request_ids_distinct_witness :
  let w1 := {| requestId := "7"; response := feed_ok; cloneForPage := feed_ok;
               timeoutId := Armed; listening := true; resolved := [] |} in
  let w2 := {| requestId := "8"; response := feed_ok; cloneForPage := feed_ok;
               timeoutId := Armed; listening := true; resolved := [] |} in
  counter_after
    (fetch_wrapper sample_URL_parse ["home"] 7 (fun _ => Resolved feed_ok)
       "2025-01-01T00:00:00.000Z" "https://www.reddit.com/svc/home") = 8
  /\ requestId w1 <> requestId w2
  /\ (forall processed,
        wait_step w2 (CustomFeedReady (requestId w1) processed) = w2
        /\ wait_step w1 (CustomFeedReady (requestId w2) processed) = w1).
Proof.
  apply (fetch_request_ids_distinct sample_URL_parse ["home"] 7 8
           (fun _ => Resolved feed_ok) (fun _ => Resolved feed_ok)
           "2025-01-01T00:00:00.000Z" "2025-01-01T00:00:01.000Z"
           "https://www.reddit.com/svc/home"
           "https://www.reddit.com/svc/home").
  - reflexivity.
  - reflexivity.
  - vm_compute. lia.
Defined.









End CorrelationFacts.

Module ContentFacts.
Import JS Str Intercept Content FetchFacts WaitFacts.
Import JS(timer, Armed, Cleared, Fired).

Definition is_settled {A} (r : awaited A) : Prop :=
  match r with Pending => False | _ => True end.

(** The processed feed a server result carries, if it is well formed. *)
Definition processed_feed (r : awaited value) : option value :=
  match r with
  | Fulfilled v =>
      let response := get_opt (get_opt v "feed") "response" in
      if truthy v && truthy (get_opt v "feed") && truthy response
      then Some response else None
  | _ => None
  end.

(** X11. Every SaveBatch event is answered exactly once: whenever the
    backend call settles, [handleInterceptedRequest] dispatches one
    CustomFeedReady event, with the id and the URL of the request; it carries
    the server's [feed.response] when the page is on a known platform, the
    request has a body and the result is well formed, and the original
    response in every other case. *)
Theorem intercepted_request_answered_once
    (data : InterceptedRequest) (href : string)
    (result : Platform -> awaited value) :
  (forall platform, is_settled (result platform)) ->
  exists ev,
    handleInterceptedRequest (Some data) href result = [ev]
    /\ fr_id ev = req_id data /\ fr_url ev = req_url data
    /\ fr_response ev
       = match (if nonempty (req_response data)
                then getCurrentPlatform href else None) with
         | Some platform =>
             default (VStr (req_response data))
                     (processed_feed (result platform))
         | None => VStr (req_response data)
         end.
Proof.
  intros Hs. unfold handleInterceptedRequest, sendOriginalResponse.
  destruct (nonempty (req_response data)); simpl; [|by eexists].
  destruct (getCurrentPlatform href) as [platform|]; [|by eexists].
  specialize (Hs platform). unfold processed_feed.
  destruct (result platform) as [v| |]; [|by eexists|done].
  destruct (truthy v); simpl; [|by eexists].
  destruct (truthy (get_opt v "feed")); simpl; [|by eexists].
  destruct (truthy _); simpl; by eexists.
Qed.

Definition server_feed (s : string) : value :=
  VObj [("feed", VObj [("response", VStr s)])].

Lemma intercepted_request_answered_once_witness :
  exists ev,
    handleInterceptedRequest
      (Some {| req_id := "7"; req_url := "https://www.reddit.com/svc/home";
               startTime := "2025-01-01T00:00:00.000Z"; req_type := "home";
               req_response := "{}" |})
      "https://www.reddit.com/" (fun _ => Fulfilled (server_feed "[]"))
    = [ev]
    /\ fr_id ev = "7" /\ fr_url ev = "https://www.reddit.com/svc/home"
    /\ fr_response ev = VStr "[]".
Proof.
  apply (intercepted_request_answered_once
           {| req_id := "7"; req_url := "https://www.reddit.com/svc/home";
              startTime := "2025-01-01T00:00:00.000Z"; req_type := "home";
              req_response := "{}" |}
           "https://www.reddit.com/" (fun _ => Fulfilled (server_feed "[]"))).
  intros _. exact I.
Defined.

(** The two parts of [handleInterceptedRequest] make up the whole. *)
Lemma handle_parts data href result :
  handleInterceptedRequest data href result
  = (answered_in_dispatch data href
     ++ answered_after_await data href result)%list.
Proof.
  unfold handleInterceptedRequest, answered_in_dispatch,
    answered_after_await.
  destruct data as [data|]; [|done].
  destruct (negb (nonempty (req_response data))); [done|].
  by destruct (getCurrentPlatform href).
Qed.

(** On a known platform, a request with a body is answered after the
    [await], with the server's feed or the original response. *)
Lemma handle_on_platform data href result platform :
  nonempty (req_response data) = true ->
  getCurrentPlatform href = Some platform ->
  is_settled (result platform) ->
  answered_in_dispatch (Some data) href = []
  /\ answered_after_await (Some data) href result
     = [{| fr_id := req_id data; fr_url := req_url data;
           fr_response := default (VStr (req_response data))
                                  (processed_feed (result platform)) |}]
  /\ handleInterceptedRequest (Some data) href result
     = [{| fr_id := req_id data; fr_url := req_url data;
           fr_response := default (VStr (req_response data))
                                  (processed_feed (result platform)) |}].
Proof.
  intros Hd Hp Hs.
  rewrite handle_parts.
  unfold answered_in_dispatch, answered_after_await, sendOriginalResponse.
  rewrite Hd, Hp. cbn [negb app]. split; [done|].
  unfold processed_feed.
  destruct (result platform) as [v| |]; [|done|done].
  destruct (truthy v); simpl; [|done].
  destruct (truthy (get_opt v "feed")); simpl; [|done].
  by destruct (truthy _).
Qed.

(** The promise [connector.processRequest] returned for caller [p]. *)
Definition ws_outcome (c : WS.connector) (p : nat) : awaited value :=
  match WS.promise_state c p with
  | Some (WS.Resolve _ v) => Fulfilled v
  | Some (WS.Reject _ _) => Failed
  | None => Pending
  end.

(** X12. WebSocket to HTTP fallback: a request submitted while the socket is
    not connected is rejected at once, so [processWithWebSocket] takes the
    HTTP path and the page receives the HTTP result's feed, or the original
    response when the HTTP call fails or returns no feed. *)
Theorem disconnected_socket_falls_back_to_http
    (c : WS.connector) (requestId : string) (p now : nat)
    (data : InterceptedRequest) (href : string) (http : awaited value) :
  WS.isConnected c = false -> WS.settle_count c p = 0 ->
  is_settled http -> nonempty (req_response data) = true ->
  is_Some (getCurrentPlatform href) ->
  let c' := WS.processRequest c requestId p now in
  ws_outcome c' p = Failed
  /\ processWithWebSocket true (ws_outcome c' p) http = http
  /\ handleInterceptedRequest (Some data) href
       (fun _ => processWithWebSocket true (ws_outcome c' p) http)
     = [{| fr_id := req_id data; fr_url := req_url data;
           fr_response := default (VStr (req_response data))
                                  (processed_feed http) |}].
Proof.
  intros Hc Hp Hs Hd [platform Hpf] c'.
  assert (ws_outcome c' p = Failed) as Hws.
  { unfold ws_outcome, WS.promise_state, c', WS.processRequest. simpl.
    rewrite Hc. simpl. rewrite filter_app.
    unfold WS.settle_count in Hp. apply length_zero_iff_nil in Hp.
    rewrite Hp. simpl. rewrite filter_cons_True; [done|].
    simpl. by rewrite Nat.eqb_refl. }
  split; [done|]. rewrite Hws. split; [done|].
  change (processWithWebSocket true Failed http) with http.
  by destruct (handle_on_platform data href (fun _ => http) platform Hd Hpf Hs)
    as (_ & _ & ->).
Qed.

Lemma disconnected_socket_falls_back_to_http_witness :
  let data := {| req_id := "7"; req_url := "https://www.reddit.com/svc/home";
                 startTime := "2025-01-01T00:00:00.000Z"; req_type := "home";
                 req_response := "{}" |} in
  let c' := WS.processRequest WSFacts.disconnected "req_1" 0 10 in
  ws_outcome c' 0 = Failed
  /\ processWithWebSocket true (ws_outcome c' 0)
       (Fulfilled (server_feed "[]")) = Fulfilled (server_feed "[]")
  /\ handleInterceptedRequest (Some data) "https://www.reddit.com/"
       (fun _ => processWithWebSocket true (ws_outcome c' 0)
                   (Fulfilled (server_feed "[]")))
     = [{| fr_id := "7"; fr_url := "https://www.reddit.com/svc/home";
           fr_response := VStr "[]" |}].
Proof.
  apply (disconnected_socket_falls_back_to_http WSFacts.disconnected "req_1"
           0 10
           {| req_id := "7"; req_url := "https://www.reddit.com/svc/home";
              startTime := "2025-01-01T00:00:00.000Z"; req_type := "home";
              req_response := "{}" |}
           "https://www.reddit.com/" (Fulfilled (server_feed "[]")));
    first [reflexivity | exact I | by eexists].
Defined.


Lemma wrapper_dispatch URL_parse endpoints counter originalFetch now url w :
  outcome (fetch_wrapper URL_parse endpoints counter originalFetch now url)
    = Wait w ->
  exists resp body d,
    originalFetch 0 = Resolved resp /\ text resp = Some body
    /\ dispatched (fetch_wrapper URL_parse endpoints counter originalFetch
                     now url) = [d]
    /\ req_id d = requestId w /\ req_url d = url /\ req_response d = body
    /\ response w = resp.
Proof.
  unfold fetch_wrapper.
  destruct (negb (shouldInterceptUrl _ _ _)); [done|].
  destruct (originalFetch 0) as [resp|]; [|done].
  destruct (ok resp) eqn:Eok; [|done]. simpl.
  destruct (URL_parse url); [|done].
  destruct (text resp) as [body|] eqn:Et; [|done].
  simpl. intros [= <-]. by eexists resp, body, _.
Qed.

(** X13. The fetch round trip fails open, but not always at once.  Take a
    wrapper that waits, for a response whose status allows a body, a backend
    call that settles, and a [feed.response] that is a string when the
    result has one.  The wrapper dispatches SaveBatch before it registers
    its CustomFeedReady listener.  A request with an empty body, or one on a
    page of no known platform, is answered by [handleInterceptedRequest]
    inside that dispatch: the answer comes before the listener exists and is
    lost, so as long as no other event carries the request's id the page's
    promise stays unresolved until the timeout fires, and then takes the
    original response.  In the other case the answer comes after the
    [await]; when it is the first event with the request's id and comes
    before the timeout, it resolves the promise with the status and status
    text of the original response, its headers completed by a content type,
    and a body that is either the text the server returned as
    [feed.response] or the original body. *)
Theorem fetch_round_trip_fails_open
    (URL_parse : string -> option URL) (endpoints : list string)
    (counter : nat) (originalFetch : nat -> fetch_result) (now url : string)
    (w : waiting) (href : string) (result : Platform -> awaited value)
    (later : list wait_event) :
  let call := fetch_wrapper URL_parse endpoints counter originalFetch now url in
  outcome call = Wait w ->
  null_body_status (status (response w)) = false ->
  (forall platform, is_settled (result platform)) ->
  (forall platform v, processed_feed (result platform) = Some v ->
                      exists s, v = VStr s) ->
  exists d orig original_body,
    dispatched call = [d] /\ req_id d = requestId w
    /\ originalFetch 0 = Resolved orig /\ text orig = Some original_body
    /\ handleInterceptedRequest (Some d) href result
       = (answered_in_dispatch (Some d) href
          ++ answered_after_await (Some d) href result)%list
    /\ (original_body = EmptyString \/ getCurrentPlatform href = None ->
        answered_in_dispatch (Some d) href
        = [{| fr_id := requestId w; fr_url := url;
              fr_response := VStr original_body |}]
        /\ answered_after_await (Some d) href result = []
        /\ forall others,
             uncorrelated (requestId w) others -> timer_quiet others ->
             settled_value (wait_run w others) = None
             /\ settled_value (wait_run w (others ++ TimeoutFires :: later))
                = Some orig)
    /\ (original_body <> EmptyString ->
        is_Some (getCurrentPlatform href) ->
        answered_in_dispatch (Some d) href = []
        /\ exists ev body,
             answered_after_await (Some d) href result = [ev]
             /\ fr_id ev = requestId w /\ fr_response ev = VStr body
             /\ (body = original_body
                 \/ exists platform,
                      processed_feed (result platform) = Some (VStr body))
             /\ forall others,
                  uncorrelated (requestId w) others -> timer_quiet others ->
                  exists resp,
                    settled_value
                      (wait_run w (others
                                   ++ CustomFeedReady (fr_id ev) body
                                      :: later))
                    = Some resp
                    /\ text resp = Some body /\ status resp = status orig
                    /\ statusText resp = statusText orig
                    /\ headers resp = response_headers (headers orig)).
Proof.
  intros call Hw Hs Hr Hstr.
  pose proof Hw as (orig & obody & d & Hf & Ht & Hd & Hid & Hurl & Hbody & Hresp)
    %wrapper_dispatch.
  pose proof Hw as (orig' & obody' & Hf' & _ & _ & Ew)%wrapper_wait.
  rewrite Hf in Hf'. injection Hf' as <-.
  pose proof (wrapper_wait_inv _ _ _ _ _ _ _ Hw) as Hinv.
  exists d, orig, obody.
  do 4 (split; [done|]). split; [apply handle_parts|]. split.
  - (* answered inside the dispatch *)
    intros Hsync.
    assert (answered_in_dispatch (Some d) href
            = [{| fr_id := requestId w; fr_url := url;
                  fr_response := VStr obody |}]
            /\ answered_after_await (Some d) href result = []) as [H1 H2].
    { unfold answered_in_dispatch, answered_after_await,
        sendOriginalResponse. rewrite Hbody, Hid, Hurl.
      destruct (nonempty obody) eqn:En; [|done]. simpl.
      destruct Hsync as [-> | ->]; [done|done]. }
    split; [done|]. split; [done|].
    intros others Hu Hq.
    assert (wait_run w others = w) as Hsame
      by (apply quiet_prefix; [by rewrite Ew..|done|done]).
    split; [by rewrite Hsame, Ew|].
    rewrite wait_run_app, Hsame. cbn [wait_run foldl].
    fold (wait_run (wait_step w TimeoutFires) later).
    rewrite resolved_stable.
    + by rewrite Ew.
    + by apply waiting_inv_step.
    + by rewrite Ew.
  - (* answered after the await *)
    intros Hne [platform Hp].
    assert (nonempty (req_response d) = true) as Hd'.
    { rewrite Hbody. unfold nonempty. apply negb_true_iff.
      by apply String.eqb_neq. }
    destruct (handle_on_platform d href result platform Hd' Hp (Hr platform))
      as (H1 & H2 & _).
    split; [done|].
    assert (exists body,
              default (VStr (req_response d))
                      (processed_feed (result platform)) = VStr body
              /\ (body = obody
                  \/ exists platform,
                       processed_feed (result platform) = Some (VStr body)))
      as (body & Hb & Hor).
    { rewrite Hbody.
      destruct (processed_feed (result platform)) as [v|] eqn:Ev;
        [|by eexists; split; [|left]].
      destruct (Hstr platform v Ev) as [s ->]. simpl.
      exists s. split; [done|]. right. by exists platform. }
    eexists _, body. split; [exact H2|]. cbn [fr_id fr_response].
    do 3 (split; [done|]).
    intros others Hu Hq.
    rewrite Hid, wait_run_app, (quiet_prefix w others);
      [|by rewrite Ew..|done|done].
    cbn [wait_run foldl].
    fold (wait_run (wait_step w (CustomFeedReady (requestId w) body)) later).
    assert (wait_step w (CustomFeedReady (requestId w) body)
            = {| requestId := requestId w; response := orig;
                 cloneForPage := orig; timeoutId := Cleared;
                 listening := false;
                 resolved :=
                   [{| ok := (200 <=? status orig)%nat
                             && (status orig <=? 299)%nat;
                       status := status orig; statusText := statusText orig;
                       headers := response_headers (headers orig);
                       text := Some body |}] |}) as Hstep.
    { rewrite Ew in Hs |- *. simpl in Hs |- *.
      rewrite String.eqb_refl. unfold new_Response. simpl. by rewrite Hs. }
    rewrite resolved_stable.
    + rewrite Hstep. by eexists.
    + by apply waiting_inv_step.
    + by rewrite Hstep.
Qed.

(** A feed response without a body. *)
Definition empty_ok : Response :=
  {| ok := true; status := 200; statusText := "OK"; headers := [];
     text := Some EmptyString |}.

Lemma fetch_round_trip_fails_open_witness :
  let call := fetch_wrapper sample_URL_parse ["home"] 7
                (fun _ => Resolved empty_ok) "2025-01-01T00:00:00.000Z"
                "https://www.reddit.com/svc/home" in
  let w := {| requestId := "7"; response := empty_ok;
              cloneForPage := empty_ok; timeoutId := Armed;
              listening := true; resolved := [] |} in
  let result := fun _ : Platform => Fulfilled (server_feed "[]") in
  handleInterceptedRequest (Some {| req_id := "7";
                                    req_url := "https://www.reddit.com/svc/home";
                                    startTime := "2025-01-01T00:00:00.000Z";
                                    req_type := "home";
                                    req_response := EmptyString |})
    "https://www.reddit.com/" result
  = [{| fr_id := "7"; fr_url := "https://www.reddit.com/svc/home";
        fr_response := VStr EmptyString |}]
  /\ settled_value (wait_run w [CustomFeedReady "6" "other"]) = None
  /\ settled_value
       (wait_run w ([CustomFeedReady "6" "other"]
                    ++ TimeoutFires :: [CustomFeedReady "7" "late"]))
     = Some empty_ok.
Proof.
  cbv zeta.
  destruct (fetch_round_trip_fails_open sample_URL_parse ["home"] 7
              (fun _ => Resolved empty_ok) "2025-01-01T00:00:00.000Z"
              "https://www.reddit.com/svc/home"
              {| requestId := "7"; response := empty_ok;
                 cloneForPage := empty_ok; timeoutId := Armed;
                 listening := true; resolved := [] |}
              "https://www.reddit.com/"
              (fun _ => Fulfilled (server_feed "[]"))
              [CustomFeedReady "7" "late"])
    as (d & orig & body & Hd & _ & Ho & Hb & Hparts & Hlost & _).
  - reflexivity.
  - reflexivity.
  - intros _. exact I.
  - intros _ v [= <-]. by eexists.
  - injection Hd as <-. injection Ho as <-. injection Hb as <-.
    destruct (Hlost (or_introl eq_refl)) as (H1 & H2 & H3).
    split.
    + exact (eq_trans Hparts (f_equal2 app H1 H2)).
    + apply (H3 [CustomFeedReady "6" "other"]).
      * intros id' p [= -> _]%list_elem_of_singleton. discriminate.
      * intros [=]%list_elem_of_singleton.
Defined.

(** The same request with a body is answered after the [await], and the
    answer reaches the wrapper. *)
Example answer_after_await_is_delivered :
  let w := {| requestId := "7"; response := feed_ok; cloneForPage := feed_ok;
              timeoutId := Armed; listening := true; resolved := [] |} in
  let d := {| req_id := "7"; req_url := "https://www.reddit.com/svc/home";
              startTime := "2025-01-01T00:00:00.000Z"; req_type := "home";
              req_response := "{}" |} in
  answered_in_dispatch (Some d) "https://www.reddit.com/" = []
  /\ answered_after_await (Some d) "https://www.reddit.com/"
       (fun _ => Fulfilled (server_feed "[]"))
     = [{| fr_id := "7"; fr_url := "https://www.reddit.com/svc/home";
           fr_response := VStr "[]" |}]
  /\ (text <$> settled_value (wait_run w [CustomFeedReady "7" "[]";
                                          TimeoutFires]))
     = Some (Some "[]").
Proof. vm_compute. done. Qed.

End ContentFacts.

Module ReconnectFacts.
Import Reconnect.

(** The first [n] reconnection delays. *)
Definition backoff (n : nat) : list Z :=
  (fun i => (1000 * 2 ^ Z.of_nat i)%Z) <$> seq 0 n.

Lemma socket_run_app l es1 es2 :
  socket_run l (es1 ++ es2)%list = socket_run (socket_run l es1) es2.
Proof. apply foldl_app. Qed.

Lemma closes_state l : forall n,
  reconnectAttempts l = 0 ->
  reconnectAttempts (socket_run l (replicate n onclose)) = n `min` 5
  /\ scheduled (socket_run l (replicate n onclose))
     = (scheduled l ++ backoff (n `min` 5))%list.
Proof.
  intros n H0. induction n as [|n [IH1 IH2]].
  - simpl. unfold backoff. simpl. by rewrite app_nil_r.
  - rewrite replicate_S_end, socket_run_app.
    set (l' := socket_run l (replicate n onclose)) in *.
    cbn [socket_run foldl socket_step]. unfold handleReconnection.
    cbn [reconnectAttempts scheduled isConnected]. rewrite IH1, IH2.
    unfold maxReconnectAttempts.
    destruct (decide (n < 5)) as [Hlt|Hge].
    + replace (5 <=? n `min` 5)%nat with false
        by (symmetry; apply Nat.leb_gt; lia).
      cbn [reconnectAttempts scheduled].
      replace (n `min` 5) with n by lia.
      replace (S n `min` 5) with (S n) by lia.
      split; [done|]. unfold backoff. rewrite seq_S, fmap_app, app_assoc.
      simpl. do 3 f_equal. unfold reconnectDelay. f_equal. f_equal. lia.
    + replace (5 <=? n `min` 5)%nat with true
        by (symmetry; apply Nat.leb_le; lia).
      cbn [reconnectAttempts scheduled].
      replace (S n `min` 5) with (n `min` 5) by lia. done.
Qed.

Lemma attempts_bounded_step l e :
  reconnectAttempts l <= 5 -> reconnectAttempts (socket_step l e) <= 5.
Proof.
  intros H.
  destruct e; cbn [socket_step]; try (simpl; lia);
    unfold handleReconnection, maxReconnectAttempts;
    match goal with
    | |- context [(5 <=? ?x)%nat] => destruct (Nat.leb_spec 5 x)
    end; simpl in *; lia.
Qed.

Lemma exhausted_step l e :
  reconnectAttempts l = 5 -> e <> onopen ->
  reconnectAttempts (socket_step l e) = 5
  /\ scheduled (socket_step l e) = scheduled l.
Proof.
  intros H He.
  destruct e; try done; simpl; unfold handleReconnection; simpl;
    by rewrite H.
Qed.

(** X14. Reconnection backs off exponentially and gives up: after a
    successful open, the [n]-th consecutive close schedules a reconnect
    after 1000 * 2^(n-1) ms; the attempt counter never exceeds five; and
    once five attempts are used up, no close or error schedules another
    reconnect until a socket opens. *)
Theorem reconnection_backs_off_and_gives_up (l : link) :
  reconnectAttempts l = 0 ->
  (forall n,
     scheduled (socket_run l (replicate n onclose))
     = (scheduled l ++ backoff (n `min` 5))%list)
  /\ backoff 5 = [1000; 2000; 4000; 8000; 16000]%Z
  /\ (forall es, reconnectAttempts (socket_run l es) <= 5)
  /\ (forall es,
        onopen ∉ es ->
        let exhausted := socket_run l (replicate 5 onclose) in
        scheduled (socket_run exhausted es) = scheduled exhausted).
Proof.
  intros H0. repeat split.
  - intros n. by apply closes_state.
  - assert (forall es l0, reconnectAttempts l0 <= 5 ->
                          reconnectAttempts (socket_run l0 es) <= 5) as Hb.
    { induction es as [|e es IH]; intros l0 Hl0; [done|].
      simpl. apply IH. by apply attempts_bounded_step. }
    intros es. apply Hb. lia.
  - intros es Hes exhausted.
    assert (reconnectAttempts exhausted = 5) as H5
      by (by apply (closes_state l 5)).
    clearbody exhausted. revert exhausted H5.
    induction es as [|e es IH]; intros l5 H5; [done|]. simpl.
    assert (e <> onopen) as He by (intros ->; apply Hes; by left).
    destruct (exhausted_step l5 e H5 He) as [Ha Hs].
    rewrite IH; [done| |done]. intros Hin. apply Hes. by right.
Qed.

Lemma reconnection_backs_off_and_gives_up_witness :
  let l := {| reconnectAttempts := 0; isConnected := true; scheduled := [] |} in
  (forall n,
     scheduled (socket_run l (replicate n onclose))
     = (scheduled l ++ backoff (n `min` 5))%list)
  /\ backoff 5 = [1000; 2000; 4000; 8000; 16000]%Z
  /\ (forall es, reconnectAttempts (socket_run l es) <= 5)
  /\ (forall es,
        onopen ∉ es ->
        let exhausted := socket_run l (replicate 5 onclose) in
        scheduled (socket_run exhausted es) = scheduled exhausted).
Proof.
  apply (reconnection_backs_off_and_gives_up
           {| reconnectAttempts := 0; isConnected := true; scheduled := [] |}).
  reflexivity.
Defined.

End ReconnectFacts.

Module AdapterFacts.
Import JS Str MarkerText Reddit MergePatch TextFacts.

(** ** Duplicate ids *)

Lemma build_map_snoc ps p :
  build_map (ps ++ [p]) = <[pid p := p]> (build_map ps).
Proof. unfold build_map. by rewrite foldl_app. Qed.

Lemma build_map_last ps1 p : forall ps2,
  (forall q, q ∈ ps2 -> pid q <> pid p) ->
  build_map (ps1 ++ p :: ps2) !! pid p = Some p.
Proof.
  induction ps2 as [|q ps2 IH] using rev_ind; intros H.
  - rewrite build_map_snoc. apply lookup_insert_eq.
  - replace (ps1 ++ p :: ps2 ++ [q])%list
      with ((ps1 ++ p :: ps2) ++ [q])%list by (by rewrite <- app_assoc).
    rewrite build_map_snoc, lookup_insert_ne.
    + apply IH. intros q' Hq'. apply H. apply elem_of_app. by left.
    + apply H. apply elem_of_app. right. by apply list_elem_of_singleton.
Qed.

(** X15. Last write wins: when several processed posts carry the same id,
    the one that comes last in the list is the one merged into the post;
    the earlier ones have no effect. *)
Theorem last_processed_post_wins
    (ps1 ps2 : list ProcessedPost) (p : ProcessedPost) (post : value) :
  name_or_id post = Ok (VStr (pid p)) ->
  (forall q, q ∈ ps2 -> pid q <> pid p) ->
  update_post (build_map (ps1 ++ p :: ps2)) post = patch_post p post.
Proof.
  intros Hid Hlast. unfold update_post. rewrite Hid. simpl.
  by rewrite build_map_last.
Qed.

Lemma last_processed_post_wins_witness :
  let first := {| pid := "t3_abc"; processedTitle := Some "old";
                  processedBody := None; processedMediaUrls := None |} in
  update_post (build_map ([first] ++ scenario_patch :: [])) (scenario_post "T")
  = patch_post scenario_patch (scenario_post "T").
Proof.
  apply (last_processed_post_wins
           [{| pid := "t3_abc"; processedTitle := Some "old";
               processedBody := None; processedMediaUrls := None |}]
           [] scenario_patch (scenario_post "T")).
  - reflexivity.
  - intros q Hq. by apply elem_of_nil in Hq.
Defined.

(** ** Image URLs *)

Lemma to_lower_app s t : to_lower (s +:+ t) = to_lower s +:+ to_lower t.
Proof.
  induction s as [|c s IH]; [done|].
  rewrite str_app_cons. simpl. by rewrite IH.
Qed.

Lemma to_lower_length s : String.length (to_lower s) = String.length s.
Proof. induction s as [|c s IH]; [done|]. simpl. by rewrite IH. Qed.

Lemma extension_here_suffix ext tail :
  In (to_lower ext) image_extensions ->
  query_tail_ok tail = true ->
  extension_here (ext +:+ tail) = true.
Proof.
  intros Hin Htail. unfold extension_here. apply existsb_exists.
  exists (to_lower ext). split; [done|].
  rewrite to_lower_app, prefix_app. simpl.
  rewrite to_lower_length.
  rewrite <- (Nat.add_0_r (String.length ext)) at 1.
  rewrite substring_app_r, str_length_app.
  replace (_ - _) with (String.length tail) by lia.
  by rewrite substring_all.
Qed.

Lemma image_regex_test_suffix base s :
  extension_here s = true ->
  image_regex_test (base +:+ String "." s) = true.
Proof.
  intros H. induction base as [|c base IH].
  - rewrite str_app_nil_l. simpl. by rewrite H.
  - rewrite str_app_cons. simpl. rewrite IH. apply orb_true_r.
Qed.

Lemma image_regex_test_no_dot s :
  lacks ["."%char] s = true -> image_regex_test s = false.
Proof.
  induction s as [|c s IH]; [done|]. intros [Hc Hs]%lacks_head. simpl.
  rewrite IH by done.
  destruct (Ascii.eqb c ".") eqn:E; [by apply Ascii.eqb_eq in E|done].
Qed.

(** X16. What counts as an image URL: a URL that ends in one of the five
    image extensions, in any letter case, is an image URL, and so is one
    where the extension is followed by a query string on the same line; a
    string without a dot never is. *)
Theorem image_url_by_extension (base ext query : string) :
  In (to_lower ext) image_extensions ->
  has_line_terminator query = false ->
  isImageUrl (VStr (base +:+ "." +:+ ext)) = Ok true
  /\ isImageUrl (VStr (base +:+ "." +:+ ext +:+ "?" +:+ query)) = Ok true
  /\ (lacks ["."%char] base = true -> isImageUrl (VStr base) = Ok false).
Proof.
  intros Hin Hq. unfold isImageUrl. simpl. repeat split.
  - change ("." +:+ ext) with (String "." ext).
    rewrite image_regex_test_suffix; [done|].
    rewrite <- (str_app_nil_r ext). by apply extension_here_suffix.
  - change ("." +:+ ext +:+ "?" +:+ query)
      with (String "." (ext +:+ String "?" query)).
    rewrite image_regex_test_suffix; [done|].
    apply extension_here_suffix; [done|]. simpl. by rewrite Hq.
  - intros Hb. by rewrite image_regex_test_no_dot.
Qed.

Lemma image_url_by_extension_witness :
  isImageUrl (VStr ("photo" +:+ "." +:+ "JPG")) = Ok true
  /\ isImageUrl (VStr ("photo" +:+ "." +:+ "JPG" +:+ "?" +:+ "width=640"))
     = Ok true
  /\ (lacks ["."%char] "photo" = true -> isImageUrl (VStr "photo") = Ok false).
Proof.
  apply (image_url_by_extension "photo" "JPG" "width=640").
  - left. reflexivity.
  - reflexivity.
Defined.


(** ** Posts the server did not process *)

Lemma bind_Ok {A B} (m : result A) (k : A -> result B) b :
  bind m k = Ok b -> exists a, m = Ok a /\ k a = Ok b.
Proof. destruct m as [a|e]; [|done]. intros H. by exists a. Qed.

Lemma put_get_same v k x : get v k = Ok x -> x <> VUndef -> put v k x = v.
Proof.
  destruct v as [| | | | | |fs]; simpl; try done.
  intros [= <-] Hx. f_equal. apply obj_set_get_same.
  by apply obj_get_present.
Qed.

Lemma put_get_opt_same v k :
  get_opt v k <> VUndef -> put v k (get_opt v k) = v.
Proof.
  destruct v as [| | | | | |fs]; simpl; try done.
  intros Hx. f_equal. apply obj_set_get_same. by apply obj_get_present.
Qed.

Lemma put_idx_get_opt_same v i :
  get_idx_opt v i <> VUndef -> put_idx v i (get_idx_opt v i) = v.
Proof.
  destruct v as [| | | | |l|fs]; simpl; try done.
  - intros Hx. f_equal. apply list_insert_id.
    by destruct (l !! i).
  - intros Hx. f_equal. apply obj_set_get_same. by apply obj_get_present.
Qed.

Lemma get_opt_defined v k : get_opt v k <> VUndef -> get v k = Ok (get_opt v k).
Proof. by destruct v. Qed.

Lemma get_idx_opt_defined v i :
  get_idx v i = Ok (get_idx_opt v i) \/ get_idx_opt v i = VUndef.
Proof. destruct v; simpl; auto. Qed.

Lemma get_Ok_opt v k x : get v k = Ok x -> get_opt v k = x.
Proof. destruct v; simpl; congruence. Qed.

Lemma get_idx_Ok_opt v i x : get_idx v i = Ok x -> get_idx_opt v i = x.
Proof. destruct v; simpl; congruence. Qed.

Lemma get_opt_undef k : get_opt VUndef k = VUndef.
Proof. done. Qed.

Lemma make_post_id post p : make_post post = Ok p -> name_or_id post = Ok (post_id p).
Proof.
  unfold make_post. intros (i & Hi & H)%bind_Ok. rewrite Hi.
  repeat (apply bind_Ok in H as (? & _ & H)). by injection H as <-.
Qed.

Lemma make_comment_id cdata c :
  make_comment cdata = Ok c -> name_or_id cdata = Ok (post_id c).
Proof.
  unfold make_comment. intros (i & Hi & H)%bind_Ok. rewrite Hi.
  repeat (apply bind_Ok in H as (? & _ & H)). by injection H as <-.
Qed.

Lemma name_or_id_defined post key : name_or_id post = Ok key -> post <> VUndef.
Proof. by destruct post. Qed.

Section Unmatched.
Variable m : gmap string ProcessedPost.

Definition unmatched (posts : list Post) : Prop :=
  forall p, p ∈ posts -> map_get m (post_id p) = None.

Lemma unmatched_app posts1 posts2 :
  unmatched (posts1 ++ posts2) -> unmatched posts1 /\ unmatched posts2.
Proof.
  intros H. split; intros p Hp; apply H, elem_of_app; auto.
Qed.

Lemma update_post_unmatched post p :
  make_post post = Ok p -> unmatched [p] -> update_post m post = Ok post.
Proof.
  intros Hp%make_post_id Hu. unfold update_post. rewrite Hp. simpl.
  rewrite Hu; [done|]. by apply list_elem_of_singleton.
Qed.

Lemma listing_children_unmatched children : forall found,
  forEach (fun child =>
             do kind <- get child "kind";
             if is_str kind "t3" then
               do post <- get child "data";
               do p <- make_post post; Ok [p]
             else Ok []) children = Ok found ->
  unmatched (concat found) ->
  forEach (update_listing_child m) children = Ok children.
Proof.
  induction children as [|child children IH]; intros found H Hu; [done|].
  cbn [forEach] in H |- *.
  apply bind_Ok in H as (ps & Hchild & H).
  apply bind_Ok in H as (found' & Hrest & H). injection H as <-.
  simpl in Hu. apply unmatched_app in Hu as [Hu1 Hu2].
  rewrite (IH found' Hrest Hu2).
  assert (update_listing_child m child = Ok child) as ->; [|done].
  unfold update_listing_child.
  apply bind_Ok in Hchild as (kind & Hkind & Hchild). rewrite Hkind. simpl.
  destruct (is_str kind "t3"); [|done].
  apply bind_Ok in Hchild as (post & Hpost & Hchild). rewrite Hpost. simpl.
  apply bind_Ok in Hchild as (p & Hp & Hchild). injection Hchild as <-.
  rewrite (update_post_unmatched post p Hp Hu1). simpl.
  f_equal. apply put_get_same; [done|].
  apply make_post_id in Hp. by eapply name_or_id_defined.
Qed.

Lemma comments_unmatched l : forall found,
  forEach (fun comment =>
             do kind <- get comment "kind";
             if is_str kind "t1" then
               do cdata <- get comment "data";
               if truthy cdata then
                 do c <- make_comment cdata; Ok [c]
               else Ok []
             else Ok []) l = Ok found ->
  unmatched (concat found) ->
  forEach (update_comment m) l = Ok l.
Proof.
  induction l as [|comment l IH]; intros found H Hu; [done|].
  cbn [forEach] in H |- *.
  apply bind_Ok in H as (cs & Hc & H).
  apply bind_Ok in H as (found' & Hrest & H). injection H as <-.
  simpl in Hu. apply unmatched_app in Hu as [Hu1 Hu2].
  rewrite (IH found' Hrest Hu2).
  assert (update_comment m comment = Ok comment) as ->; [|done].
  unfold update_comment.
  apply bind_Ok in Hc as (kind & Hkind & Hc). rewrite Hkind. simpl.
  destruct (is_str kind "t1"); [|done].
  apply bind_Ok in Hc as (cdata & Hcd & Hc). rewrite Hcd. simpl.
  destruct (truthy cdata); [|done].
  apply bind_Ok in Hc as (c & Hmk & Hc). injection Hc as <-.
  rewrite (make_comment_id _ _ Hmk). simpl.
  rewrite Hu1; [done|]. by apply list_elem_of_singleton.
Qed.

Lemma update_listing_unmatched data posts :
  (do listing <- listing_children data;
   match listing with
   | Some children =>
       do found <- forEach (fun child =>
                      do kind <- get child "kind";
                      if is_str kind "t3" then
                        do post <- get child "data";
                        do p <- make_post post; Ok [p]
                      else Ok []) children;
       Ok (concat found)
   | None => Ok []
   end) = Ok posts ->
  unmatched posts ->
  update_listing m data = Ok data.
Proof.
  intros H Hu. unfold update_listing.
  apply bind_Ok in H as (listing & Hl & H). rewrite Hl. simpl.
  destruct listing as [children|]; [|done].
  apply bind_Ok in H as (found & Hf & H). injection H as <-.
  rewrite (listing_children_unmatched children found Hf Hu). simpl.
  unfold listing_children in Hl.
  apply bind_Ok in Hl as (kind & Hk & Hl).
  destruct (is_str kind "Listing"); [|done].
  apply bind_Ok in Hl as (d & Hd & Hl). rewrite Hd. simpl.
  destruct (get_opt d "children") as [| | | | |l|] eqn:Ec; try done.
  injection Hl as <-. f_equal.
  assert (put d "children" (VArr l) = d) as ->.
  { rewrite <- Ec. apply put_get_opt_same. by rewrite Ec. }
  apply put_get_same; [done|]. intros ->. by rewrite get_opt_undef in Ec.
Qed.

Lemma update_detail_unmatched data posts :
  (do detail <- is_detail data;
   if detail then
     do post <- detail_main_post data;
     do p <- make_post post;
     do comments <- detail_comments data;
     match comments with
     | VArr l =>
         do found <- forEach (fun comment =>
                        do kind <- get comment "kind";
                        if is_str kind "t1" then
                          do cdata <- get comment "data";
                          if truthy cdata then
                            do c <- make_comment cdata; Ok [c]
                          else Ok []
                        else Ok []) l;
         Ok (p :: concat found)
     | _ => Throw TypeError
     end
   else Ok []) = Ok posts ->
  unmatched posts ->
  update_detail m data = Ok data.
Proof.
  intros H Hu. unfold update_detail.
  apply bind_Ok in H as (detail & Hd & H). rewrite Hd. simpl.
  destruct detail; [|done].
  apply bind_Ok in H as (post & Hpost & H).
  apply bind_Ok in H as (p & Hp & H).
  apply bind_Ok in H as (comments & Hcs & H).
  destruct comments as [| | | | |l|]; try done.
  apply bind_Ok in H as (found & Hf & H). injection H as <-.
  unfold detail_main_post in Hpost.
  apply bind_Ok in Hpost as (first & Hfirst & Hpost). injection Hpost as Hpost.
  rewrite Hfirst. simpl.
  set (d0 := get_opt first "data") in *.
  set (c0 := get_opt d0 "children") in *.
  set (child0 := get_idx_opt c0 0) in *.
  assert (post <> VUndef) as Hdef
    by (apply make_post_id in Hp; by eapply name_or_id_defined).
  assert (get_opt child0 "data" <> VUndef) as H1 by (by rewrite Hpost).
  assert (child0 <> VUndef) as H2 by (intros E; by rewrite E in H1).
  assert (c0 <> VUndef) as H3
    by (intros E; apply H2; unfold child0; by rewrite E).
  assert (d0 <> VUndef) as H4
    by (intros E; apply H3; unfold c0; by rewrite E).
  assert (first <> VUndef) as H5
    by (intros E; apply H4; unfold d0; by rewrite E).
  rewrite (get_opt_defined child0 "data" H1), Hpost. simpl.
  assert (unmatched [p]) as Hup.
  { intros p' ->%list_elem_of_singleton. apply Hu. by left. }
  rewrite (update_post_unmatched post p Hp Hup). simpl.
  assert (put_idx data 0
            (put first "data"
               (put d0 "children" (put_idx c0 0 (put child0 "data" post))))
          = data) as ->.
  { rewrite <- Hpost at 1. rewrite put_get_opt_same by done.
    unfold child0 at 1. rewrite put_idx_get_opt_same by done.
    unfold c0 at 1. rewrite put_get_opt_same by done.
    unfold d0 at 1. rewrite put_get_opt_same by done.
    rewrite <- (get_idx_Ok_opt _ _ _ Hfirst) at 1.
    apply put_idx_get_opt_same. by rewrite (get_idx_Ok_opt _ _ _ Hfirst). }
  unfold detail_comments in Hcs.
  apply bind_Ok in Hcs as (second & Hsecond & Hcs). injection Hcs as Hcs.
  rewrite Hsecond. simpl.
  set (d1 := get_opt second "data") in *.
  assert (get_opt d1 "children" <> VUndef) as H6 by (by rewrite Hcs).
  assert (d1 <> VUndef) as H7 by (intros E; by rewrite E in H6).
  rewrite (get_opt_defined second "data" H7). fold d1. simpl.
  rewrite (get_opt_defined d1 "children" H6), Hcs. simpl.
  assert (unmatched (concat found)) as Huc.
  { intros p' Hp'. apply Hu. by right. }
  rewrite (comments_unmatched l found Hf Huc). simpl. f_equal.
  rewrite <- Hcs at 1. rewrite put_get_opt_same by done.
  unfold d1 at 1. rewrite put_get_opt_same by done.
  rewrite <- (get_idx_Ok_opt _ _ _ Hsecond) at 1.
  apply put_idx_get_opt_same. rewrite (get_idx_Ok_opt _ _ _ Hsecond).
  intros E. apply H7. unfold d1. by rewrite E.
Qed.

End Unmatched.

(** X17. Posts the server did not process are left alone.  When extraction
    of the parsed response succeeds and no processed post carries the id of
    an extracted post or comment, the update changes nothing in the tree and
    does not throw: the adapter returns the re-serialised original tree.  In
    particular an empty list of processed posts changes nothing. *)
Theorem unmatched_posts_leave_response_unchanged
    (JSON_parse : string -> option value) (JSON_stringify : value -> string)
    (s : string) (data : value) (posts : list Post)
    (ps : list ProcessedPost) :
  JSON_parse s = Some data ->
  extract_tree data = Ok posts ->
  (forall q, q ∈ ps -> VStr (pid q) ∉ post_id <$> posts) ->
  update_tree ps data = Ok data
  /\ updateResponseWithProcessedPosts JSON_parse JSON_stringify s ps
     = JSON_stringify data.
Proof.
  intros Hparse Hex Hids.
  assert (unmatched (build_map ps) posts) as Hu.
  { intros p Hp. unfold map_get.
    destruct (post_id p) as [| | | |key| |] eqn:Ek; try done.
    destruct (build_map ps !! key) as [q|] eqn:Eq; [|done].
    apply build_map_lookup in Eq as [Hq <-]. exfalso.
    apply (Hids q Hq). rewrite <- Ek. by apply list_elem_of_fmap_2. }
  assert (update_tree ps data = Ok data) as Hup.
  { unfold extract_tree in Hex. unfold update_tree.
    destruct (do listing <- listing_children data;
              match listing with
              | Some children =>
                  do found <- forEach (fun child =>
                                 do kind <- get child "kind";
                                 if is_str kind "t3" then
                                   do post <- get child "data";
                                   do p <- make_post post; Ok [p]
                                 else Ok []) children;
                  Ok (concat found)
              | None => Ok []
              end) as [posts1|] eqn:E1.
    - assert (exists posts2,
                (do detail <- is_detail data;
                 if detail then
                   do post <- detail_main_post data;
                   do p <- make_post post;
                   do comments <- detail_comments data;
                   match comments with
                   | VArr l =>
                       do found <- forEach (fun comment =>
                                      do kind <- get comment "kind";
                                      if is_str kind "t1" then
                                        do cdata <- get comment "data";
                                        if truthy cdata then
                                          do c <- make_comment cdata; Ok [c]
                                        else Ok []
                                      else Ok []) l;
                       Ok (p :: concat found)
                   | _ => Throw TypeError
                   end
                 else Ok []) = Ok posts2
                /\ posts = (posts1 ++ posts2)%list) as (posts2 & E2 & ->).
      { apply bind_Ok in E1 as (listing & Hl & E1). rewrite Hl in Hex.
        simpl in Hex. rewrite E1 in Hex. simpl in Hex.
        apply bind_Ok in Hex as (detail & Hd & Hex). rewrite Hd. simpl.
        apply bind_Ok in Hex as (posts2 & Hex2 & Hex). injection Hex as <-.
        by exists posts2. }
      apply unmatched_app in Hu as [Hu1 Hu2].
      rewrite (update_listing_unmatched _ data posts1 E1 Hu1). simpl.
      by apply (update_detail_unmatched _ data posts2 E2 Hu2).
    - exfalso. apply bind_Ok in Hex as (listing & Hl & Hex).
      rewrite Hl in E1. simpl in E1.
      apply bind_Ok in Hex as (posts1 & H1 & _). congruence. }
  split; [done|].
  unfold updateResponseWithProcessedPosts, parse.
  rewrite Hparse. simpl. by rewrite Hup.
Qed.

Lemma unmatched_posts_leave_response_unchanged_witness :
  let other := {| pid := "t3_zzz"; processedTitle := Some "X";
                  processedBody := None; processedMediaUrls := None |} in
  update_tree [other] (listing_of (scenario_post "T"))
  = Ok (listing_of (scenario_post "T"))
  /\ updateResponseWithProcessedPosts scenario_parse print_first
       scenario_text [other]
     = print_first (listing_of (scenario_post "T")).
Proof.
  refine (unmatched_posts_leave_response_unchanged scenario_parse print_first
            scenario_text (listing_of (scenario_post "T"))
            [{| post_id := VStr "t3_abc"; title := VStr "T"; body := VStr "B";
                mediaUrls := []; platform := "reddit";
                metadata := [("subreddit", VUndef); ("author", VUndef);
                             ("created", VUndef)] |}]
            [{| pid := "t3_zzz"; processedTitle := Some "X";
                processedBody := None; processedMediaUrls := None |}]
            _ _ _).
  - reflexivity.
  - reflexivity.
  - intros q ->%list_elem_of_singleton [=]%list_elem_of_singleton.
Defined.


(** ** The post-detail response *)

(** The main post after the update: untouched, or changed only in the
    fields its processed post names. *)
Definition main_patched (ps : list ProcessedPost) (post post' : value)
  : Prop :=
  post' = post
  \/ exists id p,
       name_or_id post = Ok (VStr id) /\ build_map ps !! id = Some p
       /\ erase_post p post' = erase_post p post.

(** A comment after the update: untouched, or changed only in the [body]
    and [body_html] of its data. *)
Definition comment_patched (ps : list ProcessedPost)
    (comment comment' : value) : Prop :=
  comment' = comment
  \/ exists id p cdata cdata',
       get comment "kind" = Ok (VStr "t1")
       /\ get comment "data" = Ok cdata
       /\ name_or_id cdata = Ok (VStr id)
       /\ build_map ps !! id = Some p
       /\ erase_obj ["body"; "body_html"] keep cdata'
          = erase_obj ["body"; "body_html"] keep cdata
       /\ comment' = put comment "data" cdata'.

Lemma map_get_Some m key p :
  map_get m key = Some p -> exists id, key = VStr id /\ m !! id = Some p.
Proof. destruct key; try done. intros H. by eexists. Qed.

Lemma update_post_main_patched ps post post' :
  update_post (build_map ps) post = Ok post' -> main_patched ps post post'.
Proof.
  unfold update_post. intros (key & Hkey & H)%bind_Ok.
  destruct (map_get (build_map ps) key) as [p|] eqn:Em.
  - apply map_get_Some in Em as (id & -> & Em). right. exists id, p.
    split; [done|]. split; [done|]. by apply patch_post_erased.
  - left. by injection H.
Qed.

Lemma update_comment_patched ps comment comment' :
  update_comment (build_map ps) comment = Ok comment' ->
  comment_patched ps comment comment'.
Proof.
  unfold update_comment. intros (kind & Hkind & H)%bind_Ok.
  destruct (is_str kind "t1") eqn:Ek; [|left; by injection H].
  apply is_str_true in Ek as ->.
  apply bind_Ok in H as (cdata & Hcd & H).
  destruct (truthy cdata); [|left; by injection H].
  apply bind_Ok in H as (key & Hkey & H).
  destruct (map_get (build_map ps) key) as [p|] eqn:Em;
    [|left; by injection H].
  apply map_get_Some in Em as (id & -> & Em).
  destruct (processedBody p) as [b|]; [|left; by injection H].
  destruct (nonempty b); [|left; by injection H].
  apply bind_Ok in H as (c & Hc & H).
  apply bind_Ok in H as (c' & Hc' & H). injection H as <-.
  right. exists id, p, cdata, c'. repeat (split; [done|]). split; [|done].
  rewrite (erase_set _ _ c "body_html" _ c') by (done || set_solver).
  by rewrite (erase_set _ _ cdata "body" _ c) by (done || set_solver).
Qed.

(** X18. Merge patch on a post-detail response.  For a response that is the
    array of the post's listing and the comments' listing, the update
    changes only the main post, and there only the fields its processed
    post names, and the comments, and there only [body] and [body_html] of a
    comment that has a processed body; the title and the media URLs of a
    processed comment are ignored, and everything else in both listings is
    carried over. *)
Theorem merge_patch_detail (ps : list ProcessedPost) (items : list value)
    (data' : value) :
  is_detail (VArr items) = Ok true ->
  update_tree ps (VArr items) = Ok data' ->
  exists first second post post' comments comments',
    items !! 0 = Some first /\ items !! 1 = Some second
    /\ detail_main_post (VArr items) = Ok post
    /\ detail_comments (VArr items) = Ok (VArr comments)
    /\ main_patched ps post post'
    /\ Forall2 (comment_patched ps) comments comments'
    /\ let d0 := get_opt first "data" in
       let c0 := get_opt d0 "children" in
       let child0 := get_idx_opt c0 0 in
       let d1 := get_opt second "data" in
       data'
       = VArr (<[1 := put second "data"
                        (put d1 "children" (VArr comments'))]>
                 (<[0 := put first "data"
                           (put d0 "children"
                              (put_idx c0 0 (put child0 "data" post')))]>
                    items)).
Proof.
  intros Hd H. unfold update_tree in H. cbn in H.
  unfold update_detail in H. rewrite Hd in H.
  cbn [bind get_idx] in H.
  unfold is_detail in Hd. cbn in Hd.
  set (first := default VUndef (items !! 0)) in *.
  set (d0 := get_opt first "data") in *.
  set (c0 := get_opt d0 "children") in *.
  set (child0 := get_idx_opt c0 0) in *.
  set (post := get_opt child0 "data") in *.
  destruct (truthy post) eqn:Etp; [|done].
  set (second := default VUndef (items !! 1)) in *.
  set (d1 := get_opt second "data") in *.
  injection Hd as Hcomments.
  assert (post <> VUndef) as Hp1 by (intros E; by rewrite E in Etp).
  assert (child0 <> VUndef) as Hp2 by (intros E; apply Hp1; unfold post; by rewrite E).
  assert (c0 <> VUndef) as Hp3 by (intros E; apply Hp2; unfold child0; by rewrite E).
  assert (d0 <> VUndef) as Hp4 by (intros E; apply Hp3; unfold c0; by rewrite E).
  assert (first <> VUndef) as Hp5 by (intros E; apply Hp4; unfold d0; by rewrite E).
  assert (get_opt d1 "children" <> VUndef) as Hc1
    by (intros E; by rewrite E in Hcomments).
  assert (d1 <> VUndef) as Hc2 by (intros E; apply Hc1; by rewrite E).
  assert (second <> VUndef) as Hc3 by (intros E; apply Hc2; unfold d1; by rewrite E).
  assert (items !! 0 = Some first) as Hi0.
  { unfold first in *. by destruct (items !! 0). }
  assert (items !! 1 = Some second) as Hi1.
  { unfold second in *. by destruct (items !! 1). }
  rewrite (get_opt_defined child0 "data" Hp1) in H. fold post in H.
  cbn [bind] in H.
  apply bind_Ok in H as (post' & Hpost & H).
  cbn [put_idx get_idx bind] in H.
  rewrite list_lookup_insert_ne in H by done.
  rewrite Hi1 in H. cbn [default from_option id bind] in H.
  rewrite (get_opt_defined second "data" Hc2) in H. fold d1 in H.
  cbn [bind] in H.
  rewrite (get_opt_defined d1 "children" Hc1) in H. cbn [bind] in H.
  unfold forEach_value in H.
  destruct (get_opt d1 "children") as [| | | | |comments|] eqn:Ecs; try done.
  apply bind_Ok in H as (c1' & Hc1' & H).
  apply bind_Ok in Hc1' as (comments' & Hfe & Hc1'). injection Hc1' as <-.
  injection H as <-.
  exists first, second, post, post', comments, comments'.
  split; [exact Hi0|]. split; [exact Hi1|]. split; [reflexivity|].
  split.
  { change (Ok (get_opt d1 "children") = Ok (VArr comments)).
    by rewrite Ecs. }
  split; [by apply update_post_main_patched|].
  split; [|done].
  eapply forEach_Forall2; [exact Hfe|]. intros x y.
  apply update_comment_patched.
Qed.

Definition detail_of (post comment : value) : list value :=
  [VObj [("kind", VStr "Listing");
         ("data", VObj [("children",
                         VArr [VObj [("kind", VStr "t3");
                                     ("data", post)]])])];
   VObj [("kind", VStr "Listing");
         ("data", VObj [("children",
                         VArr [VObj [("kind", VStr "t1");
                                     ("data", comment)]])])]].

Definition scenario_comment (body : string) : value :=
  VObj [("id", VStr "t1_c1"); ("body", VStr body); ("author", VStr "u")].

Definition comment_patch : ProcessedPost :=
  {| pid := "t1_c1"; processedTitle := Some "ignored";
     processedBody := Some "C2"; processedMediaUrls := None |}.

Lemma merge_patch_detail_witness :
  let items := detail_of (scenario_post "T") (scenario_comment "C") in
  exists first second post post' comments comments',
    items !! 0 = Some first /\ items !! 1 = Some second
    /\ detail_main_post (VArr items) = Ok post
    /\ detail_comments (VArr items) = Ok (VArr comments)
    /\ main_patched [comment_patch] post post'
    /\ Forall2 (comment_patched [comment_patch]) comments comments'
    /\ let d0 := get_opt first "data" in
       let c0 := get_opt d0 "children" in
       let child0 := get_idx_opt c0 0 in
       let d1 := get_opt second "data" in
       VArr (detail_of (scenario_post "T")
               (VObj [("id", VStr "t1_c1"); ("body", VStr "C2");
                      ("author", VStr "u"); ("body_html", VStr "C2")]))
       = VArr (<[1 := put second "data"
                        (put d1 "children" (VArr comments'))]>
                 (<[0 := put first "data"
                           (put d0 "children"
                              (put_idx c0 0 (put child0 "data" post')))]>
                    items)).
Proof.
  apply (merge_patch_detail [comment_patch]
           (detail_of (scenario_post "T") (scenario_comment "C"))).
  - reflexivity.
  - reflexivity.
Defined.


(** ** Extraction from a listing *)

Definition is_t3 (child : value) : bool :=
  match get child "kind" with
  | Ok kind => is_str kind "t3"
  | Throw _ => false
  end.

(** The post extracted from a listing child. *)
Definition extracted (child : value) (p : Post) : Prop :=
  exists post,
    get child "data" = Ok post
    /\ name_or_id post = Ok (post_id p)
    /\ get post "title" = Ok (title p)
    /\ get post "selftext" = Ok (body p)
    /\ extractMediaUrls post = Ok (mediaUrls p)
    /\ platform p = "reddit".

Lemma make_post_fields post p :
  make_post post = Ok p ->
  name_or_id post = Ok (post_id p)
  /\ get post "title" = Ok (title p)
  /\ get post "selftext" = Ok (body p)
  /\ extractMediaUrls post = Ok (mediaUrls p)
  /\ platform p = "reddit".
Proof.
  unfold make_post. intros H.
  apply bind_Ok in H as (i & Hi & H). apply bind_Ok in H as (t & Ht & H).
  apply bind_Ok in H as (b & Hb & H). apply bind_Ok in H as (mu & Hm & H).
  apply bind_Ok in H as (? & _ & H). apply bind_Ok in H as (? & _ & H).
  apply bind_Ok in H as (? & _ & H). by injection H as <-.
Qed.

Lemma listing_extraction children : forall found,
  forEach (fun child =>
             do kind <- get child "kind";
             if is_str kind "t3" then
               do post <- get child "data";
               do p <- make_post post; Ok [p]
             else Ok []) children = Ok found ->
  Forall2 extracted (filter (fun c => Is_true (is_t3 c)) children)
    (concat found).
Proof.
  induction children as [|child children IH]; intros found H.
  - injection H as <-. constructor.
  - cbn [forEach] in H.
    apply bind_Ok in H as (ps & Hchild & H).
    apply bind_Ok in H as (found' & Hrest & H). injection H as <-.
    apply bind_Ok in Hchild as (kind & Hkind & Hchild).
    simpl. destruct (is_str kind "t3") eqn:Ek.
    + apply bind_Ok in Hchild as (post & Hpost & Hchild).
      apply bind_Ok in Hchild as (p & Hp & Hchild). injection Hchild as <-.
      rewrite filter_cons_True by (unfold is_t3; by rewrite Hkind, Ek).
      simpl. constructor; [|by apply IH].
      exists post. split; [done|]. by apply make_post_fields.
    + injection Hchild as <-.
      rewrite filter_cons_False
        by (unfold is_t3; rewrite Hkind, Ek; by intros []).
      simpl. by apply IH.
Qed.

(** What the loop of [extractPosts] does with one child of a listing. *)
Definition listing_child (child : value) : result (list Post) :=
  do kind <- get child "kind";
  if is_str kind "t3" then
    do post <- get child "data";
    do p <- make_post post; Ok [p]
  else Ok [].

(** A child the loop gets through, and one at which it throws. *)
Definition readable (child : value) : Prop :=
  exists ps, listing_child child = Ok ps.

Definition unreadable (child : value) : Prop :=
  exists e, listing_child child = Throw e.

Lemma forEach_readable {A B} (f : A -> result B) l :
  Forall (fun x => exists y, f x = Ok y) l -> exists ys, forEach f l = Ok ys.
Proof.
  induction 1 as [|x l [y Hy] _ [ys IH]]; [by eexists|].
  simpl. rewrite Hy, IH. by eexists.
Qed.

Lemma forEach_unreadable {A B} (f : A -> result B) l :
  Exists (fun x => exists e, f x = Throw e) l ->
  exists e, forEach f l = Throw e.
Proof.
  induction 1 as [x l [e He]|x l _ [e IH]]; simpl.
  - rewrite He. by eexists.
  - destruct (f x); simpl; [|by eexists]. rewrite IH. by eexists.
Qed.

(** A [t3] child without data cannot be read. *)
Lemma t3_without_data_unreadable child :
  get child "kind" = Ok (VStr "t3") ->
  get_opt child "data" = VNull \/ get_opt child "data" = VUndef ->
  unreadable child.
Proof.
  intros Hk Hd. unfold unreadable, listing_child. rewrite Hk. simpl.
  destruct child as [| | | | | |fs]; simpl in *; try discriminate.
  destruct Hd as [-> | ->]; by eexists.
Qed.

(** X19. Extraction from a listing is all or nothing.  For a response that
    parses as a listing (and is not also of the post-detail shape): when
    every child can be read without a throw, [extractPosts] returns one post
    for each child of kind [t3], in the order of the children, and none for
    any other child, the post carrying the child's fullname (or its id when
    it has no name), its title, its selftext and its media URLs; when
    reading some child throws, as for a [t3] child whose [data] is null or
    missing, it returns no post at all, whatever the other children are. *)
Theorem listing_posts_in_order
    (JSON_parse : string -> option value) (s : string) (data : value)
    (children : list value) :
  JSON_parse s = Some data ->
  listing_children data = Ok (Some children) ->
  is_detail data = Ok false ->
  (Forall readable children ->
   Forall2 extracted (filter (fun c => Is_true (is_t3 c)) children)
     (extractPosts JSON_parse s))
  /\ (Exists unreadable children -> extractPosts JSON_parse s = [])
  /\ (forall child,
        child ∈ children -> get child "kind" = Ok (VStr "t3") ->
        get_opt child "data" = VNull \/ get_opt child "data" = VUndef ->
        extractPosts JSON_parse s = []).
Proof.
  intros Hparse Hl Hd.
  assert (Hex : extract_tree data
                = do found <- forEach listing_child children;
                  Ok (concat found ++ [])%list).
  { unfold extract_tree. rewrite Hl, Hd. cbn [bind].
    unfold listing_child. by destruct (forEach _ children). }
  assert (Hthrow : Exists unreadable children ->
                   extractPosts JSON_parse s = []).
  { intros [e He]%forEach_unreadable.
    unfold extractPosts, parse. rewrite Hparse. cbn [bind].
    by rewrite Hex, He. }
  split; [|split; [done|]].
  - intros [found Hf]%forEach_readable.
    unfold extractPosts, parse. rewrite Hparse. cbn [bind].
    rewrite Hex, Hf. cbn [bind try_catch]. rewrite app_nil_r.
    by apply listing_extraction.
  - intros child Hin Hk Hnull. apply Hthrow.
    apply Exists_exists. exists child. split; [done|].
    by apply t3_without_data_unreadable.
Qed.

Lemma listing_posts_in_order_witness :
  Forall2 extracted
    (filter (fun c => Is_true (is_t3 c))
       [VObj [("kind", VStr "t3"); ("data", scenario_post "T")]])
    (extractPosts scenario_parse scenario_text).
Proof.
  apply (listing_posts_in_order scenario_parse scenario_text
           (listing_of (scenario_post "T"))
           [VObj [("kind", VStr "t3"); ("data", scenario_post "T")]]);
    try reflexivity.
  constructor; [|constructor]. by eexists.
Defined.

(** One well-formed post and one [t3] child without data: the well-formed
    post is dropped with the other. *)
Example broken_child_drops_every_post :
  let listing children :=
    VObj [("kind", VStr "Listing"); ("data", VObj [("children", VArr children)])] in
  let good := VObj [("kind", VStr "t3"); ("data", scenario_post "T")] in
  let broken := VObj [("kind", VStr "t3"); ("data", VNull)] in
  length (extractPosts (fun _ => Some (listing [good])) "s") = 1
  /\ extractPosts (fun _ => Some (listing [good; broken])) "s" = [].
Proof. vm_compute. done. Qed.

End AdapterFacts.

Module SweepFacts.
Import JS WS WSFacts.

(** [now - request.timestamp > timeout] *)
Definition expired (now timeout : nat) (e : PendingRequest) : bool :=
  (timeout <? now - timestamp e)%nat.

Definition sweep_step (now timeout : nat) (c : connector)
    (kv : string * PendingRequest) : connector :=
  if (timeout <? now - timestamp kv.2)%nat then
    remove_pending
      (settle c (Reject (caller kv.2) (VStr "Request expired"))) kv.1
  else c.

Lemma sweep_fold now timeout l : forall c,
  let c' := foldl (sweep_step now timeout) c l in
  pendingRequests c'
  = foldl (fun m kv => if expired now timeout kv.2 then delete kv.1 m else m)
          (pendingRequests c) l
  /\ settlements c'
     = (settlements c
        ++ omap (fun kv => if expired now timeout kv.2
                           then Some (Reject (caller kv.2)
                                        (VStr "Request expired"))
                           else None) l)%list
  /\ isConnected c' = isConnected c /\ socketOpen c' = socketOpen c
  /\ sent c' = sent c /\ timers c' = timers c.
Proof.
  induction l as [|kv l IH]; intros c; simpl.
  - by rewrite app_nil_r.
  - destruct (IH (sweep_step now timeout c kv)) as (H1 & H2 & H3 & H4 & H5 & H6).
    rewrite H1, H2, H3, H4, H5, H6. unfold sweep_step, expired.
    destruct (timeout <? now - timestamp kv.2)%nat; simpl; [|done].
    by rewrite <- app_assoc.
Qed.

Lemma existsb_elem_of {A} (f : A -> bool) (l : list A) :
  existsb f l = true <-> exists x, x ∈ l /\ f x = true.
Proof.
  induction l as [|y l IH]; simpl.
  - split; [done|]. intros (x & Hx & _). by apply elem_of_nil in Hx.
  - rewrite orb_true_iff, IH. split.
    + intros [Hy|(x & Hx & Hf)]; [exists y|exists x]; split; try done;
        [by left|by right].
    + intros (x & [->|Hx]%elem_of_cons & Hf); [by left|right; by exists x].
Qed.

Lemma delete_expired_lookup now timeout l :
  forall (m : gmap string PendingRequest) k,
  foldl (fun m kv => if expired now timeout kv.2 then delete kv.1 m else m)
        m l !! k
  = if existsb (fun kv => String.eqb kv.1 k && expired now timeout kv.2) l
    then None else m !! k.
Proof.
  induction l as [|[k' e'] l IH]; intros m k; [done|]. simpl.
  rewrite IH. destruct (expired now timeout e') eqn:Ee.
  - destruct (String.eqb_spec k' k) as [->|Hne]; simpl.
    + rewrite lookup_delete_eq. by destruct (existsb _ l).
    + by rewrite lookup_delete_ne.
  - by rewrite andb_false_r.
Qed.

Lemma count_expired now timeout p (l : list (string * PendingRequest)) :
  length (filter (fun s => Is_true (settles p s))
            (omap (fun kv => if expired now timeout kv.2
                             then Some (Reject (caller kv.2)
                                          (VStr "Request expired"))
                             else None) l))
  = length (filter (fun kv => expired now timeout kv.2 = true
                              /\ caller kv.2 = p) l).
Proof.
  induction l as [|kv l IH]; [done|].
  cbn [omap list_omap]. destruct (expired now timeout kv.2) eqn:Ee.
  - rewrite filter_cons, (filter_cons _ kv).
    destruct (decide (Is_true (settles p (Reject (caller kv.2)
                                            (VStr "Request expired")))))
      as [Hs|Hs];
      destruct (decide (expired now timeout kv.2 = true /\ caller kv.2 = p))
        as [Hq|Hq]; simpl; rewrite ?IH; try done.
    + exfalso. apply Hq. split; [done|].
      simpl in Hs. apply Is_true_true, Nat.eqb_eq in Hs. done.
    + exfalso. apply Hs. simpl. destruct Hq as [_ ->].
      by rewrite Nat.eqb_refl.
  - rewrite (filter_cons _ kv).
    destruct (decide (expired now timeout kv.2 = true /\ caller kv.2 = p))
      as [[? _]|]; [congruence|done].
Qed.

(** X20. The periodic sweep rejects exactly the expired requests: an entry
    is removed when it is older than the timeout and kept otherwise (an
    entry exactly as old as the timeout is kept); each removed entry's
    promise gets one rejection with reason "Request expired"; nothing is
    resolved, sent or re-timed. *)
Theorem sweep_rejects_exactly_the_expired (c : connector)
    (now timeout : nat) :
  let c' := cleanupExpiredRequests c now timeout in
  (forall k,
     pendingRequests c' !! k
     = match pendingRequests c !! k with
       | Some e => if expired now timeout e then None else Some e
       | None => None
       end)
  /\ (forall p,
        settle_count c' p
        = settle_count c p
          + length (filter (fun kv => expired now timeout kv.2 = true
                                      /\ caller kv.2 = p)
                      (map_to_list (pendingRequests c))))
  /\ (exists rejections,
        settlements c' = (settlements c ++ rejections)%list
        /\ Forall (fun s => exists p,
                     s = Reject p (VStr "Request expired")) rejections)
  /\ sent c' = sent c /\ timers c' = timers c
  /\ isConnected c' = isConnected c.
Proof.
  intros c'.
  destruct (sweep_fold now timeout (map_to_list (pendingRequests c)) c)
    as (H1 & H2 & H3 & H4 & H5 & H6).
  change (foldl (sweep_step now timeout) c (map_to_list (pendingRequests c)))
    with c' in *.
  split; [|split; [|split; [|done]]].
  - intros k. rewrite H1, delete_expired_lookup.
    destruct (pendingRequests c !! k) as [e|] eqn:Ek.
    + destruct (expired now timeout e) eqn:Ee.
      * replace (existsb _ _) with true; [done|]. symmetry.
        apply existsb_elem_of. exists (k, e). simpl.
        split; [by apply elem_of_map_to_list|].
        by rewrite String.eqb_refl.
      * replace (existsb _ _) with false; [done|]. symmetry.
        apply not_true_is_false.
        intros ([k' e'] & Hin & [Hk He]%andb_prop)%existsb_elem_of.
        simpl in *. apply String.eqb_eq in Hk as ->.
        apply elem_of_map_to_list in Hin. congruence.
    + replace (existsb _ _) with false; [done|]. symmetry.
      apply not_true_is_false.
      intros ([k' e'] & Hin & [Hk He]%andb_prop)%existsb_elem_of.
      simpl in *. apply String.eqb_eq in Hk as ->.
      apply elem_of_map_to_list in Hin. congruence.
  - intros p. unfold settle_count. rewrite H2, filter_app, length_app.
    f_equal. apply count_expired.
  - eexists. split; [exact H2|].
    generalize (map_to_list (pendingRequests c)) as l.
    induction l as [|kv l IH]; [constructor|]. simpl.
    destruct (expired now timeout kv.2); [|done].
    constructor; [by eexists|done].
Qed.


Definition connected : connector :=
  {| pendingRequests := ∅; isConnected := true; socketOpen := true;
     sent := []; timers := []; settlements := [] |}.

Lemma connected_requests_settle_once_witness :
  let es := [Submit "req_1" 0 10; Message "x"; Timeout "req_1" 0;
             Sweep 200 90] in
  let c := ws_run no_parse connected es in
  (forall p, settle_count c p <= 1)
  /\ (forall k e, pendingRequests c !! k = Some e ->
      settle_count c (caller e) = 0)
  /\ (forall k p, (k, p) ∈ submitted es -> (k, p) ∉ timers c ->
      settle_count c p = 1).
Proof.
  apply (connected_requests_settle_once no_parse connected
           [Submit "req_1" 0 10; Message "x"; Timeout "req_1" 0;
            Sweep 200 90]); try reflexivity.
  simpl. repeat split; try done.
  - intros p' Hin. by apply elem_of_nil in Hin.
  - intros k' Hin. by apply elem_of_nil in Hin.
Defined.

End SweepFacts.

Module ImageFacts.
Import JS Str MarkerText Markers MarkerFacts.

(** ** What the box handlers leave alone *)

(** [img'] is [img] with nodes added to its container and classes added to
    its class list; its source, its alternative text and its attributes are
    those of [img]. *)
Definition only_added (img img' : Image) : Prop :=
  src img' = src img /\ alt img' = alt img
  /\ attributes img' = attributes img /\ origin img' = origin img
  /\ (forall c, In c (classList img) -> In c (classList img'))
  /\ (parent img = Container ->
      parent img' = Container
      /\ exists added, children img' = (children img ++ added)%list).

Lemma only_added_refl img : only_added img img.
Proof.
  do 5 (split; [done|]). intros Hp. split; [done|].
  exists []. by rewrite app_nil_r.
Qed.

Lemma only_added_trans a b c :
  only_added a b -> only_added b c -> only_added a c.
Proof.
  intros (A1 & A2 & A3 & A4 & A5 & A6) (B1 & B2 & B3 & B4 & B5 & B6).
  do 4 (split; [congruence|]). split; [auto|].
  intros Hp. destruct (A6 Hp) as [Hb [x Hx]].
  destruct (B6 Hb) as [Hc [y Hy]]. split; [done|].
  exists (x ++ y)%list. by rewrite Hy, Hx, app_assoc.
Qed.

Lemma ensure_container_added img : only_added img (ensure_container img).
Proof.
  unfold ensure_container. destruct (parent img) eqn:E;
    try apply only_added_refl.
  do 5 (split; [done|]). intros Hp. congruence.
Qed.

Lemma append_child_added img n : only_added img (append_child img n).
Proof.
  unfold append_child. destruct (parent img) eqn:E;
    try apply only_added_refl.
  do 5 (split; [done|]). intros _. split; [done|]. by exists [n].
Qed.

Lemma classList_add_added img c : only_added img (classList_add img c).
Proof.
  unfold classList_add. destruct (existsb _ _); [apply only_added_refl|].
  do 4 (split; [done|]). split.
  - intros c' Hc'. simpl. apply in_or_app. by left.
  - intros Hp. split; [done|]. exists []. by rewrite app_nil_r.
Qed.

Lemma applyOverlayToImage_added img b :
  only_added img (applyOverlayToImage img b).
Proof.
  unfold applyOverlayToImage. destruct (existsb _ _).
  - apply ensure_container_added.
  - eapply only_added_trans;
      [apply ensure_container_added|apply append_child_added].
Qed.

Lemma applyBlurToImage_added img b : only_added img (applyBlurToImage img b).
Proof.
  unfold applyBlurToImage. destruct (existsb _ _).
  - apply ensure_container_added.
  - eapply only_added_trans;
      [apply ensure_container_added|apply append_child_added].
Qed.

Lemma apply_boxes_added apply boxes :
  (forall img b, only_added img (apply img b)) ->
  forall img, only_added img (apply_boxes apply img boxes).1.
Proof.
  intros Ha. induction boxes as [|v boxes IH]; intros img; simpl.
  - apply only_added_refl.
  - destruct (box_of v) as [b|]; [|apply only_added_refl].
    eapply only_added_trans; [apply Ha|apply IH].
Qed.

Lemma process_boxes_added apply cls img config :
  (forall img b, only_added img (apply img b)) ->
  only_added img (process_boxes apply cls img config).
Proof.
  intros Ha. unfold process_boxes.
  destruct (negb (truthy config)); [apply only_added_refl|].
  destruct (get_opt config "coordinates"); try apply only_added_refl.
  destruct (apply_boxes apply img l).2 eqn:E.
  - eapply only_added_trans;
      [by apply apply_boxes_added|apply classList_add_added].
  - by apply apply_boxes_added.
Qed.

(** X21. Overlay and blur processing only add: whatever the configuration,
    the image keeps its source, its alternative text and its attributes
    (among them the marker attribute), every class it had, and, when it
    already sits in a positioning container, every node of that container in
    its place; overlays and the processed class are appended. *)
Theorem box_markers_only_add (img : Image) (config : value) :
  only_added img (processOverlayImageMarker img config)
  /\ only_added img (processBlurImageMarkers img config).
Proof.
  split; apply process_boxes_added.
  - apply applyOverlayToImage_added.
  - apply applyBlurToImage_added.
Qed.


(** ** Re-processing an overlay configuration *)

(** Nothing is left for [applyOverlayToImage img b] to do. *)
Definition settled (img : Image) (b : box) : Prop :=
  match parent img with
  | Detached => True
  | Container => existsb (same_overlay b) (children img) = true
  | PlainParent => False
  end.

Lemma settled_fix img b : settled img b -> applyOverlayToImage img b = img.
Proof.
  unfold settled, applyOverlayToImage, ensure_container, append_child.
  destruct (parent img) eqn:E; [|done|].
  - intros _. destruct (existsb _ _); [done|]. by rewrite E.
  - by intros ->.
Qed.

Lemma settled_after img b : valid_box b -> settled (applyOverlayToImage img b) b.
Proof.
  intros Hb. unfold settled, applyOverlayToImage, ensure_container.
  destruct (parent img) eqn:E.
  - destruct (existsb _ _); unfold append_child;
      repeat (rewrite E; simpl); done.
  - unfold append_child. cbn -[same_overlay style_offset style_size].
    by rewrite same_overlay_own_style.
  - destruct (existsb (same_overlay b) (children img)) eqn:Ex.
    + by rewrite E.
    + unfold append_child. rewrite E.
      cbn -[same_overlay style_offset style_size].
      rewrite existsb_app. cbn -[same_overlay style_offset style_size].
      by rewrite same_overlay_own_style, orb_true_r.
Qed.

Lemma settled_mono img b b' :
  settled img b' -> settled (applyOverlayToImage img b) b'.
Proof.
  unfold settled, applyOverlayToImage, ensure_container.
  destruct (parent img) eqn:E; [|done|].
  - intros _. destruct (existsb _ _); unfold append_child;
      repeat (rewrite E; simpl); done.
  - intros H. destruct (existsb (same_overlay b) (children img)).
    + by rewrite E.
    + unfold append_child. rewrite E.
      cbn -[same_overlay style_offset style_size].
      by rewrite existsb_app, H.
Qed.

Lemma settled_classList_add img c b :
  settled img b -> settled (classList_add img c) b.
Proof. unfold settled, classList_add. by destruct (existsb _ (classList img)). Qed.

Definition valid_boxes (boxes : list value) : Prop :=
  Forall (fun v => exists b, box_of v = Ok b /\ valid_box b) boxes.

Definition all_settled (img : Image) (boxes : list value) : Prop :=
  Forall (fun v => exists b, box_of v = Ok b /\ settled img b) boxes.

Lemma apply_boxes_settled_fix boxes : forall img,
  all_settled img boxes ->
  apply_boxes applyOverlayToImage img boxes = (img, true).
Proof.
  induction boxes as [|v boxes IH]; intros img H; [done|].
  apply Forall_cons in H as [(b & Hv & Hb) H]. simpl.
  rewrite Hv, (settled_fix img b Hb). by apply IH.
Qed.

Lemma apply_boxes_mono boxes : forall img b,
  settled img b ->
  settled (apply_boxes applyOverlayToImage img boxes).1 b.
Proof.
  induction boxes as [|v boxes IH]; intros img b H; [done|]. simpl.
  destruct (box_of v) as [b'|]; [|done].
  apply IH. by apply settled_mono.
Qed.

Lemma apply_boxes_settles boxes : forall img,
  valid_boxes boxes ->
  (apply_boxes applyOverlayToImage img boxes).2 = true
  /\ all_settled (apply_boxes applyOverlayToImage img boxes).1 boxes.
Proof.
  induction boxes as [|v boxes IH]; intros img H.
  - split; [done|constructor].
  - apply Forall_cons in H as [(b & Hv & Hb) H]. simpl. rewrite Hv.
    destruct (IH (applyOverlayToImage img b) H) as [H1 H2].
    split; [done|]. constructor; [|done].
    exists b. split; [done|].
    apply apply_boxes_mono. by apply settled_after.
Qed.

Lemma classList_add_idempotent img c :
  classList_add (classList_add img c) c = classList_add img c.
Proof.
  unfold classList_add at 2.
  destruct (existsb (String.eqb c) (classList img)) eqn:E.
  - unfold classList_add. by rewrite E.
  - unfold classList_add. cbn [classList set_classList].
    rewrite existsb_app, E. cbn [existsb orb].
    by rewrite String.eqb_refl.
Qed.

(** A box of integer pixel coordinates, as the detector reports them:
    corners in order and no more than six digits, the range in which the
    subtraction is exact and [`${n}px`] reads back from the style of the
    overlay as it was written. *)
Definition pixel_box (v : value) : Prop :=
  exists x1 y1 x2 y2 : Z,
    get_opt v "x1" = VNum x1 /\ get_opt v "y1" = VNum y1
    /\ get_opt v "x2" = VNum x2 /\ get_opt v "y2" = VNum y2
    /\ (x1 <= x2)%Z /\ (y1 <= y2)%Z
    /\ (Z.abs x1 < 1000000)%Z /\ (Z.abs y1 < 1000000)%Z
    /\ (x2 - x1 < 1000000)%Z /\ (y2 - y1 < 1000000)%Z.

Lemma pixel_box_valid v :
  pixel_box v -> exists b, box_of v = Ok b /\ valid_box b.
Proof.
  intros (x1 & y1 & x2 & y2 & H1 & H2 & H3 & H4 & Hx & Hy & _).
  destruct v as [| | | | | |fs]; try discriminate.
  simpl in H1, H2, H3, H4.
  unfold box_of. simpl. rewrite H1, H2, H3, H4. simpl.
  eexists. split; [done|].
  exists x1, y1, (x2 - x1)%Z, (y2 - y1)%Z. split; [done|lia].
Qed.

(** X22. Re-processing an overlay configuration adds nothing: when every
    entry of [coordinates] is a box of integer pixel coordinates (at most
    six digits, [x1 <= x2] and [y1 <= y2]), handing the same configuration
    to [processOverlayImageMarker] a second time leaves the image exactly as
    the first call left it. *)
Theorem overlay_config_idempotent (img : Image) (config : value)
    (boxes : list value) :
  get_opt config "coordinates" = VArr boxes ->
  Forall pixel_box boxes ->
  processOverlayImageMarker (processOverlayImageMarker img config) config
  = processOverlayImageMarker img config.
Proof.
  intros Hc Hpx.
  assert (Hv : valid_boxes boxes).
  { eapply Forall_impl; [exact Hpx|]. apply pixel_box_valid. }
  unfold processOverlayImageMarker, process_boxes.
  destruct (negb (truthy config)) eqn:Et; [done|].
  rewrite Hc.
  destruct (apply_boxes_settles boxes img Hv) as [H1 H2].
  rewrite H1.
  rewrite apply_boxes_settled_fix.
  - simpl. apply classList_add_idempotent.
  - eapply Forall_impl; [exact H2|]. intros v (b & ? & ?).
    exists b. split; [done|]. by apply settled_classList_add.
Qed.

Definition face_config : value :=
  VObj [("type", VStr "overlay");
        ("coordinates",
         VArr [VObj [("x1", VNum 10); ("y1", VNum 10); ("x2", VNum 60);
                     ("y2", VNum 60)]])].

Lemma overlay_config_idempotent_witness :
  processOverlayImageMarker (processOverlayImageMarker framed_photo face_config)
    face_config
  = processOverlayImageMarker framed_photo face_config.
Proof.
  apply (overlay_config_idempotent framed_photo face_config
           [VObj [("x1", VNum 10); ("y1", VNum 10); ("x2", VNum 60);
                  ("y2", VNum 60)]]).
  - reflexivity.
  - constructor; [|constructor].
    exists 10%Z, 10%Z, 60%Z, 60%Z. repeat split; (reflexivity || lia).
Defined.

(** ** The loading state *)

Lemma remove_first_indicator_snoc l :
  existsb (fun n => match n with LoadingIndicator => true | _ => false end) l
  = false ->
  remove_first_indicator (l ++ [LoadingIndicator])%list = l.
Proof.
  induction l as [|n l IH]; [done|]. simpl.
  destruct n; simpl; try done; intros H; by rewrite IH.
Qed.

Lemma filter_snoc_absent (c : string) l :
  existsb (String.eqb c) l = false ->
  filter (fun c' => c' <> c) (l ++ [c])%list = l.
Proof.
  intros H. rewrite filter_app, filter_cons_False, filter_nil, app_nil_r
    by (by intros ?).
  induction l as [|x l IH]; [done|]. simpl in H.
  apply orb_false_elim in H as [Hx Hl].
  rewrite filter_cons_True, IH; [done|done|].
  intros ->. by rewrite String.eqb_refl in Hx.
Qed.

(** X23. Showing and then removing the loading state restores the image:
    for an image that is not marked as processing and has no loading
    indicator, [removeImageLoadingState] undoes [showImageLoadingState]; all
    that remains is the positioning container the image was wrapped in. *)
Theorem loading_state_round_trip (img : Image) :
  existsb (String.eqb CSS_PROCESSING) (classList img) = false ->
  has_indicator img = false ->
  removeImageLoadingState (showImageLoadingState img) = ensure_container img.
Proof.
  intros Hc Hi. unfold showImageLoadingState, removeImageLoadingState.
  unfold classList_add, ensure_container, append_child, classList_remove,
    has_indicator in *.
  destruct img as [s a cl at_ p ch o]. simpl in *.
  destruct p; simpl; rewrite Hc; simpl.
  - by rewrite filter_snoc_absent.
  - by rewrite filter_snoc_absent.
  - by rewrite filter_snoc_absent, remove_first_indicator_snoc.
Qed.

Lemma loading_state_round_trip_witness :
  removeImageLoadingState (showImageLoadingState framed_photo)
  = ensure_container framed_photo.
Proof. apply (loading_state_round_trip framed_photo); reflexivity. Defined.


(** ** The marker attribute *)

Lemma mark_processed_lookup w1 i img1 :
  images w1 !! i = Some img1 ->
  let w' := with_image w1 i mark_processed in
  attribute_of w' i = None
  /\ images w' !! i = Some (mark_processed img1)
  /\ (forall j, j <> i -> images w' !! j = images w1 !! j)
  /\ deferredImages w' = deferredImages w1 /\ posted w' = posted w1
  /\ polls w' = polls w1.
Proof.
  intros Hi w'. unfold w', with_image, attribute_of. simpl.
  rewrite lookup_alter_eq, Hi. simpl.
  split; [|split; [done|split; [|done]]].
  - rewrite lookup_insert_ne by done. apply lookup_delete_eq.
  - intros j Hj. by rewrite lookup_alter_ne.
Qed.

Lemma unmarked_image_ignored JSON_parse JSON_stringify maxAttempts w i now :
  attribute_of w i = None ->
  processMarkedImage JSON_parse JSON_stringify maxAttempts w i now = w.
Proof.
  unfold attribute_of, processMarkedImage.
  destruct (images w !! i) as [img|]; [|done]. by intros ->.
Qed.

(** X24. The marker attribute is consumed: for a marked image whose
    configuration parses and whose type is neither [processed], [cartoonish]
    nor [edit] (so [overlay], [blur] or a type without a handler),
    [processMarkedImage] removes the marker attribute and sets
    [data-diy-mod-processed]; it leaves the image's source, the other images
    and the polling state as they were, and handing the image over again
    does nothing. *)
Theorem marker_attribute_consumed
    (JSON_parse : string -> option value) (JSON_stringify : value -> string)
    (maxAttempts : option nat) (w : world) (i : nat) (img : Image)
    (config : string) (configData type : value) (now : nat) :
  images w !! i = Some img ->
  attributes img !! DIY_IMG_ATTR = Some config ->
  nonempty config = true ->
  JSON_parse config = Some configData ->
  get configData "type" = Ok type ->
  is_str type "processed" = false ->
  is_str type "cartoonish" = false -> is_str type "edit" = false ->
  let w' := processMarkedImage JSON_parse JSON_stringify maxAttempts w i now in
  attribute_of w' i = None
  /\ (exists img',
        images w' !! i = Some img'
        /\ attributes img' !! "data-diy-mod-processed" = Some "true"
        /\ src img' = src img)
  /\ (forall j, j <> i -> images w' !! j = images w !! j)
  /\ deferredImages w' = deferredImages w /\ posted w' = posted w
  /\ polls w' = polls w
  /\ forall later,
       processMarkedImage JSON_parse JSON_stringify maxAttempts w' i later
       = w'.
Proof.
  intros Hi Ha Hne Hp Ht Hproc Hcart Hedit w'.
  assert (exists f : Image -> Image,
            (forall x, src (f x) = src x)
            /\ w' = with_image (with_image w i f) i mark_processed)
    as (f & Hf & Hw').
  { unfold w', processMarkedImage.
    rewrite Hi, Ha, Hne, Hp, Ht, Hproc, Hcart, Hedit. simpl.
    destruct (is_str type "overlay"); [|destruct (is_str type "blur")]; simpl.
    - exists (fun x => processOverlayImageMarker x configData).
      split; [|done]. intros x.
      by destruct (process_boxes_added applyOverlayToImage
                     "diymod-overlay-processed" x configData
                     applyOverlayToImage_added) as [? _].
    - exists (fun x => processBlurImageMarkers x configData).
      split; [|done]. intros x.
      by destruct (process_boxes_added applyBlurToImage
                     "diymod-blur-processed" x configData
                     applyBlurToImage_added) as [? _].
    - exists (fun x => x). split; [done|].
      unfold with_image at 2. simpl.
      replace (alter (fun x => x) i (images w)) with (images w); [by destruct w|].
      apply map_eq. intros j. destruct (decide (j = i)) as [->|Hj].
      + rewrite lookup_alter_eq, Hi. done.
      + by rewrite lookup_alter_ne. }
  assert (images (with_image w i f) !! i = Some (f img)) as Hi1.
  { unfold with_image. simpl. by rewrite lookup_alter_eq, Hi. }
  destruct (mark_processed_lookup (with_image w i f) i (f img) Hi1)
    as (H1 & H2 & H3 & H4 & H5 & H6).
  rewrite <- Hw' in H1, H2, H3, H4, H5, H6.
  split; [done|]. split.
  { eexists. split; [exact H2|]. split.
    - unfold mark_processed. simpl. apply lookup_insert_eq.
    - simpl. apply Hf. }
  split.
  { intros j Hj. rewrite (H3 j Hj). unfold with_image. simpl.
    by rewrite lookup_alter_ne. }
  repeat (split; [done|]).
  intros later. by apply unmarked_image_ignored.
Qed.


Definition overlay_text : string := "overlay-config".

Definition overlay_parse (s : string) : option value :=
  if String.eqb s overlay_text then Some face_config else None.

Definition overlay_marked : Image :=
  {| src := photo; alt := EmptyString; classList := [];
     attributes := {[ DIY_IMG_ATTR := overlay_text ]};
     parent := PlainParent; children := []; origin := (8, 8)%Z |}.

Definition overlay_page : world :=
  {| images := {[ 0%nat := overlay_marked ]}; deferredImages := ∅;
     polls := []; scheduled := []; posted := [] |}.

Lemma marker_attribute_consumed_witness :
  let w' := processMarkedImage overlay_parse sample_stringify (Some 3)
              overlay_page 0 10 in
  attribute_of w' 0 = None
  /\ (exists img',
        images w' !! 0 = Some img'
        /\ attributes img' !! "data-diy-mod-processed" = Some "true"
        /\ src img' = src overlay_marked)
  /\ (forall j, j <> 0 -> images w' !! j = images overlay_page !! j)
  /\ deferredImages w' = deferredImages overlay_page
  /\ posted w' = posted overlay_page
  /\ polls w' = polls overlay_page
  /\ forall later,
       processMarkedImage overlay_parse sample_stringify (Some 3) w' 0 later
       = w'.
Proof.
  apply (marker_attribute_consumed overlay_parse sample_stringify (Some 3)
           overlay_page 0 overlay_marked overlay_text face_config
           (VStr "overlay") 10); reflexivity.
Defined.

(** ** A completed poll *)

Definition completed_response (url : string) : value :=
  VObj [("success", VBool true);
        ("result", VObj [("status", VStr "COMPLETED");
                         ("processed_value", VStr url)])].

Lemma effective_maxPolls_positive maxAttempts :
  (effective_maxPolls maxAttempts <=? 0)%nat = false.
Proof.
  apply Nat.leb_gt. unfold effective_maxPolls, DEFAULT_MAX_ATTEMPTS.
  destruct maxAttempts as [n|]; [|lia].
  destruct (n =? 0)%nat eqn:E; [lia|]. apply Nat.eqb_neq in E. lia.
Qed.

Lemma src_removeImageLoadingState x : src (removeImageLoadingState x) = src x.
Proof. unfold removeImageLoadingState. simpl. by destruct (parent x). Qed.

Lemma src_classList_add x c : src (classList_add x c) = src x.
Proof. unfold classList_add. by destruct (existsb _ _). Qed.

Lemma classList_removeImageLoadingState x :
  classList (removeImageLoadingState x)
  = filter (fun c' => c' <> CSS_PROCESSING) (classList x).
Proof. unfold removeImageLoadingState. simpl. by destruct (parent x). Qed.

Lemma classList_add_elem x c : c ∈ classList (classList_add x c).
Proof.
  unfold classList_add. destruct (existsb _ _) eqn:E.
  - apply existsb_exists in E as (c' & Hin & ->%String.eqb_eq).
    by apply list_elem_of_In.
  - simpl. apply elem_of_app. right. by left.
Qed.

Lemma loading_state_cleared img url c :
  has_indicator img = false ->
  has_indicator
    (removeImageLoadingState
       (classList_add (set_src (showImageLoadingState img) url) c)) = false.
Proof.
  intros H. unfold has_indicator in *.
  assert (children
            (removeImageLoadingState
               (classList_add (set_src (showImageLoadingState img) url) c))
          = children (ensure_container img)) as ->.
  { unfold removeImageLoadingState, showImageLoadingState, classList_add,
      classList_remove, ensure_container, append_child, set_src.
    generalize CSS_PROCESSING as P. intros P.
    destruct img as [s a cl at_ pa ch o]. cbn in *.
    destruct pa; cbn;
      repeat match goal with
        | |- context [existsb (String.eqb ?x) ?l] =>
            destruct (existsb (String.eqb x) l); cbn
        end;
      rewrite ?remove_first_indicator_snoc; done. }
  unfold ensure_container. by destruct (parent img).
Qed.

(** X25. A completed poll ends the job: after a deferred configuration has
    started polling for an image, the response to that poll with status
    COMPLETED and a processed URL swaps the image's source for the URL,
    marks it as processed, takes the loading state off, forgets the job and
    schedules no further poll; exactly one poll request was sent. *)
Theorem completed_poll_ends_the_job
    (JSON_stringify : value -> string) (maxAttempts : option nat)
    (w : world) (i : nat) (img : Image) (config : value) (now : nat)
    (url : string) :
  images w !! i = Some img ->
  truthy config = true ->
  is_str (get_opt config "status") "DEFERRED" = true ->
  polls w = [] ->
  url <> EmptyString ->
  let filters := if truthy (get_opt config "filters")
                 then get_opt config "filters" else VArr [] in
  let key := poll_key JSON_stringify (src img)
               (pollingFilters_of config (pollingFilters_of config filters)) in
  let w1 := processCartoonishImageMarker JSON_stringify maxAttempts w i
              config now in
  let w2 := on_message w1 ("poll_" +:+ key +:+ "_" +:+ pretty now)
              (completed_response url) in
  deferredImages w2 !! key = None
  /\ (exists img2,
        images w2 !! i = Some img2 /\ src img2 = url
        /\ ("diymod-cartoonish-processed" ∈ classList img2)
        /\ (CSS_PROCESSING ∉ classList img2)
        /\ (has_indicator img = false -> has_indicator img2 = false))
  /\ scheduled w2 = scheduled w
  /\ length (posted w2) = length (posted w) + 1
  /\ in_flight w2 key = 0.
Proof.
  intros Hi Ht Hs Hp Hurl filters key w1 w2.
  set (rid := "poll_" +:+ key +:+ "_" +:+ pretty now).
  set (job := {| imageElement := i; originalUrl := src img;
                 filters := pollingFilters_of config
                              (pollingFilters_of config filters);
                 config := config; pollCount := 1;
                 maxPolls := effective_maxPolls maxAttempts |}).
  set (p := {| requestId := rid; pollKey := key; target := i;
               listening := true; timeoutId := Armed |}).
  assert (w1 = {| images := alter showImageLoadingState i (images w);
                  deferredImages :=
                    <[key := job]>
                      (<[key := {| imageElement := i; originalUrl := src img;
                                   filters := Markers.filters job;
                                   config := config; pollCount := 0;
                                   maxPolls := effective_maxPolls maxAttempts
                                 |}]> (deferredImages w));
                  polls := [p]; scheduled := scheduled w;
                  posted := posted w
                            ++ [{| pr_requestId := rid; imageUrl := src img;
                                   pr_filters := Markers.filters job |}] |})
    as Hw1.
  { unfold w1, processCartoonishImageMarker.
    rewrite Hi, Ht, Hs. simpl. fold filters.
    unfold startImagePolling. fold key.
    unfold pollForImageResult. simpl. rewrite lookup_insert_eq. simpl.
    fold (effective_maxPolls maxAttempts).
    rewrite effective_maxPolls_positive. simpl. by rewrite Hp. }
  assert (String.eqb url EmptyString = false) as Hu
    by (by apply String.eqb_neq).
  assert (w2 = set_deferred
                 (with_image
                    (set_polls w1 [stopped p]) i
                    (fun img =>
                       removeImageLoadingState
                         (classList_add (set_src img url)
                            "diymod-cartoonish-processed")))
                 (delete key (deferredImages w1))) as Hw2.
  { unfold w2, on_message. rewrite Hw1. cbn [polls imap foldl].
    cbn [snd fst listening requestId p]. rewrite String.eqb_refl.
    cbn [andb]. unfold messageHandler, completed_response.
    cbn -[removeImageLoadingState classList_add with_image].
    by rewrite Hu. }
  rewrite Hw2. rewrite Hw1. clear Hw1 Hw2.
  split; [apply lookup_delete_eq|].
  split.
  { cbn [set_deferred with_image set_polls images].
    rewrite !lookup_alter_eq, Hi. cbn [fmap option_fmap option_map].
    eexists. split; [done|].
    split; [by rewrite src_removeImageLoadingState, src_classList_add|].
    rewrite !classList_removeImageLoadingState.
    split; [|split].
    - apply list_elem_of_filter. split; [done|]. apply classList_add_elem.
    - intros [? _]%list_elem_of_filter. done.
    - intros Hind. by apply loading_state_cleared. }
  split; [done|]. split.
  { cbn. by rewrite length_app. }
  unfold in_flight. cbn [set_deferred with_image set_polls polls].
  rewrite filter_cons_False; [done|]. by intros [_ ?].
Qed.


Lemma completed_poll_ends_the_job_witness :
  let w1 := processCartoonishImageMarker sample_stringify (Some 3)
              (page "cartoonish") 0 (deferred_config "cartoonish") 10 in
  let w2 := on_message w1 ("poll_" +:+ photo_key +:+ "_" +:+ pretty 10)
              (completed_response "https://cdn/b.png") in
  deferredImages w2 !! photo_key = None
  /\ (exists img2,
        images w2 !! 0 = Some img2 /\ src img2 = "https://cdn/b.png"
        /\ ("diymod-cartoonish-processed" ∈ classList img2)
        /\ (CSS_PROCESSING ∉ classList img2)
        /\ (has_indicator (marked_image "cartoonish") = false ->
            has_indicator img2 = false))
  /\ scheduled w2 = scheduled (page "cartoonish")
  /\ length (posted w2) = length (posted (page "cartoonish")) + 1
  /\ in_flight w2 photo_key = 0.
Proof.
  apply (completed_poll_ends_the_job sample_stringify (Some 3)
           (page "cartoonish") 0 (marked_image "cartoonish")
           (deferred_config "cartoonish") 10 "https://cdn/b.png");
    try reflexivity.
  discriminate.
Defined.

End ImageFacts.

Module ServiceFacts.
Import JS Str Reddit Intercept Content Service ParseBoundary.

Lemma extract_malformed JSON_parse body :
  malformed JSON_parse body -> Reddit.extractPosts JSON_parse body = [].
Proof.
  intros [H | (data & H & Hn)]; unfold Reddit.extractPosts, parse; rewrite H.
  - reflexivity.
  - simpl. by apply extract_tree_unrecognized.
Qed.

(** The response built from the adapter's update of the body. *)
Definition updated_response (adapter : PlatformAdapter) (orig : Response)
    (body : string) (processed : list ProcessedPost) : Response :=
  {| ok := (200 <=? status orig)%nat && (status orig <=? 299)%nat;
     status := status orig; statusText := statusText orig;
     headers := response_headers (headers orig);
     text := Some (updateResponseWithProcessedPosts adapter body processed) |}.

Section Adapters.
Variable RegExp_test : string -> string -> option bool.
Variable interceptPatterns : string -> option (list string).
Variable platformAdapters : list (string * PlatformAdapter).
Variable originalFetch : nat -> fetch_result.
Variable processContent : list Post -> awaited (list ProcessedPost).

Definition wrapper : string -> service_call :=
  intercepted_fetch RegExp_test interceptPatterns platformAdapters originalFetch
    processContent.

Lemma service_fetch_bounds url :
  s_fetches (wrapper url) <= 2 /\ length (s_requests (wrapper url)) <= 1.
Proof.
  unfold wrapper, intercepted_fetch.
  destruct (shouldInterceptUrl _ _ _ url) as [[|]|]; simpl; try lia.
  destruct (originalFetch 0) as [response|]; simpl; try lia.
  destruct (text response); simpl; try lia.
  destruct (getAdapterForUrl _ url) as [adapter|]; simpl; try lia.
  destruct (extractPosts adapter _); simpl; try lia.
  destruct (processContent _) as [[|]| |]; simpl; try lia.
  destruct (new_Response _ _); simpl; lia.
Qed.

(** The promise is rejected exactly when the URL test throws. *)
Lemma service_fetch_rejects url :
  s_outcome (wrapper url) = Rejects
  <-> exists e,
        shouldInterceptUrl RegExp_test interceptPatterns platformAdapters url
        = Throw e.
Proof.
  unfold wrapper, intercepted_fetch.
  destruct (shouldInterceptUrl _ _ _ url) as [[|]|e]; simpl.
  - split; [|by intros [? ?]].
    destruct (originalFetch 0) as [response|]; simpl; [|done].
    destruct (text response); simpl; [|done].
    destruct (getAdapterForUrl _ url) as [adapter|]; simpl; [|done].
    destruct (extractPosts adapter _); simpl; [done|].
    destruct (processContent _) as [[|]| |]; simpl; try done.
    by destruct (new_Response _ _).
  - split; [done | by intros [? ?]].
  - split; [by exists e | done].
Qed.

(** It stays pending exactly when the backend call does. *)
Lemma service_fetch_hangs url :
  s_outcome (wrapper url) = Hangs
  <-> exists posts,
        s_requests (wrapper url) = [posts] /\ processContent posts = Pending.
Proof.
  unfold wrapper, intercepted_fetch.
  destruct (shouldInterceptUrl _ _ _ url) as [[|]|e]; simpl;
    [|split; [done | by intros (? & ? & ?)]..].
  destruct (originalFetch 0) as [response|]; simpl;
    [|split; [done | by intros (? & ? & ?)]].
  destruct (text response); simpl; [|split; [done | by intros (? & ? & ?)]].
  destruct (getAdapterForUrl _ url) as [adapter|]; simpl;
    [|split; [done | by intros (? & ? & ?)]].
  destruct (extractPosts adapter _) as [|p posts]; simpl;
    [split; [done | by intros (? & ? & ?)]|].
  destruct (processContent (p :: posts)) as [[|q processed]| |] eqn:Ec; simpl.
  - split; [done|]. intros (? & [= <-] & H). congruence.
  - destruct (new_Response _ _); simpl;
      (split; [done|]; intros (? & [= <-] & H); congruence).
  - split; [done|]. intros (? & [= <-] & H). congruence.
  - split; [|done]. intros _. by eexists.
Qed.

(** What the page gets when the promise settles. *)
Lemma service_fetch_settles url res :
  s_outcome (wrapper url) = Settles res ->
  (s_fetches (wrapper url) = 1 /\ res = originalFetch 0)
  \/ (s_fetches (wrapper url) = 2 /\ res = originalFetch 1)
  \/ exists orig adapter body processed,
       s_fetches (wrapper url) = 1
       /\ originalFetch 0 = Resolved orig
       /\ getAdapterForUrl platformAdapters url = Some adapter
       /\ text orig = Some body
       /\ s_requests (wrapper url) = [extractPosts adapter body]
       /\ processContent (extractPosts adapter body) = Fulfilled processed
       /\ processed <> []
       /\ res = Resolved (updated_response adapter orig body processed).
Proof.
  unfold wrapper, intercepted_fetch.
  destruct (shouldInterceptUrl _ _ _ url) as [[|]|]; simpl; [| |done].
  2: { intros [= <-]. by left. }
  destruct (originalFetch 0) as [response|] eqn:E0; simpl.
  2: { intros [= <-]. right. by left. }
  destruct (text response) as [body|] eqn:Et; simpl.
  2: { intros [= <-]. right. by left. }
  destruct (getAdapterForUrl _ url) as [adapter|] eqn:Ea; simpl.
  2: { intros [= <-]. by left. }
  destruct (extractPosts adapter body) as [|p posts] eqn:Ep; simpl.
  { intros [= <-]. by left. }
  destruct (processContent (p :: posts)) as [[|q processed]| |] eqn:Ec; simpl;
    [| | |done].
  - intros [= <-]. by left.
  - unfold new_Response.
    destruct (null_body_status (status response)); simpl.
    + intros [= <-]. right. by left.
    + intros [= <-]. right. right.
      exists response, adapter, body, (q :: processed).
      rewrite Ep. by repeat split.
  - intros [= <-]. right. by left.
Qed.

End Adapters.

(** X27. The adapter-driven fetch interceptor fails open.  It calls the
    original fetch at most twice and the backend at most once.  Its promise
    is rejected only when the URL test itself throws and stays pending only
    while the backend call is pending; in every other case it settles, with
    the outcome of the first original fetch, with that of a second one (made
    after a throw), or with a response that carries the adapter's update of
    the body under the original status and status text, the headers being
    the original's plus a content type when they name none.  For a Reddit
    URL whose body is not a recognised listing, the page gets the original
    response and the backend is not called at all. *)
Theorem service_fetch_fails_open
    (RegExp_test : string -> string -> option bool)
    (interceptPatterns : string -> option (list string))
    (JSON_parse : string -> option value) (JSON_stringify : value -> string)
    (twitterAdapter : PlatformAdapter)
    (originalFetch : nat -> fetch_result)
    (processContent : list Post -> awaited (list ProcessedPost))
    (url : string) :
  let adapters := [("reddit", redditAdapter JSON_parse JSON_stringify);
                   ("twitter", twitterAdapter)] in
  let call := intercepted_fetch RegExp_test interceptPatterns adapters
                originalFetch processContent url in
  s_fetches call <= 2 /\ length (s_requests call) <= 1
  /\ (s_outcome call = Rejects
      <-> exists e,
            Service.shouldInterceptUrl RegExp_test interceptPatterns adapters
              url = Throw e)
  /\ (s_outcome call = Hangs
      <-> exists posts,
            s_requests call = [posts] /\ processContent posts = Pending)
  /\ (forall res,
        s_outcome call = Settles res ->
        (s_fetches call = 1 /\ res = originalFetch 0)
        \/ (s_fetches call = 2 /\ res = originalFetch 1)
        \/ exists orig adapter body processed,
             s_fetches call = 1
             /\ originalFetch 0 = Resolved orig
             /\ getAdapterForUrl adapters url = Some adapter
             /\ text orig = Some body
             /\ s_requests call = [extractPosts adapter body]
             /\ processContent (extractPosts adapter body)
                = Fulfilled processed
             /\ processed <> []
             /\ res = Resolved (updated_response adapter orig body processed))
  /\ ((forall pattern, RegExp_test pattern url <> None) ->
      (forall posts, processContent posts <> Pending) ->
      exists res, s_outcome call = Settles res)
  /\ (forall response body,
        includes url "reddit.com" = true ->
        Service.shouldInterceptUrl RegExp_test interceptPatterns adapters url
        = Ok true ->
        originalFetch 0 = Resolved response -> text response = Some body ->
        malformed JSON_parse body ->
        call = {| s_fetches := 1; s_requests := [];
                  s_outcome := Settles (Resolved response) |}).
Proof.
  intros adapters call.
  destruct (service_fetch_bounds RegExp_test interceptPatterns adapters
              originalFetch processContent url) as [H1 H2].
  pose proof (service_fetch_rejects RegExp_test interceptPatterns adapters
                originalFetch processContent url) as Hrej.
  pose proof (service_fetch_hangs RegExp_test interceptPatterns adapters
                originalFetch processContent url) as Hhang.
  split; [done|]. split; [done|]. split; [done|]. split; [done|].
  split; [|split].
  - intros res. apply service_fetch_settles.
  - intros Hre Hpc.
    destruct (s_outcome call) as [res| |] eqn:Eo; [by exists res| |].
    + exfalso. apply Hrej in Eo as [e He]. clear -He Hre.
      unfold Service.shouldInterceptUrl in He.
      assert (Hpat : forall patterns,
                any_pattern RegExp_test url patterns <> Throw e).
      { induction patterns as [|pattern patterns IH]; [done|]. simpl.
        specialize (Hre (glob_to_regex pattern)).
        destruct (RegExp_test (glob_to_regex pattern) url) as [[|]|];
          done. }
      assert (Had : forall l,
                any_adapter RegExp_test interceptPatterns url l <> Throw e).
      { induction l as [|[platform adapter] l IH]; [done|]. simpl.
        destruct (canHandle adapter url); [|done].
        specialize (Hpat (default [] (interceptPatterns platform))).
        destruct (any_pattern RegExp_test url _) as [[|]|e']; simpl;
          [done|done|]. congruence. }
      by apply (Had adapters).
    + exfalso. apply Hhang in Eo as (posts & _ & Hp). by apply (Hpc posts).
  - intros response body Hurl Hshould Hf Ht Hmal.
    unfold call, intercepted_fetch. rewrite Hshould, Hf, Ht.
    unfold getAdapterForUrl, adapters. cbn [fmap list_fmap snd].
    rewrite filter_cons_True by (simpl; by rewrite Hurl).
    cbn [head extractPosts redditAdapter].
    by rewrite (extract_malformed _ _ Hmal).
Qed.

(** A listing response whose first post the backend retitles. *)
Definition listing_response : Response :=
  {| ok := true; status := 200; statusText := "OK";
     headers := [("Content-Type", "application/json")];
     text := Some MergePatch.scenario_text |}.

Lemma service_fetch_fails_open_witness :
  let adapter := redditAdapter MergePatch.scenario_parse
                   MergePatch.print_first in
  let call := intercepted_fetch (fun _ _ => Some true)
                (fun _ => Some ["*://www.reddit.com/*"])
                [("reddit", adapter); ("twitter", adapter)]
                (fun _ => Resolved listing_response)
                (fun _ => Fulfilled [MergePatch.scenario_patch])
                "https://www.reddit.com/r/all.json" in
  s_outcome call
  = Settles (Resolved
               {| ok := true; status := 200; statusText := "OK";
                  headers := [("Content-Type", "application/json")];
                  text := Some (MergePatch.print_first
                                  (MergePatch.listing_of
                                     (MergePatch.scenario_post "T2"))) |})
  /\ length (s_requests call) = 1
  /\ exists res, s_outcome call = Settles res.
Proof.
  cbv zeta.
  pose proof (service_fetch_fails_open (fun _ _ => Some true)
                (fun _ => Some ["*://www.reddit.com/*"])
                MergePatch.scenario_parse MergePatch.print_first
                (redditAdapter MergePatch.scenario_parse
                   MergePatch.print_first)
                (fun _ => Resolved listing_response)
                (fun _ => Fulfilled [MergePatch.scenario_patch])
                "https://www.reddit.com/r/all.json")
    as (_ & _ & _ & _ & _ & Hsettles & _).
  split; [vm_compute; reflexivity|]. split; [vm_compute; reflexivity|].
  apply Hsettles.
  - intros pattern. discriminate.
  - intros posts. discriminate.
Defined.

End ServiceFacts.
